(** * A shallow embedding of the NBT editor's core (src/main.py)

    The editor keeps one mutable tag tree and offers two views of it: a
    path-addressed tree editor and an inventory view over a list of
    slot-tagged compounds.  The embedding follows the Python source: the
    methods of [NBTEditorApp], of [AddTagDialog] and of [ItemEditorDialog]
    become functions that take the tree (or the inventory list) and return
    it again, together with the message the user is shown, so that what a
    call leaves behind after an early [return] stays visible.  Of the
    widgets only what the operations read is kept: the texts of the entries,
    the mode of the value editor, the selection, the buttons and their
    states.

    Text is [string]; integers are [Z]; a dict is an association list in
    insertion order; a Python list is a [list]; the slot projection is a
    [gmap].  Whitespace and digits are those of ASCII: what Python makes of
    the whitespace and the digits of other scripts is not modelled. *)

From Stdlib Require Import ZArith Ascii String List Lia.
From Stdlib Require Import Decimal DecimalString DecimalPos DecimalFacts.
From Stdlib Require Import Floats.SpecFloat.
From Stdlib Require Import Sorting.Sorted Sorting.Permutation.
From stdpp Require Import base option list gmap strings sorting.

Set Warnings "-register-all".

Local Open Scope string_scope.
Local Open Scope Z_scope.

(** ** Results and the error taxonomy *)

(** The failures of the core.  The first eleven are the spec's; the message
    boxes of the source map onto them ("Enter a valid integer." and "Lists
    must contain integers separated by commas." are [InvalidInteger],
    "Values must be >= / <= ..." is [OutOfRange], "Slot in use" is
    [SlotConflict], and so on).  [InvalidSlot] is the editor dialog's
    "Slot must be an integer."; [UnsupportedType] is "Unsupported tag type";
    [Overflow] is the array constructor refusing an element that does not fit
    its item type; [NotAnInteger] is [int(tag)] on a tag that is no integer
    tag.  [OutOfRange] is also the tag library's exception of that name,
    raised by [Byte(n)], [Short(n)], ... on a value outside the width. *)
Inductive error : Set :=
  | InvalidInteger | InvalidFloat | OutOfRange | EmptyName | DuplicateName
  | TypeMismatch | InvalidCount | InvalidId | SlotConflict | NothingToDelete
  | NotFound | InvalidSlot | UnsupportedType | Overflow | NotAnInteger.

Inductive result (A : Type) : Type :=
  | Ok (a : A)
  | Err (e : error).
Arguments Ok {A} a.
Arguments Err {A} e.

(** Exceptions propagate: the first failure ends the computation. *)
#[global] Instance result_ret : MRet result := fun _ a => Ok a.
#[global] Instance result_bind : MBind result := fun _ _ k r =>
  match r with
  | Ok a => k a
  | Err e => Err e
  end.

(** ** Python text methods *)

Definition ascii_code (c : ascii) : Z := Z.of_N (N_of_ascii c).

(** [str.isspace] on the ASCII repertoire: tab, line feed, vertical tab, form
    feed, carriage return, the four separators 0x1c-0x1f and the space. *)
Definition is_space (c : ascii) : bool :=
  let n := ascii_code c in
  ((9 <=? n) && (n <=? 13)) || ((28 <=? n) && (n <=? 32)).

Definition char_in (chars : string) (c : ascii) : bool :=
  existsb (Ascii.eqb c) (list_ascii_of_string chars).

Fixpoint lstrip_by (p : ascii -> bool) (s : string) : string :=
  match s with
  | EmptyString => EmptyString
  | String c s' => if p c then lstrip_by p s' else s
  end.

Fixpoint rstrip_by (p : ascii -> bool) (s : string) : string :=
  match s with
  | EmptyString => EmptyString
  | String c s' =>
      match rstrip_by p s' with
      | EmptyString => if p c then EmptyString else String c EmptyString
      | r => String c r
      end
  end.

(** [s.strip()] *)
Definition strip (s : string) : string := rstrip_by is_space (lstrip_by is_space s).

(** [s.strip(chars)] *)
Definition strip_chars (chars : string) (s : string) : string :=
  rstrip_by (char_in chars) (lstrip_by (char_in chars) s).

(** [s.split(sep)] for a one-character separator: never an empty list. *)
Fixpoint split (sep : ascii) (s : string) : list string :=
  match s with
  | EmptyString => [EmptyString]
  | String c s' =>
      if Ascii.eqb c sep then EmptyString :: split sep s'
      else match split sep s' with
           | h :: t => String c h :: t
           | [] => [String c EmptyString]
           end
  end.

(** [sep.join(parts)] *)
Fixpoint join (sep : string) (parts : list string) : string :=
  match parts with
  | [] => EmptyString
  | [p] => p
  | p :: rest => p ++ sep ++ join sep rest
  end.

Definition is_empty (s : string) : bool :=
  match s with EmptyString => true | _ => false end.

(** ** Python integers as text *)

(** The value of a character as a digit: [0-9], then [a-z] and [A-Z] as
    10..35. *)
Definition digit_value (c : ascii) : option Z :=
  let n := ascii_code c in
  if (48 <=? n) && (n <=? 57) then Some (n - 48)
  else if (97 <=? n) && (n <=? 122) then Some (n - 87)
  else if (65 <=? n) && (n <=? 90) then Some (n - 55)
  else None.

Definition is_digit (base : Z) (c : ascii) : bool :=
  match digit_value c with
  | Some d => d <? base
  | None => false
  end.

(** The digit scan of [int(text, base)]: digits, with single underscores
    between them; it stops at the first character that is neither, and fails
    when it stops (or ends) right after an underscore.  [prev] tells whether
    the character before was an underscore. *)
Fixpoint scan_digits (base : Z) (s : string) (acc : Z) (prev : bool)
  : option (Z * string) :=
  match s with
  | EmptyString => if prev then None else Some (acc, EmptyString)
  | String c s' =>
      if Ascii.eqb c "_" then
        if prev then None else scan_digits base s' acc true
      else
        match digit_value c with
        | Some d =>
            if d <? base then scan_digits base s' (acc * base + d) false
            else if prev then None else Some (acc, s)
        | None => if prev then None else Some (acc, s)
        end
  end.

(** A digit body has to start with a digit. *)
Definition digit_body (base : Z) (s : string) : option (Z * string) :=
  match s with
  | String c _ => if is_digit base c then scan_digits base s 0 false else None
  | EmptyString => None
  end.

Definition skip_underscore (s : string) : string :=
  match s with
  | String "_" s' => s'
  | _ => s
  end.

(** An optional sign in front of a literal. *)
Definition split_sign (s : string) : bool * string :=
  match s with
  | String c r =>
      if Ascii.eqb c "+" then (false, r)
      else if Ascii.eqb c "-" then (true, r)
      else (false, s)
  | EmptyString => (false, s)
  end.

(** Base 0: the prefixes [0x], [0o], [0b] choose the base (one underscore
    may follow the prefix); any other literal is decimal, and one that
    starts with 0 has to be zero.  The result is the base, the digit body
    and whether the value has to be zero. *)
Definition choose_base (s : string) : Z * string * bool :=
  match s with
  | String c0 rest =>
      if Ascii.eqb c0 "0" then
        match rest with
        | String c r =>
            if char_in "xX" c then (16, skip_underscore r, false)
            else if char_in "oO" c then (8, skip_underscore r, false)
            else if char_in "bB" c then (2, skip_underscore r, false)
            else (10, s, true)
        | EmptyString => (10, s, true)
        end
      else (10, s, false)
  | EmptyString => (10, s, false)
  end.

(** The whitespace that [int] skips around the literal of an ASCII text:
    tab, line feed, vertical tab, form feed, carriage return and the space.
    The separators 0x1c-0x1f, which [str.strip] removes, are not among
    them: [int] refuses a text that begins or ends with one. *)
Definition is_int_space (c : ascii) : bool :=
  let n := ascii_code c in
  ((9 <=? n) && (n <=? 13)) || (n =? 32).

(** [int(text, base)] for [base] 0 ([auto_base]) or 10: surrounding
    whitespace, an optional sign, then a literal of Python's grammar.
    [None] stands for [ValueError].  The interpreter's limit on the length
    of a decimal literal is not modelled. *)
Definition int_literal (auto_base : bool) (text : string) : option Z :=
  let '(neg, s2) := split_sign (lstrip_by is_int_space text) in
  let '(base, s3, zero_only) :=
    if auto_base then choose_base s2 else (10, s2, false) in
  match digit_body base s3 with
  | Some (v, rest) =>
      if zero_only && negb (v =? 0) then None
      else if is_empty (lstrip_by is_int_space rest)
           then Some (if neg : bool then - v else v)
           else None
  | None => None
  end.

(** [int(text, 0)] *)
Definition int0 (text : string) : option Z := int_literal true text.

(** [int(text)] *)
Definition int10 (text : string) : option Z := int_literal false text.

(** [str(n)] for an integer: decimal, a minus sign for negatives. *)
Definition str_int (n : Z) : string := NilZero.string_of_int (Z.to_int n).

(** ** Python floats as text

    A float is the IEEE value that Python holds: a double, also for the
    32-bit tag class, which narrows only when the file is written.  The
    editor reads a float with [float(text)] and shows it with [str(x)].
    What the operations do with a float does not depend on how the two
    functions work, so they are a parameter of the model; [python_float]
    below gives the interpreter's pair, after CPython: [float] with the
    grammar and the rounding of its [strtod], [str] with the shortest
    digits and the layout of its [repr]. *)
Class PyFloat := {
  float_of_text : string -> option spec_float;   (* [None]: ValueError *)
  str_float : spec_float -> string
}.

(** *** Reading a float: [float(text)]

    The text is ASCII.  An underscore is allowed between two digits and
    nowhere else; the underscores are dropped before anything is read. *)
Fixpoint drop_underscores (prev : option ascii) (s : string) : option string :=
  match s with
  | EmptyString =>
      match prev with
      | Some "_"%char => None
      | _ => Some EmptyString
      end
  | String c s' =>
      if Ascii.eqb c "_" then
        match prev with
        | Some p => if is_digit 10 p then drop_underscores (Some c) s' else None
        | None => None
        end
      else
        match prev with
        | Some "_"%char =>
            if is_digit 10 c then String c <$> drop_underscores (Some c) s'
            else None
        | _ => String c <$> drop_underscores (Some c) s'
        end
  end.

(** A run of decimal digits at the front of [s]: their value on top of
    [acc], how many they are on top of [n], and the rest of the text. *)
Fixpoint scan_decimal (s : string) (acc : Z) (n : nat) : Z * nat * string :=
  match s with
  | EmptyString => (acc, n, s)
  | String c s' =>
      if is_digit 10 c
      then scan_decimal s' (acc * 10 + default 0 (digit_value c)) (S n)
      else (acc, n, s)
  end.

(** The exponent of a number: "e" or "E", a sign, digits.  Without a digit
    it is not read, and the text is left where the "e" stands. *)
Definition exponent_part (s : string) : Z * string :=
  match s with
  | String c r =>
      if char_in "eE" c then
        let '(neg, r1) := split_sign r in
        let '(v, n, r2) := scan_decimal r1 0 0 in
        match n with
        | O => (0, s)
        | _ => (if neg : bool then - v else v, r2)
        end
      else (0, s)
  | EmptyString => (0, s)
  end.

(** The number of the interpreter's [strtod], after the sign: digits, a
    point, digits, with a digit on one side of the point at least, and an
    exponent.  The result is the integer [m] and the power of ten [k] of the
    value [m * 10^k], and the rest of the text. *)
Definition decimal_literal (s : string) : option (Z * Z * string) :=
  let '(int_value, int_digits, s1) := scan_decimal s 0 0 in
  let '(m, frac_digits, s2) :=
    match s1 with
    | String "." r => scan_decimal r int_value 0
    | _ => (int_value, 0%nat, s1)
    end in
  match int_digits, frac_digits with
  | O, O => None
  | _, _ =>
      let '(e, s3) := exponent_part s2 in
      Some (m, e - Z.of_nat frac_digits, s3)
  end.

(** [m * 10^k] as a double: the quotient of two integers, rounded to the
    nearest double, to the even one of two that are equally near, with an
    infinity for a value beyond the largest double and a zero for one below
    the smallest.  The rounding is that of the Standard Library's
    [SpecFloat], for a mantissa of 53 bits. *)
Definition round_decimal (neg : bool) (m k : Z) : spec_float :=
  match m with
  | Zpos _ =>
      SFdiv 53 1024
        (S754_finite neg (Z.to_pos (m * 10 ^ Z.max k 0)) 0)
        (S754_finite false (Z.to_pos (10 ^ Z.max (- k) 0)) 0)
  | _ => S754_zero neg
  end.

Definition lower (c : ascii) : ascii :=
  let n := ascii_code c in
  if (65 <=? n) && (n <=? 90) then ascii_of_N (Z.to_N (n + 32)) else c.

(** [s] without the prefix [word], compared without regard to case. *)
Fixpoint after_word (word s : string) : option string :=
  match word, s with
  | EmptyString, _ => Some s
  | String w word', String c s' =>
      if Ascii.eqb (lower c) w then after_word word' s' else None
  | String _ _, EmptyString => None
  end.

(** "inf", "infinity" and "nan", after the sign. *)
Definition inf_or_nan (neg : bool) (s : string) : option (spec_float * string) :=
  match after_word "inf" s with
  | Some rest =>
      Some (S754_infinity neg, default rest (after_word "inity" rest))
  | None =>
      match after_word "nan" s with
      | Some rest => Some (S754_nan, rest)
      | None => None
      end
  end.

(** [float(text)]; [None] stands for [ValueError]. *)
Definition float_of_string (text : string) : option spec_float :=
  match drop_underscores None text with
  | None => None
  | Some s =>
      let '(neg, body) :=
        split_sign (rstrip_by is_int_space (lstrip_by is_int_space s)) in
      match decimal_literal body with
      | Some (m, k, rest) =>
          if is_empty rest then Some (round_decimal neg m k) else None
      | None =>
          match inf_or_nan neg body with
          | Some (x, rest) => if is_empty rest then Some x else None
          | None => None
          end
      end
  end.

(** *** Writing a float: [str(x)]

    [str(x)] is [repr(x)]: the shortest run of decimal digits that
    [float] reads back as [x], laid out with a point or with an exponent. *)

(** The digits of a positive integer. *)
Definition digits_of (n : positive) : string :=
  NilEmpty.string_of_uint (Pos.to_uint n).

Fixpoint zeros (n : nat) : string :=
  match n with
  | O => EmptyString
  | S n' => String "0" (zeros n')
  end.

(** The exponent of [repr]: a sign and two digits at least. *)
Definition exponent_text (e : Z) : string :=
  (if e <? 0 then "-" else "+")
  ++ (if Z.abs e <? 10 then "0" else "") ++ str_int (Z.abs e).

(** The first [n] characters of [s], and the rest. *)
Fixpoint take_chars (n : nat) (s : string) : string :=
  match n, s with
  | S n', String c s' => String c (take_chars n' s')
  | _, _ => EmptyString
  end.

Fixpoint drop_chars (n : nat) (s : string) : string :=
  match n, s with
  | S n', String c s' => drop_chars n' s'
  | _, _ => s
  end.

(** The layout of [repr] for the digits [digits], the first of them
    standing [decpt] places before the point: with an exponent when [decpt]
    is below -3 or above 16, with a point otherwise, and ".0" after an
    integer. *)
Definition repr_layout (neg : bool) (digits : string) (decpt : Z) : string :=
  let len := Z.of_nat (String.length digits) in
  (if neg then "-" else "") ++
  if (decpt <=? -4) || (16 <? decpt) then
    take_chars 1 digits
    ++ (if 1 <? len then "." ++ drop_chars 1 digits else "")
    ++ "e" ++ exponent_text (decpt - 1)
  else if decpt <=? 0 then
    "0." ++ zeros (Z.to_nat (- decpt)) ++ digits
  else if decpt <? len then
    take_chars (Z.to_nat decpt) digits ++ "."
    ++ drop_chars (Z.to_nat decpt) digits
  else
    digits ++ zeros (Z.to_nat (decpt - len)) ++ ".0".

(** The digits of [d] without its zeros at the end, and how many zeros
    there were. *)
Definition significant (d : positive) : string * Z :=
  let text := digits_of d in
  let kept := rstrip_by (Ascii.eqb "0") text in
  (kept, Z.of_nat (String.length text) - Z.of_nat (String.length kept)).

(** The text of the decimal [d * 10^k]. *)
Definition decimal_text (neg : bool) (d : positive) (k : Z) : string :=
  repr_layout neg (significant d).1
    (Z.of_nat (String.length (digits_of d)) + k).

#[global] Instance spec_float_eq_dec : EqDecision spec_float.
Proof. solve_decision. Defined.

(** The search for the shortest digits.  [n * 10^k] is the exact value of
    [x], and [len] the number of digits of [n].  With [count] digits there
    are two candidates, the decimal below the value and the one above; one
    that [float] reads back as [x] is the result, the nearer of the two when
    both are, and of two equally near the one with the even last digit.
    Otherwise one digit more is tried, until, [fuel] digits later, all the
    digits of [n] are written. *)
Fixpoint shortest_decimal (x : spec_float) (neg : bool) (n : positive)
  (len k : Z) (fuel : nat) (count : Z) : string :=
  match fuel with
  | O => decimal_text neg n k
  | S fuel' =>
      let scale := 10 ^ (len - count) in
      let below := Z.to_pos (Zpos n / scale) in
      let rest := Zpos n mod scale in
      let text_below := decimal_text neg below (len - count + k) in
      let text_above := decimal_text neg (below + 1) (len - count + k) in
      let ok_below := bool_decide (float_of_string text_below = Some x) in
      let ok_above := bool_decide (float_of_string text_above = Some x) in
      let nearer_below :=
        (2 * rest <? scale) || ((2 * rest =? scale) && Z.even (Zpos below)) in
      if ok_below && (negb ok_above || nearer_below) then text_below
      else if ok_above then text_above
      else shortest_decimal x neg n len k fuel' (count + 1)
  end.

(** [str(x)] *)
Definition float_repr (x : spec_float) : string :=
  match x with
  | S754_zero neg => if neg then "-0.0" else "0.0"
  | S754_infinity neg => if neg then "-inf" else "inf"
  | S754_nan => "nan"
  | S754_finite neg m e =>
      let '(n, k) :=
        if 0 <=? e then (Z.to_pos (Zpos m * 2 ^ e), 0)
        else (Z.to_pos (Zpos m * 5 ^ (- e)), e) in
      let len := String.length (digits_of n) in
      shortest_decimal x neg n (Z.of_nat len) k (len - 1) 1
  end.

(** The value of a run of decimal digits, on top of [acc]. *)
Fixpoint digits_value (s : string) (acc : Z) : Z :=
  match s with
  | EmptyString => acc
  | String c s' => digits_value s' (acc * 10 + default 0 (digit_value c))
  end.

(** [s] does not go on with a digit. *)
Definition no_digit_head (s : string) : Prop :=
  match s with
  | EmptyString => True
  | String c _ => is_digit 10 c = false
  end.

(** The decimal [v * 10^k] is the double [m * 2^e]. *)
Definition decimal_is (v k : Z) (m : positive) (e : Z) : Prop :=
  v * 10 ^ Z.max k 0 * 2 ^ Z.max (- e) 0
  = Zpos m * 2 ^ Z.max e 0 * 10 ^ Z.max (- k) 0.

(** The interpreter's [float(text)] and [str(x)]. *)
Definition python_float : PyFloat :=
  {| float_of_text := float_of_string; str_float := float_repr |}.

(** ** The tag model *)

Inductive numeric_type : Set := Byte | Short | Int | Long.
Inductive float_type : Set := Float | Double.
Inductive array_type : Set := ByteArray | IntArray | LongArray.

(** The twelve tag classes of [TAG_CLASS_MAP]. *)
Inductive tag_class : Set :=
  | Numeric (c : numeric_type)
  | Floating (c : float_type)
  | StringTag
  | Array (c : array_type)
  | Compound
  | NbtList.

#[global] Instance numeric_type_eq_dec : EqDecision numeric_type.
Proof. solve_decision. Defined.
#[global] Instance float_type_eq_dec : EqDecision float_type.
Proof. solve_decision. Defined.
#[global] Instance array_type_eq_dec : EqDecision array_type.
Proof. solve_decision. Defined.
#[global] Instance tag_class_eq_dec : EqDecision tag_class.
Proof. solve_decision. Defined.

(** A tag.  A compound is a Python dict: an association list in insertion
    order.  A list carries its subtype, [None] for the "End" subtype of an
    untyped list. *)
Inductive tag : Type :=
  | TNum (c : numeric_type) (n : Z)
  | TFloat (c : float_type) (x : spec_float)
  | TString (s : string)
  | TArray (c : array_type) (values : list Z)
  | TCompound (entries : list (string * tag))
  | TList (subtype : option tag_class) (items : list tag).

Definition class_of (t : tag) : tag_class :=
  match t with
  | TNum c _ => Numeric c
  | TFloat c _ => Floating c
  | TString _ => StringTag
  | TArray c _ => Array c
  | TCompound _ => Compound
  | TList _ _ => NbtList
  end.

Definition TAG_CLASS_MAP : list (string * tag_class) :=
  [ ("Byte", Numeric Byte); ("Short", Numeric Short); ("Int", Numeric Int);
    ("Long", Numeric Long); ("Float", Floating Float);
    ("Double", Floating Double); ("String", StringTag);
    ("ByteArray", Array ByteArray); ("IntArray", Array IntArray);
    ("LongArray", Array LongArray); ("Compound", Compound);
    ("List", NbtList) ].

(** [d.get(key)] on an association list: the first entry of that key. *)
Fixpoint dict_get {V} (key : string) (d : list (string * V)) : option V :=
  match d with
  | [] => None
  | (k, v) :: d' => if String.eqb k key then Some v else dict_get key d'
  end.

(** [key in d] *)
Definition dict_mem {V} (key : string) (d : list (string * V)) : bool :=
  match dict_get key d with Some _ => true | None => false end.

(** [d[key] = v]: an existing key keeps its place, a new key goes last. *)
Fixpoint dict_set {V} (key : string) (v : V) (d : list (string * V))
  : list (string * V) :=
  match d with
  | [] => [(key, v)]
  | (k, w) :: d' =>
      if String.eqb k key then (k, v) :: d' else (k, w) :: dict_set key v d'
  end.

(** [del d[key]], the dict part of [d.pop(key)]. *)
Fixpoint dict_del {V} (key : string) (d : list (string * V))
  : list (string * V) :=
  match d with
  | [] => []
  | (k, w) :: d' => if String.eqb k key then d' else (k, w) :: dict_del key d'
  end.

(** [CLASS_NAME_MAP]: the inverse of [TAG_CLASS_MAP]. *)
Definition class_name (c : tag_class) : string :=
  match c with
  | Numeric Byte => "Byte" | Numeric Short => "Short" | Numeric Int => "Int"
  | Numeric Long => "Long" | Floating Float => "Float"
  | Floating Double => "Double" | StringTag => "String"
  | Array ByteArray => "ByteArray" | Array IntArray => "IntArray"
  | Array LongArray => "LongArray" | Compound => "Compound"
  | NbtList => "List"
  end.

(** [type(tag).__name__]: a typed list's class is named after its subtype. *)
Definition type_name (t : tag) : string :=
  match t with
  | TList (Some c) _ => "List[" ++ class_name c ++ "]"
  | _ => class_name (class_of t)
  end.

(** *** The tag library's constructors

    Modelled from the spec: the tag classes come from the tag library
    (nbtlib), which is not among the sources.  The spec gives the integer
    tags as signed integers of 8, 16, 32 and 64 bits and the arrays as
    sequences of the corresponding width (ByteArray 8, IntArray 32,
    LongArray 64), and leaves to the implementation what happens to a value
    outside the width.  The model follows the library: its numeric
    constructors raise [OutOfRange], a [ValueError] (which is why
    [_create_tag_from_input] reports it as an invalid integer), and its
    array constructor raises [OverflowError]. *)
Definition numeric_bits (c : numeric_type) : Z :=
  match c with Byte => 8 | Short => 16 | Int => 32 | Long => 64 end.

Definition array_bits (c : array_type) : Z :=
  match c with ByteArray => 8 | IntArray => 32 | LongArray => 64 end.

Definition fits (bits n : Z) : bool :=
  (- 2 ^ (bits - 1) <=? n) && (n <? 2 ^ (bits - 1)).

Definition make_numeric (c : numeric_type) (n : Z) : result tag :=
  if fits (numeric_bits c) n then Ok (TNum c n) else Err OutOfRange.

Definition make_array (c : array_type) (values : list Z) : result tag :=
  if forallb (fits (array_bits c)) values then Ok (TArray c values)
  else Err Overflow.

(** ** Coercion of text to a tag *)

Definition below (minimum : option Z) (value : Z) : bool :=
  match minimum with Some m => value <? m | None => false end.

Definition above (maximum : option Z) (value : Z) : bool :=
  match maximum with Some m => m <? value | None => false end.

(** The [for part in parts] loop of [_parse_int_list]; [numbers] is the list
    built so far. *)
Fixpoint parse_int_loop (minimum maximum : option Z) (parts : list string)
  (numbers : list Z) : result (list Z) :=
  match parts with
  | [] => Ok numbers
  | part :: rest =>
      match int0 part with
      | None => Err InvalidInteger
      | Some value =>
          if below minimum value then Err OutOfRange
          else if above maximum value then Err OutOfRange
          else parse_int_loop minimum maximum rest (numbers ++ [value])
      end
  end.

(** The list comprehension of [_parse_int_list]: the trimmed segments that
    are not empty. *)
Definition int_list_parts (stripped : string) : list string :=
  filter (fun part => is_empty part = false) (map strip (split "," stripped)).

Definition _parse_int_list (text : string) (minimum maximum : option Z)
  : result (list Z) :=
  if is_empty (strip text) then Ok []
  else
    let stripped := strip_chars "[]" (strip text) in
    parse_int_loop minimum maximum (int_list_parts stripped) [].

Definition _create_tag_from_input `{PyFloat} (type_name : string)
  (value : string) : result tag :=
  match dict_get (strip type_name) TAG_CLASS_MAP with
  | None => Err UnsupportedType
  | Some Compound => Ok (TCompound [])
  | Some NbtList => Ok (TList None [])
  | Some StringTag => Ok (TString value)
  | Some (Numeric c) =>
      match int0 value with
      | None => Err InvalidInteger
      | Some n =>
          match make_numeric c n with
          | Ok t => Ok t
          | Err _ => Err InvalidInteger
          end
      end
  | Some (Floating c) =>
      match float_of_text value with
      | None => Err InvalidFloat
      | Some x => Ok (TFloat c x)
      end
  | Some (Array ByteArray) =>
      values ← _parse_int_list value (Some (-128)) (Some 127);
      make_array ByteArray values
  | Some (Array IntArray) =>
      values ← _parse_int_list value None None;
      make_array IntArray values
  | Some (Array LongArray) =>
      values ← _parse_int_list value None None;
      make_array LongArray values
  end.

(** ** The detail panel: what the value editor shows for a tag *)

Inductive editor_mode : Set := ModeEntry | ModeText | ModeMessage.

(** [value_editor_mode] as [_update_detail_panel] leaves it. *)
Definition value_editor_mode (t : tag) : editor_mode :=
  match t with
  | TCompound _ | TList _ _ => ModeMessage
  | TArray _ _ => ModeText
  | _ => ModeEntry
  end.

(** The text [_update_detail_panel] puts into the value editor; a container
    shows a message and has no text. *)
Definition editable_text `{PyFloat} (t : tag) : string :=
  match t with
  | TArray _ values => join ", " (map str_int values)
  | TNum _ n => str_int n
  | TFloat _ x => str_float x
  | TString s => s
  | TCompound _ | TList _ _ => ""
  end.

(** [_get_value_input]: the entry's text as it is, the text box's text
    stripped. *)
Definition _get_value_input (mode : editor_mode) (widget : string) : string :=
  match mode with
  | ModeEntry => widget
  | ModeText => strip widget
  | ModeMessage => ""
  end.

(** ** Tree addressing *)

(** A path component: a compound key or a list index. *)
Inductive key : Set :=
  | Name (s : string)
  | Index (i : nat).

#[global] Instance key_eq_dec : EqDecision key.
Proof. solve_decision. Defined.

Definition path := list key.

Definition child (t : tag) (k : key) : option tag :=
  match t, k with
  | TCompound entries, Name s => dict_get s entries
  | TList _ items, Index i => items !! i
  | _, _ => None
  end.

Fixpoint resolve (t : tag) (p : path) : option tag :=
  match p with
  | [] => Some t
  | k :: p' =>
      match child t k with
      | Some c => resolve c p'
      | None => None
      end
  end.

(** What [_insert_tree_item] stores for a tree item. *)
Record NodeInfo := {
  node_tag : tag;
  node_parent : option tag;
  node_key : option key;
  node_path : path
}.

(** The [NodeInfo] that [build_tree] records for the node at [p]. *)
Definition node_info (root : tag) (p : path) : option NodeInfo :=
  match last p with
  | None =>
      Some {| node_tag := root; node_parent := None; node_key := None;
              node_path := [] |}
  | Some k =>
      match resolve root (removelast p) with
      | Some parent =>
          match child parent k with
          | Some t =>
              Some {| node_tag := t; node_parent := Some parent;
                      node_key := Some k; node_path := p |}
          | None => None
          end
      | None => None
      end
  end.

Fixpoint dict_alter {V} (f : V -> V) (key : string) (d : list (string * V))
  : list (string * V) :=
  match d with
  | [] => []
  | (k, w) :: d' =>
      if String.eqb k key then (k, f w) :: d' else (k, w) :: dict_alter f key d'
  end.

(** The tree after the object at path [p] has become [new]: a container is
    mutated in place, so the change shows wherever the tree is read. *)
Fixpoint set_at (t : tag) (p : path) (new : tag) {struct p} : tag :=
  match p with
  | [] => new
  | k :: p' =>
      match t, k with
      | TCompound entries, Name s =>
          TCompound (dict_alter (fun c => set_at c p' new) s entries)
      | TList st items, Index i =>
          TList st (alter (fun c => set_at c p' new) i items)
      | _, _ => t
      end
  end.

(** [parent[key] = new_tag] *)
Definition set_child (parent : tag) (k : key) (new_tag : tag) : tag :=
  match parent, k with
  | TCompound entries, Name s => TCompound (dict_set s new_tag entries)
  | TList st items, Index i => TList st (<[i := new_tag]> items)
  | _, _ => parent
  end.

(** ** Editing operations *)

(** The first part of [apply_changes], "Handle rename when applicable": an
    entry of a compound takes the name in the name entry.  It yields the
    tree, the parent and the key as they are after the block, or the error
    shown. *)
Definition handle_rename (root : tag) (info : NodeInfo) (name_var : string)
  : result (tag * option tag * option key) :=
  match node_parent info, node_key info with
  | Some (TCompound entries), Some (Name key) =>
      let new_name := strip name_var in
      if is_empty new_name then Err EmptyName
      else if negb (String.eqb new_name key) && dict_mem new_name entries
      then Err DuplicateName
      else if negb (String.eqb new_name key) then
        (* parent[new_name] = parent.pop(key) *)
        let parent' :=
          TCompound (dict_set new_name (node_tag info) (dict_del key entries)) in
        Ok (set_at root (removelast (node_path info)) parent',
            Some parent', Some (Name new_name))
      else Ok (root, node_parent info, node_key info)
  | parent, key => Ok (root, parent, key)
  end.

(** [apply_changes]: the tree after the call and the error shown, if any.
    [current_path] is the selected node, [name_var] and [value_widget] the
    contents of the name entry and of the value editor. *)
Definition apply_changes `{PyFloat} (root : tag) (current_path : path)
  (name_var value_widget : string) : tag * option error :=
  match node_info root current_path with
  | None => (root, None)
  | Some info =>
      let t := node_tag info in
      match handle_rename root info name_var with
      | Err e => (root, Some e)
      | Ok (root1, parent, key) =>
          match value_editor_mode t with
          | ModeMessage => (root1, None)
          | mode =>
              match _create_tag_from_input (type_name t)
                      (_get_value_input mode value_widget) with
              | Err e => (root1, Some e)
              | Ok new_tag =>
                  match parent, key with
                  | Some parent, Some k =>
                      (set_at root1 (removelast current_path)
                         (set_child parent k new_tag), None)
                  | _, _ => (new_tag, None)
                  end
              end
          end
      end
  end.

(** What [AddTagDialog.show] returns when the user submits. *)
Record AddTagResult := {
  result_name : option string;
  result_type : string;
  result_value : string
}.

(** *** The tag library's list methods

    Modelled from the spec: [List.append] and the typed list constructor
    belong to the tag library.  The spec requires all elements of a list to
    share its subtype and has an insertion of another kind fail with
    [TypeMismatch]; the library does so (it raises on an item that is not of
    the list's subtype), and nothing can be appended to a list whose subtype
    is still "End". *)
Definition list_append (l : tag) (new_tag : tag) : result tag :=
  match l with
  | TList (Some c) items =>
      if decide (class_of new_tag = c) then Ok (TList (Some c) (items ++ [new_tag]))
      else Err TypeMismatch
  | _ => Err TypeMismatch
  end.

(** [NbtList[list_type](tag)] *)
Definition typed_list (list_type : tag_class) (l : tag) : result tag :=
  match l with
  | TList _ items =>
      if forallb (fun t => bool_decide (class_of t = list_type)) items
      then Ok (TList (Some list_type) items)
      else Err TypeMismatch
  | _ => Err TypeMismatch
  end.

(** [_replace_tag]: the new tag takes the place of the node that [info]
    describes, in its parent ([parent[key] = new_tag]) or as the root. *)
Definition _replace_tag (root : tag) (info : NodeInfo) (new_tag : tag) : tag :=
  match node_parent info, node_key info with
  | Some parent, Some k =>
      set_at root (removelast (node_path info)) (set_child parent k new_tag)
  | _, _ => new_tag
  end.

(** [add_child]: the tree after the call and the error shown, if any.
    [dialog] is what the add-tag dialog returned, [None] when cancelled.

    [tag.append(new_tag)] mutates the list object that [tag] names.  For a
    typed list that is the tree's own object, and the tree changes where the
    list is.  For an untyped list [tag] has been rebound to [new_list], a
    fresh object that is in the tree only because [_replace_tag] has put it
    there: the tree then holds what [_replace_tag] stored, in the state the
    append leaves that object in. *)
Definition add_child `{PyFloat} (root : tag) (current_path : path)
  (dialog : option AddTagResult) : tag * option error :=
  match node_info root current_path with
  | None => (root, None)
  | Some parent_info =>
      match node_tag parent_info, dialog with
      | TCompound entries, Some res =>
          match result_name res with
          | None => (root, None)   (* the compound dialog requires a name *)
          | Some name =>
              if dict_mem name entries then (root, Some DuplicateName)
              else
                match _create_tag_from_input (result_type res) (result_value res) with
                | Err e => (root, Some e)
                | Ok new_tag =>
                    (set_at root current_path
                       (TCompound (dict_set name new_tag entries)), None)
                end
          end
      | TList subtype items, Some res =>
          match _create_tag_from_input (result_type res) (result_value res) with
          | Err e => (root, Some e)
          | Ok new_tag =>
              match subtype with
              | None =>
                  match dict_get (result_type res) TAG_CLASS_MAP with
                  | None => (root, Some UnsupportedType)
                  | Some list_type =>
                      match typed_list list_type (TList subtype items) with
                      | Err e => (root, Some e)
                      | Ok new_list =>
                          match list_append new_list new_tag with
                          | Err e => (_replace_tag root parent_info new_list, Some e)
                          | Ok appended =>
                              (_replace_tag root parent_info appended, None)
                          end
                      end
                  end
              | Some _ =>
                  match list_append (TList subtype items) new_tag with
                  | Err e => (root, Some e)
                  | Ok appended => (set_at root current_path appended, None)
                  end
              end
          end
      | _, _ => (root, None)
      end
  end.

(** ** Inventory handling *)

(** An inventory entry is a compound.  The inventory is the list tag under
    "Inventory" (or "EnderItems"): it is given by its subtype, which none of
    the calls below changes, and by its entries.  The subtype is
    [Some Compound] for a list of compounds and [None] ("End") for the
    empty list without a type, which is what the tag library reads from a
    file that holds an empty inventory. *)
Definition compound := list (string * tag).

(** [inventory_tag.append(new_item)]: the tag library's [List.append] (see
    [list_append]) on a list tag whose entries are compounds.  The library
    refuses the item unless the list's subtype is Compound. *)
Definition inventory_append (subtype : option tag_class)
  (inventory : list compound) (new_item : compound) : result (list compound) :=
  match subtype with
  | Some Compound => Ok (inventory ++ [new_item])%list
  | _ => Err TypeMismatch
  end.

(** [int(x)] for a float: truncation toward zero; an infinity raises
    [OverflowError] and NaN raises [ValueError]. *)
Definition int_of_float (x : spec_float) : result Z :=
  match x with
  | S754_zero _ => Ok 0
  | S754_finite s m e =>
      let magnitude :=
        if 0 <=? e then Z.pos m * 2 ^ e else Z.pos m / 2 ^ (- e) in
      Ok (if s then - magnitude else magnitude)
  | S754_infinity _ => Err Overflow
  | S754_nan => Err InvalidInteger
  end.

(** [int(tag)].  An integer tag is its value, a float tag is truncated, a
    string tag is parsed as a decimal literal.  An array or a container is
    no integer and is refused (what the array library does with an array of
    one element depends on its version; the model refuses that too). *)
Definition int_of_tag (t : tag) : result Z :=
  match t with
  | TNum _ n => Ok n
  | TFloat _ x => int_of_float x
  | TString s =>
      match int10 s with
      | Some n => Ok n
      | None => Err InvalidInteger
      end
  | TArray _ _ | TCompound _ | TList _ _ => Err NotAnInteger
  end.

(** [int(item.get("Slot", Byte(0)))] *)
Definition slot_of (item : compound) : result Z :=
  int_of_tag (default (TNum Byte 0) (dict_get "Slot" item)).

(** The loop of [_populate_inventory_frame] that builds [items_by_slot]. *)
Fixpoint items_by_slot_loop (inventory : list compound)
  (items_by_slot : gmap Z compound) : result (gmap Z compound) :=
  match inventory with
  | [] => Ok items_by_slot
  | item :: rest =>
      slot_value ← slot_of item;
      items_by_slot_loop rest (<[slot_value := item]> items_by_slot)
  end.

Definition items_by_slot (inventory : list compound) : result (gmap Z compound) :=
  items_by_slot_loop inventory ∅.

(** [_find_inventory_item].  An entry is identified by its position in the
    list ([item is exclude] compares objects, and the list holds each object
    once); [i] is the position of the head of [items]. *)
Fixpoint find_from (i : nat) (items : list compound) (slot : Z)
  (exclude : option nat) : result (option nat) :=
  match items with
  | [] => Ok None
  | item :: rest =>
      if decide (exclude = Some i) then find_from (S i) rest slot exclude
      else
        s ← slot_of item;
        if s =? slot then Ok (Some i) else find_from (S i) rest slot exclude
  end.

Definition _find_inventory_item (inventory : list compound) (slot : Z)
  (exclude : option nat) : result (option nat) :=
  find_from 0 inventory slot exclude.

(** *** The item dialog's entries *)

(** [str(tag)]: the text of a String tag.  What the tag library prints for
    the other tags is a parameter of the model. *)
Class TagText := {
  str_other : tag -> string
}.

Definition str_tag `{TagText} (t : tag) : string :=
  match t with
  | TString s => s
  | _ => str_other t
  end.

(** The three entries of [ItemEditorDialog] as [__init__] fills them:
    [slot_var] with the slot of the button, [id_var] and [count_var] with the
    id and the count of the entry found for it.  An entry that is missing
    (or an empty compound, which is falsy) gives an empty id and the
    count 1. *)
Definition initial_slot (slot : Z) : string := str_int slot.

Definition initial_id `{TagText} (item : option compound) : string :=
  match item with
  | Some ((_ :: _) as entry) =>
      match dict_get "id" entry with
      | Some t => str_tag t
      | None => ""
      end
  | _ => ""
  end.

Definition initial_count (item : option compound) : result string :=
  match item with
  | Some ((_ :: _) as entry) =>
      match dict_get "Count" entry with
      | Some t => n ← int_of_tag t; Ok (str_int n)
      | None => Ok (str_int 1)
      end
  | _ => Ok (str_int 1)
  end.

(** What the item dialog returns: [{"action": "delete"}] or
    [{"action": "save", "slot": .., "id": .., "count": ..}]. *)
Inductive dialog_result : Type :=
  | ActionDelete
  | ActionSave (slot : Z) (id : string) (count : Z).

(** [ItemEditorDialog._parse_int] *)
Definition _parse_int (value : string) (allow_negative : bool) : option Z :=
  match int0 value with
  | None => None
  | Some number =>
      if negb allow_negative && (number <? 0) then None else Some number
  end.

(** [ItemEditorDialog._on_save]: the result the dialog closes with, or the
    error it shows (and stays open). *)
Definition _on_save (slot_var id_var count_var : string) : result dialog_result :=
  match _parse_int (strip slot_var) true with
  | None => Err InvalidSlot
  | Some slot_value =>
      let item_id := strip id_var in
      if is_empty item_id then Err InvalidId
      else
        match _parse_int (strip count_var) false with
        | None => Err InvalidCount
        | Some count_value =>
            if (0 <=? count_value) && (count_value <=? 64)
            then Ok (ActionSave slot_value item_id count_value)
            else Err InvalidCount
        end
  end.

(** [list.sort(key=...)] is a stable sort: insertion from the right, each
    entry placed before the entries of an equal or larger key. *)
Fixpoint insert_by_key (k : Z) (x : compound) (l : list (Z * compound))
  : list (Z * compound) :=
  match l with
  | [] => [(k, x)]
  | (k', y) :: l' =>
      if k <=? k' then (k, x) :: (k', y) :: l'
      else (k', y) :: insert_by_key k x l'
  end.

Fixpoint sort_keyed (l : list (Z * compound)) : list (Z * compound) :=
  match l with
  | [] => []
  | (k, x) :: l' => insert_by_key k x (sort_keyed l')
  end.

Fixpoint slot_keys (inventory : list compound) : result (list Z) :=
  match inventory with
  | [] => Ok []
  | item :: rest =>
      k ← slot_of item;
      ks ← slot_keys rest;
      Ok (k :: ks)
  end.

(** [inventory_tag.sort(key=lambda entry: int(entry.get("Slot", Byte(0))))];
    when a key cannot be computed the list is left as it was. *)
Definition sort_by_slot (inventory : list compound) : result (list compound) :=
  ks ← slot_keys inventory;
  Ok (map snd (sort_keyed (zip ks inventory))).

(** [_edit_inventory_item]: the entries of the inventory list after the call
    and the error, if any.  [subtype] and [inventory] are the list tag,
    [slot] is the slot of the button that was clicked, [answer] what the
    dialog returned ([None] when cancelled).  The dialog is made before it
    is shown: when [__init__] cannot read the Count of the entry found, its
    exception ends the call and there is no answer. *)
Definition _edit_inventory_item (subtype : option tag_class)
  (inventory : list compound) (slot : Z)
  (answer : option dialog_result) : list compound * option error :=
  match _find_inventory_item inventory slot None with
  | Err e => (inventory, Some e)
  | Ok item =>
      match initial_count (item ≫= λ i, inventory !! i) with
      | Err e => (inventory, Some e)
      | Ok _ =>
          match answer with
          | None => (inventory, None)
          | Some ActionDelete =>
              match item with
              | None => (inventory, Some NothingToDelete)
              | Some i => (delete i inventory, None)
              end
          | Some (ActionSave new_slot new_id new_count) =>
              match _find_inventory_item inventory new_slot item with
              | Err e => (inventory, Some e)
              | Ok (Some _) => (inventory, Some SlotConflict)
              | Ok None =>
                  let edited :=
                    match item with
                    | None =>
                        match make_numeric Byte new_slot,
                              make_numeric Byte new_count with
                        | Ok slot_tag, Ok count_tag =>
                            let new_item :=
                              dict_set "Count" count_tag
                                (dict_set "id" (TString new_id)
                                   (dict_set "Slot" slot_tag [])) in
                            match inventory_append subtype inventory new_item with
                            | Ok appended => (appended, None)
                            | Err e => (inventory, Some e)
                            end
                        | Err e, _ => (inventory, Some e)
                        | _, Err e => (inventory, Some e)
                        end
                    | Some i =>
                        match make_numeric Byte new_slot with
                        | Err e => (inventory, Some e)
                        | Ok slot_tag =>
                            let inventory1 :=
                              alter (fun item =>
                                       dict_set "id" (TString new_id)
                                         (dict_set "Slot" slot_tag item)) i inventory in
                            match make_numeric Byte new_count with
                            | Err e => (inventory1, Some e)
                            | Ok count_tag =>
                                (alter (dict_set "Count" count_tag) i inventory1, None)
                            end
                        end
                    end in
                  match edited with
                  | (inventory1, Some e) => (inventory1, Some e)
                  | (inventory1, None) =>
                      match sort_by_slot inventory1 with
                      | Err e => (inventory1, Some e)
                      | Ok sorted => (sorted, None)
                      end
                  end
              end
          end
      end
  end.

(** ** The tree view *)

(** The [for element in path] loop of [_path_to_string]; [parts] is the list
    built so far.  An index is appended to the last part ([parts[-1] += ..]),
    a name starts a new part, with a dot in front unless it is the first. *)
Fixpoint path_parts (p : path) (parts : list string) : list string :=
  match p with
  | [] => parts
  | Index i :: p' =>
      let text := "[" ++ str_int (Z.of_nat i) ++ "]" in
      path_parts p'
        match parts with
        | [] => [text]
        | _ => app (removelast parts) [default "" (last parts) ++ text]
        end
  | Name element :: p' =>
      path_parts p'
        (app parts [match parts with [] => element | _ => "." ++ element end])
  end.

Definition _path_to_string (p : path) : string := join "" (path_parts p []).

(** [_populate_tree]: the [NodeInfo]s that [_insert_tree_item] stores in
    [node_map], in the order in which the items are inserted; the keys of
    [path_to_id] are their paths.  The children of a compound come in the
    order of its entries, those of a list in the order of their indices, and
    each child is followed by its own descendants. *)
Fixpoint _populate_tree (t : tag) (p : path) {struct t} : list NodeInfo :=
  match t with
  | TCompound entries =>
      (fix items (rest : list (string * tag)) : list NodeInfo :=
         match rest with
         | [] => []
         | (key, value) :: rest' =>
             let child_path := (p ++ [Name key])%list in
             ({| node_tag := value; node_parent := Some t;
                 node_key := Some (Name key); node_path := child_path |}
              :: _populate_tree value child_path ++ items rest')%list
         end) entries
  | TList _ elements =>
      (fix enumerate (index : nat) (rest : list tag) : list NodeInfo :=
         match rest with
         | [] => []
         | value :: rest' =>
             let child_path := (p ++ [Index index])%list in
             ({| node_tag := value; node_parent := Some t;
                 node_key := Some (Index index); node_path := child_path |}
              :: _populate_tree value child_path ++ enumerate (S index) rest')%list
         end) 0%nat elements
  | _ => []
  end.

(** [a or b] on paths: an empty tuple counts as missing. *)
Definition or_path (a : option path) (b : path) : path :=
  match a with
  | Some (k :: q) => k :: q
  | _ => b
  end.

(** [build_tree], called by [refresh_views]: the [NodeInfo]s of the tree
    items, and the path whose item is selected at the end ([None] when
    [_clear_selection] is called instead).  [nbt_data] is the root compound
    of the loaded file, [None] when no file is loaded; an empty compound is
    falsy, and the tree is then left empty.  [current_path] is the path of
    the selection before the call. *)
Definition build_tree (nbt_data : option compound)
  (select_path current_path : option path) : list NodeInfo * option path :=
  match nbt_data with
  | None | Some [] => ([], None)
  | Some entries =>
      let root := TCompound entries in
      let node_map :=
        {| node_tag := root; node_parent := None; node_key := None;
           node_path := [] |} :: _populate_tree root [] in
      let target_path := or_path select_path (or_path current_path []) in
      (node_map,
       if decide (target_path ∈ map node_path node_map) then Some target_path
       else None)
  end.

(** ** The detail panel *)

(** What [_update_detail_panel] leaves in the widgets that the editing
    operations read: the path and type labels, the name entry and whether it
    can be edited, the mode and the text of the value editor, and which of
    the Apply, Add and Delete buttons are enabled.  The hints and the
    message of a container are display only and are left out.  A container
    shows no editor; its [panel_value] is the empty text, which is what
    [_get_value_input] returns in that mode. *)
Record DetailPanel := {
  panel_path : string;
  panel_type : string;
  panel_name_enabled : bool;
  panel_name : string;
  panel_mode : editor_mode;
  panel_value : string;
  panel_apply : bool;
  panel_add : bool;
  panel_delete : bool
}.

(** [str(key)] for a path component. *)
Definition str_key (k : key) : string :=
  match k with
  | Name s => s
  | Index i => str_int (Z.of_nat i)
  end.

Definition is_container (t : tag) : bool :=
  match t with
  | TCompound _ | TList _ _ => true
  | _ => false
  end.

Definition _update_detail_panel `{PyFloat} (info : NodeInfo) : DetailPanel :=
  let path_str := _path_to_string (node_path info) in
  let t := node_tag info in
  let in_compound :=
    match node_parent info with Some (TCompound _) => true | _ => false end in
  {| panel_path := if is_empty path_str then "(root)" else path_str;
     panel_type := type_name t;
     panel_name_enabled :=
       match node_parent info, node_key info with
       | Some (TCompound _), Some (Name _) => true
       | _, _ => false
       end;
     panel_name :=
       match node_parent info, node_key info with
       | Some (TCompound _), Some (Name key) => key
       | _, None => ""
       | _, Some k => str_key k
       end;
     panel_mode := value_editor_mode t;
     panel_value := editable_text t;
     panel_apply := if is_container t then in_compound else true;
     panel_add := is_container t;
     panel_delete :=
       match node_parent info with Some _ => true | None => false end |}.

(** ** Deleting a node *)

(** [del parent[key]] *)
Definition delete_child (parent : tag) (k : key) : tag :=
  match parent, k with
  | TCompound entries, Name s => TCompound (dict_del s entries)
  | TList st elements, Index i => TList st (delete i elements)
  | _, _ => parent
  end.

(** [delete_node]: the tree after the call, and the [select_path] that is
    handed to [refresh_views] ([None] when the views are not refreshed).
    [confirmed] is the answer to the "Are you sure" question. *)
Definition delete_node (root : tag) (current_path : path) (confirmed : bool)
  : tag * option path :=
  match node_info root current_path with
  | None => (root, None)
  | Some info =>
      match node_parent info, node_key info with
      | Some parent, Some k =>
          if confirmed then
            (set_at root (removelast current_path) (delete_child parent k),
             Some (removelast (node_path info)))
          else (root, None)
      | _, _ => (root, None)
      end
  end.

(** ** The add-tag dialog *)

(** The three message boxes of [AddTagDialog._on_submit]. *)
Inductive submit_error : Set := MissingType | MissingName | MissingValue.

(** [AddTagDialog._on_submit]: the result the dialog closes with, or the
    message it shows (and stays open). *)
Definition _on_submit (require_name : bool) (type_var name_var value_var : string)
  : submit_error + AddTagResult :=
  let type_name := strip type_var in
  if is_empty type_name then inl MissingType
  else
    let checked_name :=
      if require_name then
        let name := strip name_var in
        if is_empty name then None else Some (Some name)
      else Some None in
    match checked_name with
    | None => inl MissingName
    | Some name =>
        let value := strip value_var in
        if negb (String.eqb type_name "Compound" || String.eqb type_name "List")
           && is_empty value
        then inl MissingValue
        else inr {| result_name := name; result_type := type_name;
                    result_value := value |}
    end.

(** How [add_child] sets the dialog up for the selected tag: whether a name
    is asked for, the types on offer, the type selected at first and whether
    the user can change it.  A tag that is no container gets no dialog. *)
Record AddTagDialog := {
  require_name : bool;
  type_options : list string;
  preselected_type : option string;
  allow_type_selection : bool
}.

Definition add_child_dialog (t : tag) : option AddTagDialog :=
  match t with
  | TCompound _ =>
      Some {| require_name := true; type_options := map fst TAG_CLASS_MAP;
              preselected_type := None; allow_type_selection := true |}
  | TList (Some subtype) _ =>
      Some {| require_name := false; type_options := [class_name subtype];
              preselected_type := head [class_name subtype];
              allow_type_selection := false |}
  | TList None _ =>
      Some {| require_name := false; type_options := map fst TAG_CLASS_MAP;
              preselected_type := head (map fst TAG_CLASS_MAP);
              allow_type_selection := true |}
  | _ => None
  end.

(** The contents the type box of the dialog can have: the type selected at
    first (nothing when there is none), or, when the box is not disabled,
    one of the types on offer. *)
Definition selectable (d : AddTagDialog) (type_var : string) : Prop :=
  type_var = default "" (preselected_type d) ∨
  (allow_type_selection d = true ∧ type_var ∈ type_options d).

(** ** The slot buttons *)

Definition INVENTORY_GRID : list (list Z) :=
  [ [9; 10; 11; 12; 13; 14; 15; 16; 17];
    [18; 19; 20; 21; 22; 23; 24; 25; 26];
    [27; 28; 29; 30; 31; 32; 33; 34; 35];
    [0; 1; 2; 3; 4; 5; 6; 7; 8] ].

Definition ENDER_GRID : list (list Z) :=
  [ [0; 1; 2; 3; 4; 5; 6; 7; 8];
    [9; 10; 11; 12; 13; 14; 15; 16; 17];
    [18; 19; 20; 21; 22; 23; 24; 25; 26] ].

Definition SPECIAL_PLAYER_SLOTS : list Z := [103; 102; 101; 100; 150].

Definition SPECIAL_SLOT_NAMES : list (Z * string) :=
  [ (100, "Boots"); (101, "Leggings"); (102, "Chestplate"); (103, "Helmet");
    (150, "Offhand") ].

(** [d.get(slot)] on a dict with integer keys. *)
Fixpoint slot_name (slot : Z) (d : list (Z * string)) : option string :=
  match d with
  | [] => None
  | (k, name) :: d' => if k =? slot then Some name else slot_name slot d'
  end.

Definition newline : string := String (ascii_of_nat 10) "".

(** [_format_slot_button_text]: the two lines of a button.  [int(count_tag)]
    on a tag that is no number raises [TypeError], which is caught and gives
    the count 1; its other exceptions are not caught. *)
Definition _format_slot_button_text `{TagText} (slot : Z) (item : option compound)
  : result string :=
  let name := default ("Slot " ++ str_int slot) (slot_name slot SPECIAL_SLOT_NAMES) in
  match item with
  | None => Ok (name ++ newline ++ "Empty")
  | Some entry =>
      let item_name :=
        match dict_get "id" entry with
        | Some item_id => str_tag item_id
        | None => "Unknown"
        end in
      count ← match dict_get "Count" entry with
              | Some count_tag =>
                  match int_of_tag count_tag with
                  | Err NotAnInteger => Ok 1
                  | r => r
                  end
              | None => Ok 1
              end;
      Ok (name ++ newline ++ item_name ++ " ×" ++ str_int count)
  end.

(** A run of buttons: for each slot the text of its button, made from the
    entry [items_by_slot.get(slot)].  A click on the button calls
    [_edit_inventory_item] with the slot. *)
Fixpoint make_buttons `{TagText} (by_slot : gmap Z compound) (slots : list Z)
  : result (list (Z * string)) :=
  match slots with
  | [] => Ok []
  | slot :: rest =>
      text ← _format_slot_button_text slot (by_slot !! slot);
      buttons ← make_buttons by_slot rest;
      Ok ((slot, text) :: buttons)
  end.

Fixpoint make_rows `{TagText} (by_slot : gmap Z compound)
  (grid_layout : list (list Z)) : result (list (list (Z * string))) :=
  match grid_layout with
  | [] => Ok []
  | row_slots :: rest =>
      row ← make_buttons by_slot row_slots;
      rows ← make_rows by_slot rest;
      Ok (row :: rows)
  end.

(** The buttons of [_populate_inventory_frame].  The first component is the
    grid, row by row; the second is the column of special slots,
    [sorted(all_special)], which is there for the player's inventory
    only. *)
Definition _populate_inventory_frame `{TagText} (inventory : list compound)
  (grid_layout : list (list Z)) (special_slots : bool)
  : result (list (list (Z * string)) * list (Z * string)) :=
  by_slot ← items_by_slot inventory;
  grid ← make_rows by_slot grid_layout;
  let all_special : gset Z :=
    list_to_set SPECIAL_PLAYER_SLOTS
    ∪ filter (λ slot, slot ∉ concat grid_layout) (dom by_slot) in
  special ← (if special_slots
             then make_buttons by_slot (merge_sort Z.le (elements all_special))
             else Ok []);
  Ok (grid, special).

(** ** Notions used to state the properties *)

(** An inventory entry with the three fields that Save writes. *)
Definition stack (slot : Z) (id : string) (count : Z) : compound :=
  [("Slot", TNum Byte slot); ("id", TString id); ("Count", TNum Byte count)].

(** The entry [item] after Save has written its Slot, id and Count. *)
Definition saved_entry (new_slot : Z) (new_id : string) (new_count : Z)
  (item : compound) : compound :=
  dict_set "Count" (TNum Byte new_count)
    (dict_set "id" (TString new_id)
       (dict_set "Slot" (TNum Byte new_slot) item)).

(** The entry's slot can be read. *)
Definition readable (item : compound) : Prop := ∃ k, slot_of item = Ok k.

(** A sort key paired with the entry it was computed from. *)
Definition keyed (p : Z * compound) : Prop := slot_of p.2 = Ok p.1.

(** The data model's inventory entry: its Slot tag, when there is one, is an
    integer tag. *)
Definition integer_slot (item : compound) : Prop :=
  match dict_get "Slot" item with
  | None => True
  | Some (TNum _ _) => True
  | Some _ => False
  end.

(** The slot number of an entry in the spec's words: the integer value of
    its Slot tag, 0 when the tag is missing. *)
Definition slot_number (item : compound) : Z :=
  match dict_get "Slot" item with
  | Some (TNum _ n) => n
  | _ => 0
  end.

(** Every character of [s] satisfies [p]. *)
Fixpoint all_chars (p : ascii -> bool) (s : string) : bool :=
  match s with
  | EmptyString => true
  | String c s' => p c && all_chars p s'
  end.

(** The characters [str(n)] is made of. *)
Definition is_int_char (c : ascii) : bool := char_in "-0123456789" c.

(** The digits of [str(n)], with or without the sign. *)
Definition is_dec_digit (c : ascii) : bool := char_in "0123456789" c.

(** The range check [_create_tag_from_input] asks of [_parse_int_list] for
    each array class: [-128..127] for a ByteArray, none for the others. *)
Definition array_minimum (c : array_type) : option Z :=
  match c with ByteArray => Some (-128) | _ => None end.

Definition array_maximum (c : array_type) : option Z :=
  match c with ByteArray => Some 127 | _ => None end.

(** The segment [part] is an integer literal of value [v] that passes the
    range check of class [c]. *)
Definition accepted (c : array_type) (part : string) (v : Z) : Prop :=
  int0 part = Some v ∧ (c = ByteArray → -128 <= v <= 127).

(** A scalar or array tag whose numbers fit its class.  The float of a tag
    is a double in the normal form of [SpecFloat]: a zero, an infinity, the
    NaN, or the mantissa and the exponent that the double format gives the
    value (0.1 is 7205759403792794 * 2^-56). *)
Definition in_range (t : tag) : Prop :=
  match t with
  | TNum c n => fits (numeric_bits c) n = true
  | TFloat _ x => valid_binary 53 1024 x = true
  | TArray c values => Forall (fun v => fits (array_bits c) v = true) values
  | _ => True
  end.

(** [float] reads the text of the float of a tag back as that float. *)
Definition float_text_round_trips `{PyFloat} (t : tag) : Prop :=
  match t with
  | TFloat _ x => float_of_text (str_float x) = Some x
  | _ => True
  end.

(** *** The array rule in the spec's words

    "split text on commas after stripping one optional pair of surrounding
    brackets and surrounding whitespace; empty text yields an empty array;
    each element parsed as an integer; fails with InvalidInteger on
    unparseable elements". *)
Definition strip_bracket_pair (s : string) : string :=
  match s with
  | String "[" r =>
      match String.rev r with
      | String "]" m => String.rev m
      | _ => s
      end
  | _ => s
  end.

Fixpoint spec_elements (segments : list string) : result (list Z) :=
  match segments with
  | [] => Ok []
  | segment :: rest =>
      match int0 segment with
      | None => Err InvalidInteger
      | Some v => vs ← spec_elements rest; Ok (v :: vs)
      end
  end.

Definition spec_int_list (text : string) : result (list Z) :=
  let body := strip (strip_bracket_pair (strip text)) in
  if is_empty body then Ok [] else spec_elements (split "," body).

(** [s] is not empty and neither starts nor ends with a character that [p]
    strips. *)
Definition trimmed (p : ascii -> bool) (s : string) : Prop :=
  s <> "" /\ lstrip_by p s = s /\ rstrip_by p s = s.

(** [add_child] at the same node, once per dialog answer. *)
Definition add_children `{PyFloat} (root : tag) (p : path)
  (dialogs : list (option AddTagResult)) : tag :=
  fold_left (fun r d => (add_child r p d).1) dialogs root.

(** Every element is of class [c]. *)
Definition homogeneous (c : tag_class) (items : list tag) : Prop :=
  Forall (fun x => class_of x = c) items.

(** *** Notions for the tree view and the inventory tabs *)

(** The keys of every compound of the tree are distinct, as in a dict. *)
Fixpoint unique_keys (t : tag) : bool :=
  match t with
  | TCompound entries =>
      bool_decide (NoDup (map fst entries))
      && (fix all (rest : list (string * tag)) : bool :=
            match rest with
            | [] => true
            | (_, value) :: rest' => unique_keys value && all rest'
            end) entries
  | TList _ elements =>
      (fix all (rest : list tag) : bool :=
         match rest with
         | [] => true
         | value :: rest' => unique_keys value && all rest'
         end) elements
  | _ => true
  end.

(** The data model's inventory entry, continued: its Count tag, when there
    is one, is an integer tag. *)
Definition integer_count (item : compound) : Prop :=
  match dict_get "Count" item with
  | None => True
  | Some (TNum _ _) => True
  | Some _ => False
  end.

(** A tag library that prints nothing for the tags that are no strings; it
    serves to run examples. *)
Definition no_tag_text : TagText := {| str_other := λ _, "" |}.

(** A name that [_path_to_string] shows unambiguously: not empty, and
    without a dot or a bracket. *)
Definition plain_name (s : string) : bool :=
  negb (is_empty s) && all_chars (λ c, negb (char_in ".[]" c)) s.

Definition plain_key (k : key) : bool :=
  match k with
  | Name s => plain_name s
  | Index _ => true
  end.

(** The item of the child [k] of [parent], which has the path [p]. *)
Definition child_info (parent : tag) (p : path) (k : key) (value : tag) : NodeInfo :=
  {| node_tag := value; node_parent := Some parent; node_key := Some k;
     node_path := (p ++ [k])%list |}.

(* ================================================================== *)
(** * Properties *)
(* ================================================================== *)

Local Open Scope list_scope.

#[local] Arguments String.append !_ _ / : simpl nomatch.

(** ** Dicts *)

Lemma dict_get_set_eq {V} key (v : V) d : dict_get key (dict_set key v d) = Some v.
Proof.
  induction d as [|[k w] d IH]; simpl.
  - by rewrite String.eqb_refl.
  - destruct (String.eqb k key) eqn:E; simpl; rewrite E; done.
Qed.

Lemma dict_get_set_ne {V} key key' (v : V) d :
  key ≠ key' → dict_get key' (dict_set key v d) = dict_get key' d.
Proof.
  intros Hne. induction d as [|[k w] d IH]; simpl.
  - destruct (String.eqb key key') eqn:E; [|done].
    apply String.eqb_eq in E. done.
  - destruct (String.eqb k key) eqn:E; simpl.
    + apply String.eqb_eq in E. subst k.
      destruct (String.eqb key key') eqn:E'; [|done].
      apply String.eqb_eq in E'. done.
    + by rewrite IH.
Qed.

Lemma dict_get_alter {V} (f : V → V) key d :
  dict_get key (dict_alter f key d) = f <$> dict_get key d.
Proof.
  induction d as [|[k w] d IH]; simpl; [done|].
  destruct (String.eqb k key) eqn:E; simpl; by rewrite E.
Qed.

Lemma dict_alter_id {V} (f : V → V) key d x :
  dict_get key d = Some x → f x = x → dict_alter f key d = d.
Proof.
  intros Hget Hf. induction d as [|[k w] d IH]; simpl in *; [done|].
  destruct (String.eqb k key).
  - injection Hget as ->. by rewrite Hf.
  - by rewrite IH.
Qed.

Lemma dict_set_same {V} key (x : V) d :
  dict_get key d = Some x → dict_set key x d = d.
Proof.
  induction d as [|[k w] d IH]; simpl; [done|].
  destruct (String.eqb k key).
  - by intros [= ->].
  - intros H. by rewrite IH.
Qed.


Lemma dict_set_fresh {V} key (v : V) d :
  dict_mem key d = false → dict_set key v d = (d ++ [(key, v)])%list.
Proof.
  unfold dict_mem. induction d as [|[k w] d IH]; simpl; [done|].
  destruct (String.eqb k key); [done|]. intros H. by rewrite IH.
Qed.



(** ** Text: stripping and splitting *)

Lemma append_nil_r (s : string) : (s ++ "")%string = s.
Proof. induction s as [|c s IH]; simpl; [done | by rewrite IH]. Qed.

Lemma append_assoc (s t u : string) :
  ((s ++ t) ++ u)%string = (s ++ t ++ u)%string.
Proof. induction s as [|c s IH]; simpl; [done | by rewrite IH]. Qed.

Lemma all_chars_app p (s t : string) :
  all_chars p (s ++ t)%string = all_chars p s && all_chars p t.
Proof.
  induction s as [|c s IH]; simpl; [done|].
  by rewrite IH, andb_assoc.
Qed.

Lemma all_chars_impl (p q : ascii → bool) s :
  (∀ c, p c = true → q c = true) → all_chars p s = true → all_chars q s = true.
Proof.
  intros Hpq. induction s as [|c s IH]; simpl; [done|].
  intros [Hc Hs]%andb_true_iff. rewrite (Hpq c Hc). by apply IH.
Qed.

Lemma lstrip_all p (pre s : string) :
  all_chars p pre = true → lstrip_by p (pre ++ s)%string = lstrip_by p s.
Proof.
  induction pre as [|c pre IH]; simpl; [done|].
  intros [-> Hpre]%andb_true_iff. by apply IH.
Qed.

Lemma lstrip_head p c (s : string) :
  p c = false → lstrip_by p (String c s) = String c s.
Proof. simpl. by intros ->. Qed.

Lemma lstrip_none p (s : string) :
  all_chars (λ c, negb (p c)) s = true → lstrip_by p s = s.
Proof.
  destruct s as [|c s]; simpl; [done|].
  intros [Hc _]%andb_true_iff. by apply negb_true_iff in Hc as ->.
Qed.

Lemma lstrip_length p (s : string) :
  (String.length (lstrip_by p s) ≤ String.length s)%nat.
Proof.
  induction s as [|c s IH]; simpl; [done|].
  destruct (p c); simpl; lia.
Qed.

Lemma rstrip_all_empty p (s : string) :
  all_chars p s = true → rstrip_by p s = "".
Proof.
  induction s as [|c s IH]; simpl; [done|].
  intros [-> Hs]%andb_true_iff. by rewrite IH.
Qed.

Lemma rstrip_all p (s suf : string) :
  all_chars p suf = true → rstrip_by p (s ++ suf)%string = rstrip_by p s.
Proof.
  intros Hsuf. induction s as [|c s IH]; simpl.
  - by apply rstrip_all_empty.
  - by rewrite IH.
Qed.

Lemma rstrip_app_fixed p (s t : string) :
  rstrip_by p t = t → t ≠ "" → rstrip_by p (s ++ t)%string = (s ++ t)%string.
Proof.
  intros Ht Hne. induction s as [|c s IH]; simpl; [done|].
  rewrite IH. destruct (s ++ t)%string eqn:E; [|done].
  destruct s; simpl in E; [done | discriminate].
Qed.

Lemma rstrip_none p (s : string) :
  all_chars (λ c, negb (p c)) s = true → rstrip_by p s = s.
Proof.
  induction s as [|c s IH]; simpl; [done|].
  intros [Hc Hs]%andb_true_iff. rewrite (IH Hs).
  destruct s; [|done]. by apply negb_true_iff in Hc as ->.
Qed.

Lemma trimmed_head p (s : string) :
  trimmed p s → ∃ c r, s = String c r ∧ p c = false.
Proof.
  intros (Hne & Hl & _). destruct s as [|c r]; [done|].
  exists c, r. split; [done|]. simpl in Hl.
  destruct (p c) eqn:E; [|done].
  pose proof (lstrip_length p r) as Hlen. rewrite Hl in Hlen. simpl in Hlen. lia.
Qed.

Lemma bracket_not_space c : char_in "[]" c = true → is_space c = false.
Proof.
  destruct c as [[] [] [] [] [] [] [] []]; vm_compute; congruence.
Qed.

Lemma not_space_brackets (s : string) :
  all_chars (char_in "[]") s = true →
  all_chars (λ c, negb (is_space c)) s = true.
Proof.
  apply all_chars_impl. intros c Hc. by rewrite (bracket_not_space c Hc).
Qed.

(** Leading and trailing whitespace goes, then every leading and trailing
    bracket character, however many there are on either side. *)
Lemma strip_layers (ws1 lb body rb ws2 : string) :
  all_chars is_space ws1 = true → all_chars is_space ws2 = true →
  all_chars (char_in "[]") lb = true → all_chars (char_in "[]") rb = true →
  trimmed is_space body → trimmed (char_in "[]") body →
  strip_chars "[]" (strip (ws1 ++ lb ++ body ++ rb ++ ws2)%string) = body.
Proof.
  intros Hws1 Hws2 Hlb Hrb Hsp Hbr.
  destruct (trimmed_head _ _ Hsp) as (c & r & Hbody & Hc).
  destruct (trimmed_head _ _ Hbr) as (c' & r' & Hbody' & Hc').
  destruct Hsp as (Hne & _ & Hrs). destruct Hbr as (_ & _ & Hrb').
  assert (rstrip_by is_space (body ++ rb)%string = (body ++ rb)%string ∧
          (body ++ rb)%string ≠ "") as [Hfix Hne'].
  { split; [|by rewrite Hbody].
    destruct rb as [|b rb'].
    - by rewrite append_nil_r.
    - apply rstrip_app_fixed; [|done].
      apply rstrip_none. by apply not_space_brackets. }
  assert (strip (ws1 ++ lb ++ body ++ rb ++ ws2)%string
          = (lb ++ body ++ rb)%string) as ->.
  { unfold strip. rewrite (lstrip_all _ _ _ Hws1).
    assert (lstrip_by is_space (lb ++ body ++ rb ++ ws2)%string
            = (lb ++ body ++ rb ++ ws2)%string) as ->.
    { destruct lb as [|b lb'].
      - rewrite Hbody. simpl. by rewrite Hc.
      - simpl in Hlb. apply andb_true_iff in Hlb as [Hb _].
        simpl. by rewrite (bracket_not_space b Hb). }
    rewrite <- !append_assoc. rewrite (rstrip_all _ _ _ Hws2).
    rewrite append_assoc. by apply rstrip_app_fixed. }
  unfold strip_chars. rewrite (lstrip_all _ _ _ Hlb).
  assert (lstrip_by (char_in "[]") (body ++ rb)%string = (body ++ rb)%string) as ->.
  { rewrite Hbody'. simpl. by rewrite Hc'. }
  by rewrite (rstrip_all _ _ _ Hrb).
Qed.

Example strip_layers_nested :
  strip_chars "[]" (strip "  [[1, 2]] ") = "1, 2".
Proof.
  apply (strip_layers "  " "[[" "1, 2" "]]" " "); by repeat split.
Qed.

Lemma split_no_sep sep (s : string) :
  all_chars (λ c, negb (Ascii.eqb c sep)) s = true → split sep s = [s].
Proof.
  induction s as [|c s IH]; simpl; [done|].
  intros [Hc Hs]%andb_true_iff. apply negb_true_iff in Hc. rewrite Hc.
  by rewrite (IH Hs).
Qed.

Lemma split_app sep (s t : string) :
  all_chars (λ c, negb (Ascii.eqb c sep)) s = true →
  split sep (s ++ String sep t)%string = s :: split sep t.
Proof.
  induction s as [|c s IH]; simpl.
  - intros _. by rewrite Ascii.eqb_refl.
  - intros [Hc Hs]%andb_true_iff. apply negb_true_iff in Hc. rewrite Hc.
    by rewrite (IH Hs).
Qed.

(** Splitting undoes joining, for parts free of the separator. *)
Lemma split_join sep (parts : list string) :
  parts ≠ [] →
  Forall (λ part, all_chars (λ c, negb (Ascii.eqb c sep)) part = true) parts →
  split sep (join (String sep "") parts) = parts.
Proof.
  intros Hne Hparts. induction Hparts as [|part rest Hpart Hrest IH]; [done|].
  destruct rest as [|part' rest].
  - simpl. by apply split_no_sep.
  - change (join (String sep "") (part :: part' :: rest))
      with (part ++ String sep (join (String sep "") (part' :: rest)))%string.
    rewrite (split_app _ _ _ Hpart). by rewrite IH.
Qed.

(** ** Integers as text *)

Example int0_decimal : int0 " 42 " = Some 42.
Proof. reflexivity. Qed.
Example int0_hex : int0 "-0x_ff" = Some (-255).
Proof. reflexivity. Qed.
Example int0_old_octal : int0 "010" = None.
Proof. reflexivity. Qed.
Example int0_zeros : int0 "0_0" = Some 0.
Proof. reflexivity. Qed.
Example int0_double_underscore : int0 "1__0" = None.
Proof. reflexivity. Qed.
Example int0_not_a_number : int0 "not-a-number" = None.
Proof. reflexivity. Qed.
(** A separator in front of the digits: [strip] removes it, [int] refuses
    it. *)
Example int0_separator :
  int0 (String (ascii_of_nat 28) "5") = None ∧
  int0 (strip (String (ascii_of_nat 28) "5")) = Some 5 ∧
  int0 (String (ascii_of_nat 11) "5") = Some 5.
Proof. by repeat split. Qed.
Example split_keeps_empty : split "," "1,,2" = ["1"; ""; "2"].
Proof. reflexivity. Qed.
Example str_int_negative : str_int (-120) = "-120".
Proof. reflexivity. Qed.

Lemma int_char_not_space c : is_int_char c = true → is_space c = false.
Proof.
  destruct c as [[] [] [] [] [] [] [] []]; vm_compute; congruence.
Qed.

Lemma int_char_not_comma c : is_int_char c = true → Ascii.eqb c "," = false.
Proof.
  destruct c as [[] [] [] [] [] [] [] []]; vm_compute; congruence.
Qed.

Lemma int_char_not_bracket c : is_int_char c = true → char_in "[]" c = false.
Proof.
  destruct c as [[] [] [] [] [] [] [] []]; vm_compute; congruence.
Qed.

Lemma dec_digit_int_char c : is_dec_digit c = true → is_int_char c = true.
Proof.
  destruct c as [[] [] [] [] [] [] [] []]; vm_compute; congruence.
Qed.

Lemma dec_digit_facts c :
  is_dec_digit c = true →
  is_int_space c = false ∧ Ascii.eqb c "+" = false ∧ Ascii.eqb c "-" = false ∧
  Ascii.eqb c "_" = false ∧ is_digit 10 c = true.
Proof.
  destruct c as [[] [] [] [] [] [] [] []]; vm_compute; intros; try congruence;
    by repeat split.
Qed.

Lemma uint_text_digits d : all_chars is_dec_digit (NilEmpty.string_of_uint d) = true.
Proof. induction d; simpl; done. Qed.

Lemma to_uint_head p :
  ∃ c rest, NilEmpty.string_of_uint (Pos.to_uint p) = String c rest ∧
            is_dec_digit c = true ∧ c ≠ "0"%char.
Proof.
  pose proof (Unsigned.to_uint_nonnil p) as Hnil.
  assert (unorm (Pos.to_uint p) = Pos.to_uint p) as Hnorm.
  { rewrite <- (Unsigned.to_of (Pos.to_uint p)). by rewrite Unsigned.of_to. }
  destruct (Pos.to_uint p) as [|d|d|d|d|d|d|d|d|d|d] eqn:E; [done|..];
    try (simpl; eexists _, _; split; [reflexivity|]; split; [reflexivity|done]).
  exfalso. rewrite unorm_D0 in Hnorm.
  pose proof (Unsigned.to_uint_nonzero p) as Hnz. rewrite E in Hnz.
  unfold unorm in Hnorm.
  destruct (nzhead d) eqn:En; try discriminate.
  - injection Hnorm as <-. by apply Hnz.
  - by apply nzhead_nonzero in En.
Qed.

Lemma scan_digit_step base c (s : string) acc d :
  Ascii.eqb c "_" = false → digit_value c = Some d → (d <? base) = true →
  scan_digits base (String c s) acc false = scan_digits base s (acc * base + d) false.
Proof. intros Hc Hd Hb. simpl. by rewrite Hc, Hd, Hb. Qed.

Ltac scan_step :=
  match goal with
  | |- context [scan_digits ?b (String ?c ?s) ?acc false] =>
      let dv := eval vm_compute in (digit_value c) in
      match dv with
      | Some ?d => rewrite (scan_digit_step b c s acc d) by reflexivity
      end
  end.

Lemma scan_uint_pos d acc :
  scan_digits 10 (NilEmpty.string_of_uint d) (Z.pos acc) false
  = Some (Z.pos (Pos.of_uint_acc d acc), "").
Proof.
  revert acc. induction d; intros acc; cbn [NilEmpty.string_of_uint Pos.of_uint_acc];
    [done|..];
    scan_step;
    match goal with
    | |- scan_digits _ _ ?a _ = Some (Z.pos (Pos.of_uint_acc _ ?b), _) =>
        replace a with (Z.pos b) by lia
    end; apply IHd.
Qed.

Lemma scan_uint d :
  scan_digits 10 (NilEmpty.string_of_uint d) 0 false
  = Some (Z.of_N (Pos.of_uint d), "").
Proof.
  induction d; cbn [NilEmpty.string_of_uint Pos.of_uint]; [done|..];
    scan_step; [apply IHd|..]; apply scan_uint_pos.
Qed.

(** A literal made of a nonzero leading digit and digits parses to what the
    digit scan yields. *)
Lemma int_literal_digits auto c (rest : string) v :
  is_dec_digit c = true → c ≠ "0"%char →
  scan_digits 10 (String c rest) 0 false = Some (v, "") →
  int_literal auto (String c rest) = Some v ∧
  int_literal auto (String "-" (String c rest)) = Some (- v).
Proof.
  intros Hc Hz Hscan.
  destruct (dec_digit_facts c Hc) as (Hsp & Hplus & Hminus & _ & Hdig).
  assert (Ascii.eqb c "0" = false) as Hzero by by apply Ascii.eqb_neq.
  assert (digit_body 10 (String c rest) = Some (v, "")) as Hbody.
  { unfold digit_body. by rewrite Hdig. }
  unfold int_literal. split.
  - rewrite lstrip_head by done. unfold split_sign. rewrite Hplus, Hminus.
    unfold choose_base. rewrite Hzero.
    destruct auto; rewrite Hbody; done.
  - rewrite lstrip_head by done. unfold split_sign.
    change (Ascii.eqb "-" "+") with false. change (Ascii.eqb "-" "-") with true.
    cbv iota. unfold choose_base. rewrite Hzero.
    destruct auto; rewrite Hbody; done.
Qed.

(** Reading back what [str] printed: [int(str(n), 0) == n]. *)
Lemma int0_str_int n : int0 (str_int n) = Some n.
Proof.
  destruct n as [|p|p]; [reflexivity|..].
  all: unfold str_int, int0; cbn [Z.to_int NilZero.string_of_int].
  all: pose proof (Unsigned.to_uint_nonnil p) as Hnil.
  all: pose proof (scan_uint (Pos.to_uint p)) as Hscan.
  all: rewrite Unsigned.of_to in Hscan.
  all: destruct (to_uint_head p) as (c & rest & Hs & Hc & Hz).
  all: unfold NilZero.string_of_uint.
  all: destruct (Pos.to_uint p) eqn:E; [done|..].
  all: rewrite Hs in *.
  all: by destruct (int_literal_digits true c rest _ Hc Hz Hscan).
Qed.

Lemma str_int_chars n :
  str_int n ≠ "" ∧ all_chars is_int_char (str_int n) = true.
Proof.
  destruct n as [|p|p]; [done|..];
    unfold str_int; cbn [Z.to_int NilZero.string_of_int];
    destruct (to_uint_head p) as (c & rest & Hs & _ & _);
    pose proof (uint_text_digits (Pos.to_uint p)) as Hd;
    apply (all_chars_impl _ _ _ dec_digit_int_char) in Hd;
    unfold NilZero.string_of_uint;
    destruct (Pos.to_uint p) eqn:E; try done; rewrite Hs in *; done.
Qed.

Lemma int_chars_no p (s : string) :
  (∀ c, is_int_char c = true → p c = false) →
  all_chars is_int_char s = true → all_chars (λ c, negb (p c)) s = true.
Proof.
  intros Hp. apply all_chars_impl. intros c Hc. by rewrite (Hp c Hc).
Qed.

Lemma strip_str_int n : strip (str_int n) = str_int n.
Proof.
  destruct (str_int_chars n) as [_ Hc].
  pose proof (int_chars_no is_space _ int_char_not_space Hc) as Hs.
  unfold strip. by rewrite (lstrip_none _ _ Hs), (rstrip_none _ _ Hs).
Qed.

(** ** The text shown for an array *)

(** The text the detail panel shows for a non-empty array starts and ends
    with a character of an integer, whatever is stripped. *)
Lemma joined_fixed p (values : list Z) :
  (∀ c, is_int_char c = true → p c = false) →
  values ≠ [] →
  join ", " (map str_int values) ≠ "" ∧
  lstrip_by p (join ", " (map str_int values)) = join ", " (map str_int values) ∧
  rstrip_by p (join ", " (map str_int values)) = join ", " (map str_int values).
Proof.
  intros Hp Hne. induction values as [|v [|v' rest] IH]; [done|..].
  - destruct (str_int_chars v) as [Hv Hc].
    pose proof (int_chars_no p _ Hp Hc) as Hs. simpl.
    by rewrite (lstrip_none _ _ Hs), (rstrip_none _ _ Hs).
  - destruct IH as (Hj & _ & Hr); [done|].
    change (join ", " (map str_int (v :: v' :: rest)))
      with (str_int v ++ ", " ++ join ", " (map str_int (v' :: rest)))%string.
    destruct (str_int_chars v) as [Hv Hc].
    split; [by destruct (str_int v)|]. split.
    + destruct (str_int v) as [|c s] eqn:E; [done|].
      simpl in Hc. apply andb_true_iff in Hc as [Hc _].
      simpl. by rewrite (Hp c Hc).
    + apply rstrip_app_fixed; [|done]. by apply rstrip_app_fixed.
Qed.

(** Splitting the shown text at the commas and trimming gives back the
    numbers' texts. *)
Lemma split_joined (pre : string) (values : list Z) :
  values ≠ [] →
  all_chars is_space pre = true →
  all_chars (λ c, negb (Ascii.eqb c ",")) pre = true →
  map strip (split "," (pre ++ join ", " (map str_int values))%string)
  = map str_int values.
Proof.
  intros Hne. revert pre.
  induction values as [|v [|v' rest] IH]; intros pre Hpre Hcomma; [done|..].
  - destruct (str_int_chars v) as [Hv Hc]. simpl join.
    rewrite split_no_sep.
    + simpl. f_equal. unfold strip. rewrite (lstrip_all _ _ _ Hpre).
      apply strip_str_int.
    + rewrite all_chars_app, Hcomma. simpl.
      apply (int_chars_no (λ c, Ascii.eqb c ",")); [|done].
      apply int_char_not_comma.
  - change (join ", " (map str_int (v :: v' :: rest)))
      with (str_int v ++ String "," (" " ++ join ", " (map str_int (v' :: rest))))%string.
    rewrite <- append_assoc.
    destruct (str_int_chars v) as [Hv Hc].
    rewrite split_app.
    + cbn [map]. f_equal.
      * unfold strip. rewrite (lstrip_all _ _ _ Hpre). apply strip_str_int.
      * by apply IH.
    + rewrite all_chars_app, Hcomma. simpl.
      apply (int_chars_no (λ c, Ascii.eqb c ",")); [|done].
      apply int_char_not_comma.
Qed.

Lemma filter_nonempty_str_int (values : list Z) :
  filter (λ part : string, is_empty part = false) (map str_int values)
  = map str_int values.
Proof.
  induction values as [|v rest IH]; [done|].
  cbn [map]. rewrite filter_cons, decide_True, IH; [done|].
  destruct (str_int_chars v) as [Hv _]. by destruct (str_int v).
Qed.

Lemma parts_of_shown_text (values : list Z) :
  values ≠ [] →
  int_list_parts (join ", " (map str_int values)) = map str_int values.
Proof.
  intros Hne. unfold int_list_parts.
  pose proof (split_joined "" values Hne eq_refl eq_refl) as Hs.
  change ("" ++ join ", " (map str_int values))%string
    with (join ", " (map str_int values)) in Hs.
  rewrite Hs. apply filter_nonempty_str_int.
Qed.

(** ** Coercion: [_parse_int_list] and [_create_tag_from_input] *)

Lemma parse_int_loop_ok minimum maximum parts vs numbers :
  Forall2 (λ part v, int0 part = Some v ∧ below minimum v = false ∧
                     above maximum v = false) parts vs →
  parse_int_loop minimum maximum parts numbers = Ok (numbers ++ vs).
Proof.
  intros H. revert numbers.
  induction H as [|part v parts vs (Hp & Hlo & Hhi) _ IH]; intros numbers; simpl.
  - by rewrite app_nil_r.
  - rewrite Hp, Hlo, Hhi, IH. by rewrite <- app_assoc.
Qed.

Lemma parse_int_loop_app minimum maximum good parts vs numbers :
  Forall2 (λ part v, int0 part = Some v ∧ below minimum v = false ∧
                     above maximum v = false) good vs →
  parse_int_loop minimum maximum (good ++ parts) numbers
  = parse_int_loop minimum maximum parts (numbers ++ vs).
Proof.
  intros H. revert numbers.
  induction H as [|part v good vs (Hp & Hlo & Hhi) _ IH]; intros numbers; simpl.
  - by rewrite app_nil_r.
  - rewrite Hp, Hlo, Hhi, IH. by rewrite <- app_assoc.
Qed.

Lemma accepted_bounds c part v :
  accepted c part v →
  int0 part = Some v ∧ below (array_minimum c) v = false ∧
  above (array_maximum c) v = false.
Proof.
  intros [Hp Hr]. split; [done|]. destruct c; simpl; try done.
  destruct (Hr eq_refl). split; apply Z.ltb_ge; lia.
Qed.

Lemma byte_fits v : -128 ≤ v ≤ 127 ↔ fits 8 v = true.
Proof.
  unfold fits. simpl. rewrite andb_true_iff, Z.leb_le, Z.ltb_lt. lia.
Qed.

Lemma make_array_class c values t : make_array c values = Ok t → class_of t = Array c.
Proof. unfold make_array. destruct (forallb _ _); [by intros [= <-] | done]. Qed.

Lemma make_numeric_class c n t : make_numeric c n = Ok t → class_of t = Numeric c.
Proof. unfold make_numeric. destruct (fits _ _); [by intros [= <-] | done]. Qed.

Lemma make_numeric_ok c n t : make_numeric c n = Ok t ↔ fits (numeric_bits c) n = true ∧ t = TNum c n.
Proof.
  unfold make_numeric. destruct (fits _ _); split; try done.
  - by intros [= <-].
  - by intros [_ ->].
  - by intros [? _].
Qed.

Lemma count_fits c : 0 ≤ c ≤ 64 → fits 8 c = true.
Proof. intros H. unfold fits. simpl. apply andb_true_iff. split; [apply Z.leb_le | apply Z.ltb_lt]; lia. Qed.

(** The type names the add-tag dialog offers are the keys of
    [TAG_CLASS_MAP]; none of them has surrounding whitespace. *)
Lemma offered_type_name_stripped type_name c :
  dict_get type_name TAG_CLASS_MAP = Some c → strip type_name = type_name.
Proof.
  unfold TAG_CLASS_MAP. cbn [dict_get].
  repeat match goal with
         | |- context [String.eqb ?k type_name] =>
             destruct (String.eqb_spec k type_name) as [<-|_]; [reflexivity|]
         end.
  done.
Qed.

(** ** Floats: [float] reads back what [str] writes *)

Section float_text.
Local Open Scope string_scope.
Local Open Scope Z_scope.

(** *** Rounding a value that is a double *)

Lemma digits2_pos_bounds (p : positive) :
  2 ^ (Zpos (digits2_pos p) - 1) ≤ Zpos p < 2 ^ Zpos (digits2_pos p).
Proof.
  induction p as [p IH|p IH|]; cbn [digits2_pos]; [| |by vm_compute].
  - rewrite Pos2Z.inj_succ.
    replace (Z.succ (Zpos (digits2_pos p)) - 1) with (Z.succ (Zpos (digits2_pos p) - 1))
      by lia.
    rewrite !Z.pow_succ_r by lia. lia.
  - rewrite Pos2Z.inj_succ.
    replace (Z.succ (Zpos (digits2_pos p)) - 1) with (Z.succ (Zpos (digits2_pos p) - 1))
      by lia.
    rewrite !Z.pow_succ_r by lia. lia.
Qed.

(** The number of binary digits is fixed by the two powers of two that
    enclose the number. *)
Lemma digits2_pos_unique (p : positive) (d : Z) :
  2 ^ (d - 1) ≤ Zpos p < 2 ^ d → Zpos (digits2_pos p) = d.
Proof.
  intros [Hlo Hhi]. destruct (digits2_pos_bounds p) as [Hlo' Hhi'].
  assert (0 < d) as Hd.
  { destruct (Z.lt_trichotomy d 0) as [Hneg|[->|Hpos]]; [| |done].
    - rewrite Z.pow_neg_r in Hhi by done. lia.
    - simpl in Hhi. lia. }
  destruct (Z.lt_trichotomy (Zpos (digits2_pos p)) d) as [Hlt|[Heq|Hgt]]; [|done|].
  - assert (2 ^ Zpos (digits2_pos p) ≤ 2 ^ (d - 1)) by (apply Z.pow_le_mono_r; lia).
    lia.
  - assert (2 ^ d ≤ 2 ^ (Zpos (digits2_pos p) - 1)) by (apply Z.pow_le_mono_r; lia).
    lia.
Qed.

Lemma digits2_shifted (m : positive) (t : Z) :
  0 ≤ t →
  Zdigits2 (Zpos m * 2 ^ t) = Zpos (digits2_pos m) + t.
Proof.
  intros Ht. destruct (digits2_pos_bounds m) as [Hlo Hhi].
  assert (0 < 2 ^ t) as Hpow by (apply Z.pow_pos_nonneg; lia).
  destruct (Zpos m * 2 ^ t) as [|q|q] eqn:Hq; [lia| |lia].
  cbn [Zdigits2]. apply digits2_pos_unique. rewrite <- Hq.
  replace (Zpos (digits2_pos m) + t - 1) with ((Zpos (digits2_pos m) - 1) + t) by lia.
  rewrite !Z.pow_add_r by lia. nia.
Qed.

Lemma iter_pos_shr_1 (p : positive) (m : Z) :
  0 < m →
  SpecFloat.iter_pos shr_1 p {| shr_m := m * 2 ^ Zpos p; shr_r := false; shr_s := false |}
  = {| shr_m := m; shr_r := false; shr_s := false |}.
Proof.
  assert (∀ m, 0 < m →
               shr_1 {| shr_m := m * 2; shr_r := false; shr_s := false |}
               = {| shr_m := m; shr_r := false; shr_s := false |}) as Hstep.
  { intros [|q|q] Hq; [lia| |lia]. by rewrite Z.mul_comm. }
  revert m. induction p as [p IH|p IH|]; intros m Hm; cbn [SpecFloat.iter_pos].
  - replace (Zpos p~1) with (Zpos p + Zpos p + 1) by lia.
    rewrite !Z.pow_add_r, Z.pow_1_r, !Z.mul_assoc by lia.
    assert (0 < 2 ^ Zpos p) by (apply Z.pow_pos_nonneg; lia).
    rewrite Hstep by nia. rewrite IH by nia. by rewrite IH.
  - replace (Zpos p~0) with (Zpos p + Zpos p) by lia.
    rewrite !Z.pow_add_r, !Z.mul_assoc by lia.
    assert (0 < 2 ^ Zpos p) by (apply Z.pow_pos_nonneg; lia).
    rewrite IH by nia. by rewrite IH.
  - rewrite Z.pow_1_r. by apply Hstep.
Qed.

(** Shifting out the zeros of [m * 2^t] gives [m], exactly. *)
Lemma shr_fexp_exact (m : positive) (e t : Z) :
  0 ≤ t →
  canonical_mantissa 53 1024 m e = true →
  shr_fexp 53 1024 (Zpos m * 2 ^ t) (e - t) loc_Exact
  = ({| shr_m := Zpos m; shr_r := false; shr_s := false |}, e).
Proof.
  intros Ht Hcanon. unfold canonical_mantissa in Hcanon.
  apply Z.eqb_eq in Hcanon.
  unfold shr_fexp. rewrite (digits2_shifted m t Ht).
  replace (Zpos (digits2_pos m) + t + (e - t)) with (Zpos (digits2_pos m) + e) by lia.
  rewrite Hcanon. replace (e - (e - t)) with t by lia.
  cbn [shr_record_of_loc]. unfold shr.
  destruct t as [|p|p]; [|rewrite iter_pos_shr_1 by lia; f_equal; lia|lia].
  rewrite Z.pow_0_r, Z.mul_1_r. f_equal. lia.
Qed.

(** The rounding leaves a double as it is. *)
Lemma binary_round_aux_exact (neg : bool) (m : positive) (e t : Z) :
  0 ≤ t →
  bounded 53 1024 m e = true →
  binary_round_aux 53 1024 neg (Zpos m * 2 ^ t) (e - t) loc_Exact
  = S754_finite neg m e.
Proof.
  intros Ht [Hcanon Hmax]%andb_true_iff.
  unfold binary_round_aux. rewrite (shr_fexp_exact m e t Ht Hcanon).
  cbn [shr_m loc_of_shr_record round_nearest_even].
  pose proof (shr_fexp_exact m e 0 (Z.le_refl 0) Hcanon) as Hagain.
  rewrite Z.pow_0_r, Z.mul_1_r, Z.sub_0_r in Hagain. rewrite Hagain.
  cbn [shr_m]. by rewrite Hmax.
Qed.

Lemma fexp_mono (z z' : Z) : z ≤ z' → fexp 53 1024 z ≤ fexp 53 1024 z'.
Proof. unfold fexp. lia. Qed.

(** The quotient of two integers that is the double [m * 2^e] rounds to
    that double. *)
Lemma SFdiv_exact (neg : bool) (a b m : positive) (e : Z) :
  bounded 53 1024 m e = true →
  Zpos a * 2 ^ Z.max (- e) 0 = Zpos m * 2 ^ Z.max e 0 * Zpos b →
  SFdiv 53 1024 (S754_finite neg a 0) (S754_finite false b 0)
  = S754_finite neg m e.
Proof.
  intros Hbounded Hvalue.
  pose proof Hbounded as [Hcanon _]%andb_true_iff.
  unfold canonical_mantissa in Hcanon. apply Z.eqb_eq in Hcanon.
  destruct (digits2_pos_bounds a) as [Ha_lo Ha_hi].
  destruct (digits2_pos_bounds b) as [Hb_lo Hb_hi].
  destruct (digits2_pos_bounds m) as [Hm_lo Hm_hi].
  set (da := Zpos (digits2_pos a)) in *.
  set (db := Zpos (digits2_pos b)) in *.
  set (dm := Zpos (digits2_pos m)) in *.
  assert (0 < da ∧ 0 < db ∧ 0 < dm) as (Hda & Hdb & Hdm) by done.
  assert (da - db ≤ dm + e) as Hdigits.
  { destruct (Z.le_gt_cases (da - db) (dm + e)) as [?|Hgt]; [done|exfalso].
    assert (0 < 2 ^ Z.max (- e) 0) by (apply Z.pow_pos_nonneg; lia).
    assert (0 < 2 ^ Z.max e 0) by (apply Z.pow_pos_nonneg; lia).
    assert (Zpos m * 2 ^ Z.max e 0 * Zpos b < 2 ^ (dm + Z.max e 0 + db)) as Hupper.
    { rewrite !Z.pow_add_r by lia.
      apply Z.mul_lt_mono_nonneg; [nia| |lia|lia].
      apply Z.mul_lt_mono_pos_r; lia. }
    assert (2 ^ (da - 1 + Z.max (- e) 0) ≤ Zpos a * 2 ^ Z.max (- e) 0) as Hlower.
    { rewrite Z.pow_add_r by lia. apply Z.mul_le_mono_nonneg_r; lia. }
    assert (2 ^ (dm + Z.max e 0 + db) ≤ 2 ^ (da - 1 + Z.max (- e) 0)).
    { apply Z.pow_le_mono_r; lia. }
    lia. }
  pose proof (fexp_mono _ _ Hdigits) as Hfexp. rewrite Hcanon in Hfexp.
  unfold SFdiv, SFdiv_core_binary. cbn [Zdigits2].
  fold da db. rewrite !Z.add_0_r, Z.sub_0_r.
  set (e' := Z.min (fexp 53 1024 (da - db)) 0).
  assert (e' ≤ e ∧ e' ≤ 0) as [He' He'0] by (unfold e'; lia).
  assert ((match 0 - e' with
           | Zpos _ => Z.shiftl (Zpos a) (0 - e')
           | 0 => Zpos a
           | Zneg _ => 0
           end) = Zpos m * 2 ^ (e - e') * Zpos b) as ->.
  { assert (Zpos a * 2 ^ (- e') = Zpos m * 2 ^ (e - e') * Zpos b) as Hscaled.
    { destruct (Z.le_gt_cases 0 e) as [Hpos|Hneg].
      - rewrite (Z.max_r (- e) 0), (Z.max_l e 0), Z.pow_0_r, Z.mul_1_r in Hvalue
          by lia.
        rewrite Hvalue.
        replace (e - e') with (e + - e') by lia.
        rewrite Z.pow_add_r by lia. ring.
      - rewrite (Z.max_l (- e) 0), (Z.max_r e 0), Z.pow_0_r, Z.mul_1_r in Hvalue
          by lia.
        replace (- e') with (- e + (e - e')) by lia.
        rewrite Z.pow_add_r, Z.mul_assoc, Hvalue by lia. ring. }
    destruct (0 - e') as [|p|p] eqn:Hs; [| |lia].
    - replace (- e') with 0 in Hscaled by lia.
      by rewrite Z.pow_0_r, Z.mul_1_r in Hscaled.
    - rewrite Z.shiftl_mul_pow2 by lia. rewrite <- Hs.
      by replace (0 - e') with (- e') by lia. }
  assert (0 < 2 ^ (e - e')) by (apply Z.pow_pos_nonneg; lia).
  assert (Z.div_eucl (Zpos m * 2 ^ (e - e') * Zpos b) (Zpos b)
          = (Zpos m * 2 ^ (e - e'), 0)) as ->.
  { pose proof (Z.div_mul (Zpos m * 2 ^ (e - e')) (Zpos b)) as Hdiv.
    pose proof (Z.mod_mul (Zpos m * 2 ^ (e - e')) (Zpos b)) as Hmod.
    unfold Z.modulo, Z.div in *.
    destruct (Z.div_eucl _ _) as [q r]. simpl in Hdiv, Hmod.
    by rewrite Hdiv, Hmod. }
  assert (new_location (Zpos b) 0 = loc_Exact) as ->.
  { unfold new_location, new_location_even, new_location_odd.
    by destruct (Z.even (Zpos b)). }
  assert (xorb neg false = neg) as -> by by destruct neg.
  replace e' with (e - (e - e')) at 2 by lia.
  apply binary_round_aux_exact; [lia|done].
Qed.

(** Reading the decimal [v * 10^k] that is the double [m * 2^e]. *)
Lemma round_decimal_exact (neg : bool) (v : Z) (k : Z) (m : positive) (e : Z) :
  0 < v →
  bounded 53 1024 m e = true →
  decimal_is v k m e →
  round_decimal neg v k = S754_finite neg m e.
Proof.
  intros Hv Hbounded Hvalue. unfold decimal_is in Hvalue. unfold round_decimal.
  destruct v as [|p|p]; [lia| |lia].
  assert (0 < 10 ^ Z.max k 0) by (apply Z.pow_pos_nonneg; lia).
  assert (0 < 10 ^ Z.max (- k) 0) by (apply Z.pow_pos_nonneg; lia).
  apply SFdiv_exact; [done|].
  rewrite !Z2Pos.id by nia. done.
Qed.

(** *** Reading what [repr] writes *)

Lemma digits_value_app (a b : string) acc :
  digits_value (a ++ b) acc = digits_value b (digits_value a acc).
Proof. revert acc. induction a as [|c a IH]; intros acc; simpl; [done|apply IH]. Qed.

Lemma digits_value_zeros (j : nat) acc :
  digits_value (zeros j) acc = acc * 10 ^ Z.of_nat j.
Proof.
  revert acc. induction j as [|j IH]; intros acc.
  - simpl. lia.
  - cbn [zeros digits_value]. rewrite IH, Nat2Z.inj_succ, Z.pow_succ_r by lia.
    change (default 0 (digit_value "0")) with 0. ring.
Qed.

Lemma zeros_digits (j : nat) : all_chars (is_digit 10) (zeros j) = true.
Proof. induction j as [|j IH]; [done|]. simpl. by rewrite IH. Qed.

Lemma length_zeros (j : nat) : String.length (zeros j) = j.
Proof. induction j as [|j IH]; [done|]. simpl. by rewrite IH. Qed.

Lemma string_length_app (a b : string) :
  String.length (a ++ b) = (String.length a + String.length b)%nat.
Proof. induction a as [|c a IH]; simpl; [done|by rewrite IH]. Qed.

Lemma scan_decimal_app (digits rest : string) acc n :
  all_chars (is_digit 10) digits = true → no_digit_head rest →
  scan_decimal (digits ++ rest) acc n
  = (digits_value digits acc, (n + String.length digits)%nat, rest).
Proof.
  intros Hdigits Hrest. revert acc n.
  induction digits as [|c digits IH]; intros acc n.
  - simpl. rewrite Nat.add_0_r. destruct rest as [|c rest]; [done|].
    simpl in *. by rewrite Hrest.
  - simpl in Hdigits. apply andb_true_iff in Hdigits as [Hc Hdigits].
    simpl. rewrite Hc, (IH Hdigits). f_equal. f_equal. lia.
Qed.

Lemma scan_decimal_all (digits : string) acc n :
  all_chars (is_digit 10) digits = true →
  scan_decimal digits acc n
  = (digits_value digits acc, (n + String.length digits)%nat, "").
Proof.
  intros Hdigits.
  rewrite <- (append_nil_r digits) at 1. by apply scan_decimal_app.
Qed.

Lemma dec_digit_is_digit c : is_dec_digit c = true → is_digit 10 c = true.
Proof. intros Hc. by destruct (dec_digit_facts c Hc) as (_ & _ & _ & _ & ?). Qed.

Lemma digits_of_digits (n : positive) : all_chars (is_digit 10) (digits_of n) = true.
Proof.
  unfold digits_of. eapply all_chars_impl; [apply dec_digit_is_digit|].
  apply uint_text_digits.
Qed.

Lemma digits_value_uint_pos d acc :
  digits_value (NilEmpty.string_of_uint d) (Zpos acc)
  = Zpos (Pos.of_uint_acc d acc).
Proof.
  revert acc. induction d; intros acc;
    cbn [NilEmpty.string_of_uint Pos.of_uint_acc digits_value]; [done|..];
    match goal with
    | |- digits_value _ ?a = Zpos (Pos.of_uint_acc _ ?b) =>
        replace a with (Zpos b) by (vm_compute (default 0 (digit_value _)); lia)
    end; apply IHd.
Qed.

Lemma digits_value_uint d :
  digits_value (NilEmpty.string_of_uint d) 0 = Z.of_N (Pos.of_uint d).
Proof.
  induction d; cbn [NilEmpty.string_of_uint Pos.of_uint digits_value]; [done|..];
    [apply IHd|..];
    match goal with
    | |- digits_value _ ?a = _ =>
        let v := eval vm_compute in a in change a with v
    end; apply digits_value_uint_pos.
Qed.

Lemma digits_value_digits_of (n : positive) : digits_value (digits_of n) 0 = Zpos n.
Proof. unfold digits_of. by rewrite digits_value_uint, Unsigned.of_to. Qed.

Lemma str_int_digits_of (p : positive) : str_int (Zpos p) = digits_of p.
Proof.
  unfold str_int, digits_of. cbn [Z.to_int NilZero.string_of_int].
  pose proof (Unsigned.to_uint_nonnil p) as Hnil.
  unfold NilZero.string_of_uint. by destruct (Pos.to_uint p).
Qed.

(** The text of a number that is not negative: digits, with its value. *)
Lemma str_int_nonneg (n : Z) :
  0 ≤ n →
  all_chars (is_digit 10) (str_int n) = true ∧ digits_value (str_int n) 0 = n ∧
  str_int n ≠ "".
Proof.
  intros Hn. destruct n as [|p|p]; [done| |lia].
  rewrite str_int_digits_of. split; [apply digits_of_digits|].
  split; [apply digits_value_digits_of|].
  intros Hempty. pose proof (digits_value_digits_of p) as Hvalue.
  by rewrite Hempty in Hvalue.
Qed.

(** Reading the exponent that [repr] writes. *)
Lemma exponent_part_text (e : Z) :
  exponent_part ("e" ++ exponent_text e) = (e, "").
Proof.
  unfold exponent_text.
  destruct (str_int_nonneg (Z.abs e) (Z.abs_nonneg e)) as (Hdigits & Hvalue & Hne).
  assert (all_chars (is_digit 10)
            ((if Z.abs e <? 10 then "0" else "") ++ str_int (Z.abs e)) = true ∧
          digits_value ((if Z.abs e <? 10 then "0" else "") ++ str_int (Z.abs e)) 0
          = Z.abs e ∧
          (if Z.abs e <? 10 then "0" else "") ++ str_int (Z.abs e) ≠ "")
    as (Hall & Hval & Hnonempty).
  { destruct (Z.abs e <? 10); simpl; [|done].
    split; [done|]. split; [|done]. done. }
  set (body := (if Z.abs e <? 10 then "0" else "") ++ str_int (Z.abs e)) in *.
  assert (∃ c rest, body = String c rest ∧ is_digit 10 c = true)
    as (c & rest & Hbody & Hc).
  { destruct body as [|c rest]; [done|]. exists c, rest. split; [done|].
    simpl in Hall. by apply andb_true_iff in Hall as [? _]. }
  cbn [String.append exponent_part]. change (char_in "eE" "e") with true. cbv iota.
  destruct (e <? 0) eqn:Hsign.
  - cbn [String.append split_sign]. change (Ascii.eqb "-" "+") with false.
    change (Ascii.eqb "-" "-") with true. cbv iota.
    rewrite (scan_decimal_all body 0 0 Hall), Hval.
    rewrite Hbody. simpl String.length. cbv iota beta. f_equal.
    apply Z.ltb_lt in Hsign. lia.
  - cbn [String.append split_sign].
    change (Ascii.eqb "+" "+") with true. cbv iota.
    rewrite (scan_decimal_all body 0 0 Hall), Hval.
    rewrite Hbody. simpl String.length. cbv iota beta. f_equal.
    apply Z.ltb_ge in Hsign. lia.
Qed.

Lemma exponent_tail (tail : string) (e : Z) :
  (tail = "" ∧ e = 0) ∨ tail = "e" ++ exponent_text e →
  no_digit_head tail ∧ exponent_part tail = (e, "") ∧
  (∀ A (x y : string → A),
     match tail with String "." r => x r | _ => y tail end = y tail).
Proof.
  intros [[-> ->] | ->]; [done|].
  split; [done|]. split; [apply exponent_part_text|done].
Qed.

(** A number with a point. *)
Lemma decimal_literal_point (int_part frac_part tail : string) (e : Z) :
  all_chars (is_digit 10) int_part = true →
  all_chars (is_digit 10) frac_part = true →
  int_part ≠ "" ∨ frac_part ≠ "" →
  (tail = "" ∧ e = 0) ∨ tail = "e" ++ exponent_text e →
  decimal_literal (int_part ++ "." ++ frac_part ++ tail)
  = Some (digits_value (int_part ++ frac_part) 0,
          e - Z.of_nat (String.length frac_part), "").
Proof.
  intros Hint Hfrac Hne Htail.
  destruct (exponent_tail tail e Htail) as (Hhead & Hexp & _).
  unfold decimal_literal.
  rewrite (scan_decimal_app int_part ("." ++ frac_part ++ tail) 0 0 Hint) by done.
  cbn [String.append].
  rewrite (scan_decimal_app frac_part tail _ 0 Hfrac Hhead).
  rewrite Hexp, digits_value_app. simpl Nat.add.
  destruct int_part as [|c int_part]; [|done].
  destruct frac_part as [|c frac_part]; [|done].
  by destruct Hne.
Qed.

(** A number without a point, with an exponent. *)
Lemma decimal_literal_exponent (int_part : string) (e : Z) :
  all_chars (is_digit 10) int_part = true → int_part ≠ "" →
  decimal_literal (int_part ++ "e" ++ exponent_text e)
  = Some (digits_value int_part 0, e, "").
Proof.
  intros Hint Hne. unfold decimal_literal.
  rewrite (scan_decimal_app int_part ("e" ++ exponent_text e) 0 0 Hint) by done.
  cbn [String.append]. fold (String.append "e" (exponent_text e)).
  change (String "e" (exponent_text e)) with ("e" ++ exponent_text e).
  rewrite exponent_part_text. simpl Nat.add.
  destruct int_part as [|c int_part]; [done|].
  simpl String.length. cbv iota beta. f_equal. f_equal. f_equal. lia.
Qed.

Lemma take_drop_chars (n : nat) (s : string) : take_chars n s ++ drop_chars n s = s.
Proof.
  revert s. induction n as [|n IH]; intros [|c s]; simpl; try done.
  by rewrite IH.
Qed.

Lemma take_chars_all p (n : nat) (s : string) :
  all_chars p s = true → all_chars p (take_chars n s) = true.
Proof.
  revert s. induction n as [|n IH]; intros [|c s]; simpl; try done.
  intros [-> Hs]%andb_true_iff. by apply IH.
Qed.

Lemma drop_chars_all p (n : nat) (s : string) :
  all_chars p s = true → all_chars p (drop_chars n s) = true.
Proof.
  revert s. induction n as [|n IH]; intros [|c s]; simpl; try done.
  intros [_ Hs]%andb_true_iff. by apply IH.
Qed.

Lemma length_drop_chars (n : nat) (s : string) :
  String.length (drop_chars n s) = (String.length s - n)%nat.
Proof.
  revert s. induction n as [|n IH]; intros [|c s]; simpl; done.
Qed.

Lemma length_take_chars (n : nat) (s : string) :
  (n ≤ String.length s)%nat → String.length (take_chars n s) = n.
Proof.
  revert s. induction n as [|n IH]; intros [|c s] Hn; simpl in *; try done; [lia|].
  rewrite IH; [done|lia].
Qed.

Lemma digit_layout_char c :
  is_digit 10 c = true → char_in "0123456789.e+-" c = true.
Proof.
  destruct c as [[] [] [] [] [] [] [] []]; vm_compute; congruence.
Qed.

Lemma digits_layout_chars (digits : string) :
  all_chars (is_digit 10) digits = true →
  all_chars (λ c, char_in "0123456789.e+-" c) digits = true.
Proof. apply all_chars_impl. apply digit_layout_char. Qed.

Lemma exponent_text_chars (e : Z) :
  all_chars (λ c, char_in "0123456789.e+-" c) (exponent_text e) = true.
Proof.
  unfold exponent_text.
  destruct (str_int_nonneg (Z.abs e) (Z.abs_nonneg e)) as (Hdigits & _ & _).
  rewrite !all_chars_app, (digits_layout_chars _ Hdigits).
  by destruct (e <? 0), (Z.abs e <? 10).
Qed.

(** The number that the layout of [repr] stands for, as [strtod] reads it:
    the digits with the power of ten that puts the point [decpt] places
    behind the first of them; for an integer, written with ".0", the digits
    up to the point and the 0 behind it. *)
Lemma decimal_literal_layout (digits : string) (decpt : Z) :
  all_chars (is_digit 10) digits = true → digits ≠ "" →
  ∃ body,
    (∀ neg, repr_layout neg digits decpt = (if neg : bool then "-" else "") ++ body) ∧
    (∃ c rest, body = String c rest ∧ is_digit 10 c = true) ∧
    all_chars (λ c, char_in "0123456789.e+-" c) body = true ∧
    decimal_literal body
    = Some (if (0 <? decpt) && (decpt <=? 16)
               && (Z.of_nat (String.length digits) <=? decpt)
            then (digits_value digits 0
                  * 10 ^ (decpt - Z.of_nat (String.length digits)) * 10,
                  -1, "")
            else (digits_value digits 0,
                  decpt - Z.of_nat (String.length digits), "")).
Proof.
  intros Hdigits Hne.
  pose proof (digits_layout_chars _ Hdigits) as Hchars.
  destruct digits as [|c0 rest0] eqn:Hd; [done|]. rewrite <- Hd in *.
  assert (is_digit 10 c0 = true ∧ all_chars (is_digit 10) rest0 = true)
    as [Hc0 Hrest0].
  { rewrite Hd in Hdigits. simpl in Hdigits. by apply andb_true_iff in Hdigits. }
  assert (String.length digits = S (String.length rest0)) as Hlen by by rewrite Hd.
  unfold repr_layout.
  destruct ((decpt <=? -4) || (16 <? decpt)) eqn:Hexp.
  - assert ((0 <? decpt) && (decpt <=? 16) = false) as ->.
    { apply orb_true_iff in Hexp as [H%Z.leb_le|H%Z.ltb_lt].
      - assert ((0 <? decpt) = false) as -> by (apply Z.ltb_ge; lia). done.
      - assert ((decpt <=? 16) = false) as -> by (apply Z.leb_gt; lia).
        apply andb_false_r. }
    cbn [andb].
    eexists. split; [done|].
    rewrite Hd. cbn [take_chars drop_chars]. rewrite <- Hd.
    destruct rest0 as [|c1 rest1] eqn:Hr.
    + assert ((1 <? Z.of_nat (String.length digits)) = false) as ->
        by (apply Z.ltb_ge; rewrite Hlen; simpl; lia).
      split; [by exists c0, ("" ++ "e" ++ exponent_text (decpt - 1))|].
      split.
      * cbn [String.append all_chars]. rewrite (digit_layout_char _ Hc0).
        apply exponent_text_chars.
      * change (String c0 "" ++ "" ++ "e" ++ exponent_text (decpt - 1))
          with (String c0 "" ++ "e" ++ exponent_text (decpt - 1)).
        rewrite decimal_literal_exponent; [|by simpl; rewrite Hc0|done].
        rewrite Hlen, Hd. simpl String.length. do 3 f_equal.
    + assert ((1 <? Z.of_nat (String.length digits)) = true) as ->
        by (apply Z.ltb_lt; rewrite Hlen; simpl; lia).
      rewrite <- Hr in *.
      split; [by eexists c0, _|].
      split.
      * rewrite !all_chars_app. cbn [all_chars].
        rewrite (digit_layout_char _ Hc0), (digits_layout_chars _ Hrest0).
        simpl. apply exponent_text_chars.
      * rewrite append_assoc.
        rewrite (decimal_literal_point (String c0 "") rest0
                   ("e" ++ exponent_text (decpt - 1)) (decpt - 1));
          [|by simpl; rewrite Hc0|done|by left|by right].
        rewrite Hlen, Hd. cbn [String.append]. do 3 f_equal. lia.
  - apply orb_false_iff in Hexp as [Hlow%Z.leb_gt Hhigh%Z.ltb_ge].
    assert ((decpt <=? 16) = true) as -> by (apply Z.leb_le; lia).
    rewrite andb_true_r.
    destruct (decpt <=? 0) eqn:Hzero.
    + apply Z.leb_le in Hzero.
      assert ((0 <? decpt) = false) as -> by (apply Z.ltb_ge; lia).
      cbn [andb].
      eexists. split; [done|].
      split; [by exists "0"%char, ("." ++ zeros (Z.to_nat (- decpt)) ++ digits)|].
      split.
      * cbn [String.append all_chars]. rewrite all_chars_app, Hchars.
        by rewrite (digits_layout_chars _ (zeros_digits _)).
      * change ("0." ++ zeros (Z.to_nat (- decpt)) ++ digits)
          with ("0" ++ "." ++ zeros (Z.to_nat (- decpt)) ++ digits).
        rewrite <- (append_nil_r digits) at 1.
        rewrite <- (append_assoc (zeros _) digits "").
        rewrite (decimal_literal_point "0" (zeros (Z.to_nat (- decpt)) ++ digits) "" 0);
          [|done|by rewrite all_chars_app, zeros_digits, Hdigits|by left|by left].
        rewrite string_length_app, length_zeros.
        cbn [String.append digits_value].
        change (0 * 10 + default 0 (digit_value "0")) with 0.
        rewrite digits_value_app, digits_value_zeros, Z.mul_0_l.
        do 3 f_equal. lia.
    + apply Z.leb_gt in Hzero.
      assert ((0 <? decpt) = true) as -> by (apply Z.ltb_lt; lia).
      cbn [andb].
      destruct (decpt <? Z.of_nat (String.length digits)) eqn:Hinside.
      * apply Z.ltb_lt in Hinside.
        assert ((Z.of_nat (String.length digits) <=? decpt) = false) as ->
          by (apply Z.leb_gt; lia).
        eexists. split; [done|].
        assert (∃ n, Z.to_nat decpt = S n) as [n Hn] by (exists (Z.to_nat (decpt - 1)); lia).
        split.
        { rewrite Hn, Hd. cbn [take_chars String.append]. by eexists _, _. }
        split.
        { rewrite !all_chars_app.
          rewrite (take_chars_all _ _ _ Hchars), (drop_chars_all _ _ _ Hchars).
          done. }
        rewrite <- (append_nil_r (drop_chars _ _)).
        rewrite (decimal_literal_point (take_chars (Z.to_nat decpt) digits)
                   (drop_chars (Z.to_nat decpt) digits) "" 0);
          [|by apply take_chars_all|by apply drop_chars_all| |by left].
        -- rewrite take_drop_chars, length_drop_chars. do 3 f_equal. lia.
        -- left. rewrite Hn, Hd. done.
      * apply Z.ltb_ge in Hinside.
        assert ((Z.of_nat (String.length digits) <=? decpt) = true) as ->
          by (apply Z.leb_le; lia).
        eexists. split; [done|].
        split.
        { rewrite Hd. cbn [String.append]. by eexists _, _. }
        split.
        { rewrite !all_chars_app, Hchars.
          by rewrite (digits_layout_chars _ (zeros_digits _)). }
        set (pad := zeros (Z.to_nat (decpt - Z.of_nat (String.length digits)))).
        change (digits ++ pad ++ ".0") with (digits ++ pad ++ "." ++ "0" ++ "").
        rewrite <- append_assoc.
        rewrite (decimal_literal_point (digits ++ pad) "0" "" 0);
          [|by rewrite all_chars_app, Hdigits; apply zeros_digits|done| |by left].
        -- rewrite !digits_value_app. unfold pad. rewrite digits_value_zeros.
           cbn [digits_value]. change (default 0 (digit_value "0")) with 0.
           rewrite Z2Nat.id by lia. do 3 f_equal. lia.
        -- left. rewrite Hd. done.
Qed.

Lemma layout_char_facts c :
  char_in "0123456789.e+-" c = true →
  Ascii.eqb c "_" = false ∧ is_int_space c = false ∧
  (∀ (A : Type) (x y : A),
     match Some c with Some "_"%char => x | _ => y end = y).
Proof.
  destruct c as [[] [] [] [] [] [] [] []]; vm_compute; try congruence; done.
Qed.

Lemma digit_not_sign c :
  is_digit 10 c = true → Ascii.eqb c "+" = false ∧ Ascii.eqb c "-" = false.
Proof.
  destruct c as [[] [] [] [] [] [] [] []]; vm_compute; try congruence; done.
Qed.

(** A text of digits, points, signs and "e" has no underscore to drop. *)
Lemma drop_underscores_layout (s : string) (prev : option ascii) :
  all_chars (λ c, char_in "0123456789.e+-" c) s = true →
  (∀ (A : Type) (x y : A),
     match prev with Some "_"%char => x | _ => y end = y) →
  drop_underscores prev s = Some s.
Proof.
  revert prev. induction s as [|c s IH]; intros prev Hs Hprev.
  - cbn [drop_underscores]. apply Hprev.
  - cbn [all_chars] in Hs. apply andb_true_iff in Hs as [Hc Hs].
    destruct (layout_char_facts c Hc) as (Hunder & _ & Hnext).
    cbn [drop_underscores]. rewrite Hunder, Hprev.
    by rewrite (IH (Some c) Hs Hnext).
Qed.

(** [float] reads the layout of [repr] as the decimal that it shows. *)
Lemma float_of_string_layout (neg : bool) (body : string) (v k : Z) :
  (∃ c rest, body = String c rest ∧ is_digit 10 c = true) →
  all_chars (λ c, char_in "0123456789.e+-" c) body = true →
  decimal_literal body = Some (v, k, "") →
  float_of_string ((if neg then "-" else "") ++ body)
  = Some (round_decimal neg v k).
Proof.
  intros (c & rest & Hbody & Hc) Hchars Hliteral.
  set (text := (if neg then "-" else "") ++ body).
  assert (all_chars (λ c, char_in "0123456789.e+-" c) text = true) as Htext.
  { unfold text. rewrite all_chars_app, Hchars. by destruct neg. }
  assert (all_chars (λ c, negb (is_int_space c)) text = true) as Hspace.
  { revert Htext. apply all_chars_impl. intros c' Hc'.
    destruct (layout_char_facts c' Hc') as (_ & -> & _). done. }
  unfold float_of_string.
  rewrite (drop_underscores_layout text None Htext) by done.
  rewrite (lstrip_none _ _ Hspace), (rstrip_none _ _ Hspace).
  assert (split_sign text = (neg, body)) as ->.
  { unfold text. destruct neg; [done|].
    cbn [String.append]. rewrite Hbody. unfold split_sign.
    by destruct (digit_not_sign c Hc) as [-> ->]. }
  by rewrite Hliteral.
Qed.

(** The zeros at the end of a text. *)
Lemma rstrip_zeros (s : string) :
  ∃ j, s = rstrip_by (Ascii.eqb "0") s ++ zeros j.
Proof.
  induction s as [|c s [j IH]]; [by exists 0%nat|].
  cbn [rstrip_by]. destruct (rstrip_by (Ascii.eqb "0") s) as [|c' r] eqn:Hr.
  - cbn [String.append] in IH. destruct (Ascii.eqb "0" c) eqn:Hc.
    + apply Ascii.eqb_eq in Hc as <-. exists (S j). cbn [String.append zeros].
      by rewrite <- IH.
    + exists j. cbn [String.append]. by rewrite <- IH.
  - exists j. cbn [String.append]. cbn [String.append] in IH. by rewrite <- IH.
Qed.

(** The digits of [d] without the zeros at its end: digits, one at least,
    their value, and the number of the zeros. *)
Lemma significant_digits (d : positive) :
  ∃ j : nat,
    (significant d).2 = Z.of_nat j ∧
    Z.of_nat (String.length (digits_of d))
    = Z.of_nat (String.length (significant d).1) + Z.of_nat j ∧
    all_chars (is_digit 10) (significant d).1 = true ∧
    (significant d).1 ≠ "" ∧
    digits_value (significant d).1 0 * 10 ^ Z.of_nat j = Zpos d.
Proof.
  unfold significant. cbn [fst snd].
  destruct (rstrip_zeros (digits_of d)) as [j Hj].
  set (kept := rstrip_by (Ascii.eqb "0") (digits_of d)) in *.
  pose proof (digits_of_digits d) as Hdigits.
  pose proof (digits_value_digits_of d) as Hvalue.
  rewrite Hj in Hdigits, Hvalue.
  rewrite all_chars_app in Hdigits. apply andb_true_iff in Hdigits as [Hkept _].
  rewrite digits_value_app, digits_value_zeros in Hvalue.
  assert (String.length (digits_of d) = (String.length kept + j)%nat) as Hlen.
  { rewrite Hj at 1. by rewrite string_length_app, length_zeros. }
  exists j. repeat split; [lia|lia|done| |done].
  intros Hempty. rewrite Hempty in Hvalue. simpl in Hvalue. lia.
Qed.

Lemma decimal_is_shift (v : Z) (j : nat) (k : Z) (m : positive) (e : Z) :
  decimal_is (v * 10 ^ Z.of_nat j) k m e → decimal_is v (Z.of_nat j + k) m e.
Proof.
  unfold decimal_is.
  set (a := 2 ^ Z.max (- e) 0). set (b := Zpos m * 2 ^ Z.max e 0).
  intros H.
  assert (0 < 10 ^ Z.of_nat j) as Hj by (apply Z.pow_pos_nonneg; lia).
  destruct (Z.le_gt_cases 0 k) as [Hk|Hk].
  - rewrite (Z.max_l k), (Z.max_r (- k)) in H by lia.
    rewrite (Z.max_l (Z.of_nat j + k)), (Z.max_r (- (Z.of_nat j + k))) by lia.
    rewrite Z.pow_add_r by lia. rewrite <- H. ring.
  - rewrite (Z.max_r k), (Z.max_l (- k)) in H by lia.
    change (10 ^ 0) with 1 in H.
    destruct (Z.le_gt_cases 0 (Z.of_nat j + k)) as [Hjk|Hjk].
    + rewrite (Z.max_l (Z.of_nat j + k)), (Z.max_r (- (Z.of_nat j + k))) by lia.
      change (10 ^ 0) with 1.
      assert (0 < 10 ^ (- k)) as Hpos by (apply Z.pow_pos_nonneg; lia).
      apply (Z.mul_reg_r _ _ (10 ^ (- k))); [lia|].
      replace (Z.of_nat j) with ((Z.of_nat j + k) + (- k)) in H at 1 by lia.
      rewrite Z.pow_add_r in H by lia.
      transitivity (b * 10 ^ (- k)); [rewrite <- H|]; ring.
    + rewrite (Z.max_r (Z.of_nat j + k)), (Z.max_l (- (Z.of_nat j + k))) by lia.
      change (10 ^ 0) with 1.
      apply (Z.mul_reg_r _ _ (10 ^ Z.of_nat j)); [lia|].
      replace (- k) with (- (Z.of_nat j + k) + Z.of_nat j) in H by lia.
      rewrite Z.pow_add_r in H by lia.
      transitivity (v * 10 ^ Z.of_nat j * 1 * a); [ring|rewrite H; ring].
Qed.

Lemma decimal_is_point (v k : Z) (m : positive) (e : Z) :
  0 ≤ k → decimal_is v k m e → decimal_is (v * 10 ^ k * 10) (-1) m e.
Proof.
  unfold decimal_is. intros Hk.
  rewrite (Z.max_l k), (Z.max_r (- k)) by lia.
  change (Z.max (-1) 0) with 0. change (Z.max (- -1) 0) with 1.
  change (10 ^ 0) with 1. change (10 ^ 1) with 10.
  intros H. rewrite Z.mul_1_r in H. rewrite <- H. ring.
Qed.

(** [float] reads the text of a decimal that is a double as that double. *)
Lemma float_of_decimal_text (neg : bool) (d : positive) (k : Z)
  (m : positive) (e : Z) :
  bounded 53 1024 m e = true →
  decimal_is (Zpos d) k m e →
  float_of_string (decimal_text neg d k) = Some (S754_finite neg m e).
Proof.
  intros Hbounded Hvalue.
  destruct (significant_digits d) as (j & _ & Hlen & Hdigits & Hne & Hd).
  unfold decimal_text.
  set (kept := (significant d).1) in *.
  set (decpt := Z.of_nat (String.length (digits_of d)) + k).
  destruct (decimal_literal_layout kept decpt Hdigits Hne)
    as (body & Hlayout & Hhead & Hchars & Hliteral).
  assert (0 < digits_value kept 0) as Hpos.
  { assert (0 < 10 ^ Z.of_nat j) by (apply Z.pow_pos_nonneg; lia). nia. }
  assert (decimal_is (digits_value kept 0) (Z.of_nat j + k) m e) as Hshift.
  { apply decimal_is_shift. by rewrite Hd. }
  assert (decpt - Z.of_nat (String.length kept) = Z.of_nat j + k) as Hexp
    by (unfold decpt; lia).
  rewrite Hexp in Hliteral.
  rewrite Hlayout.
  destruct ((0 <? decpt) && (decpt <=? 16)
            && (Z.of_nat (String.length kept) <=? decpt)) eqn:Hinteger.
  - apply andb_true_iff in Hinteger as [_ Hinteger%Z.leb_le].
    rewrite (float_of_string_layout neg body _ _ Hhead Hchars Hliteral).
    f_equal. apply round_decimal_exact; [|done|].
    + assert (0 < 10 ^ (Z.of_nat j + k)) by (apply Z.pow_pos_nonneg; lia). nia.
    + apply decimal_is_point; [lia|done].
  - rewrite (float_of_string_layout neg body _ _ Hhead Hchars Hliteral).
    f_equal. by apply round_decimal_exact.
Qed.

(** The search ends with a text that [float] reads back, when the text of
    all the digits is one. *)
Lemma shortest_decimal_read_back (x : spec_float) (neg : bool) (n : positive)
  (len k : Z) (fuel : nat) (count : Z) :
  float_of_string (decimal_text neg n k) = Some x →
  float_of_string (shortest_decimal x neg n len k fuel count) = Some x.
Proof.
  intros Hall. revert count.
  induction fuel as [|fuel IH]; intros count; [done|].
  cbn [shortest_decimal]. cbv zeta.
  repeat case_bool_decide; cbn [negb orb andb];
    repeat match goal with
           | |- context [if ?b then _ else _] => destruct b
           end;
    first [done | apply IH].
Qed.

(** [float(str(x))] is [x], for every double [x]; the NaN is read back as
    the NaN. *)
Theorem float_of_string_repr (x : spec_float) :
  valid_binary 53 1024 x = true →
  float_of_string (float_repr x) = Some x.
Proof.
  intros Hvalid. destruct x as [[]|[]| |neg m e]; try done.
  cbn [valid_binary] in Hvalid. unfold float_repr.
  destruct (0 <=? e) eqn:He.
  - apply Z.leb_le in He.
    apply shortest_decimal_read_back, float_of_decimal_text; [done|].
    unfold decimal_is.
    assert (0 < 2 ^ e) by (apply Z.pow_pos_nonneg; lia).
    rewrite Z2Pos.id by lia.
    rewrite (Z.max_r (- e)), (Z.max_l e) by lia.
    change (Z.max 0 0) with 0. change (Z.max (- 0) 0) with 0.
    change (10 ^ 0) with 1. change (2 ^ 0) with 1. ring.
  - apply Z.leb_gt in He.
    apply shortest_decimal_read_back, float_of_decimal_text; [done|].
    unfold decimal_is.
    assert (0 < 5 ^ (- e)) by (apply Z.pow_pos_nonneg; lia).
    rewrite Z2Pos.id by lia.
    rewrite (Z.max_l (- e)), (Z.max_r e) by lia.
    change (10 ^ 0) with 1. change (2 ^ 0) with 1.
    change 10 with (5 * 2) at 1. rewrite Z.pow_mul_l. ring.
Qed.

(** What [float] makes of some texts: underscores between digits, spaces
    around the number, a value beyond the doubles, a negative zero, the
    nearest double of two with the even mantissa; and texts that it
    refuses, the last of them a digit after the separator 0x1c. *)
Example float_of_string_examples :
  float_of_string " 1_0.5e0_1 " = Some (S754_finite false 7388718138654720 (-46)) ∧
  float_of_string "+.5" = Some (S754_finite false 4503599627370496 (-53)) ∧
  float_of_string "1e400" = Some (S754_infinity false) ∧
  float_of_string "-1e-400" = Some (S754_zero true) ∧
  float_of_string "9007199254740993" = Some (S754_finite false 4503599627370496 1) ∧
  float_of_string "-Infinity" = Some (S754_infinity true) ∧
  float_of_string "NaN" = Some S754_nan ∧
  float_of_string "" = None ∧
  float_of_string "." = None ∧
  float_of_string "1e" = None ∧
  float_of_string "1__0" = None ∧
  float_of_string "_1" = None ∧
  float_of_string "1_" = None ∧
  float_of_string "1_.5" = None ∧
  float_of_string "0x10" = None ∧
  float_of_string "1,5" = None ∧
  float_of_string (String (ascii_of_nat 28) "1") = None.
Proof. vm_compute. by repeat split. Qed.

(** What [str] writes for some doubles: 0.1, 1e23, 1e16 and 1e15 on the
    two sides of the change of layout, 0.0001 and 0.00001 likewise, 100,
    the sum of 0.1 and 0.2, the smallest and the largest double, and two
    doubles that lie in the middle between the two nearest decimals of 17
    digits. *)
Example float_repr_examples :
  float_repr (S754_finite false 7205759403792794 (-56)) = "0.1" ∧
  float_repr (S754_finite false 5960464477539062 24) = "1e+23" ∧
  float_repr (S754_finite false 5000000000000000 1) = "1e+16" ∧
  float_repr (S754_finite false 8000000000000000 (-3)) = "1000000000000000.0" ∧
  float_repr (S754_finite false 7378697629483821 (-66)) = "0.0001" ∧
  float_repr (S754_finite true 5902958103587057 (-69)) = "-1e-05" ∧
  float_repr (S754_finite false 7036874417766400 (-46)) = "100.0" ∧
  float_repr (S754_finite false 5404319552844596 (-54)) = "0.30000000000000004" ∧
  float_repr (S754_finite false 1 (-1074)) = "5e-324" ∧
  float_repr (S754_finite false 9007199254740991 971) = "1.7976931348623157e+308" ∧
  float_repr (S754_finite false 4503599627370497 (-2)) = "1125899906842624.2" ∧
  float_repr (S754_finite false 4503599627370499 (-2)) = "1125899906842624.8" ∧
  float_repr (S754_zero true) = "-0.0" ∧
  float_repr (S754_infinity false) = "inf" ∧
  float_repr S754_nan = "nan".
Proof. vm_compute. by repeat split. Qed.

End float_text.

Section coercion_facts.
Context `{PyFloat}.

Lemma create_array c text :
  _create_tag_from_input (class_name (Array c)) text
  = (_parse_int_list text (array_minimum c) (array_maximum c)
       ≫= make_array c).
Proof. by destruct c. Qed.

(** A tag made from a type name is of the class the name stands for. *)
Lemma created_tag_class type_name value t :
  _create_tag_from_input type_name value = Ok t →
  dict_get (strip type_name) TAG_CLASS_MAP = Some (class_of t).
Proof.
  unfold _create_tag_from_input.
  destruct (dict_get (strip type_name) TAG_CLASS_MAP) as [[c|c| |c| |]|]; [..|done].
  - destruct (int0 value) as [n|]; [|done].
    destruct (make_numeric c n) as [t'|] eqn:E; [|done].
    intros [= <-]. by rewrite (make_numeric_class _ _ _ E).
  - destruct (float_of_text value); [|done]. by intros [= <-].
  - by intros [= <-].
  - destruct c; (destruct (_parse_int_list _ _ _) as [values|]; simpl; [|done]);
      intros E; by rewrite (make_array_class _ _ _ E).
  - by intros [= <-].
  - by intros [= <-].
Qed.

(** C5 (amended).  Coercion for an array class strips the surrounding
    whitespace of the text and then every leading and trailing bracket
    character, splits at the commas, trims each segment and drops the
    segments that are then empty.  A text that is blank yields the empty
    array.  Otherwise the first segment that is not an integer literal
    fails with [InvalidInteger], and for a ByteArray the first element
    outside -128..127 fails with [OutOfRange], whichever comes first; when
    every segment is accepted (and fits the array's item type) the array of
    the values is returned.  So [coerce(ByteArray, "200")] fails with
    [OutOfRange], [coerce(IntArray, "200")] is [[200]], and two pairs of
    brackets are stripped like one. *)
Theorem array_coercion (c : array_type) (text : string) :
  (is_empty (strip text) = true →
   _create_tag_from_input (class_name (Array c)) text = Ok (TArray c []))
  ∧
  (is_empty (strip text) = false →
   (∀ good part rest vs,
      int_list_parts (strip_chars "[]" (strip text)) = good ++ part :: rest →
      Forall2 (accepted c) good vs →
      int0 part = None →
      _create_tag_from_input (class_name (Array c)) text = Err InvalidInteger)
   ∧
   (∀ good part rest vs v,
      c = ByteArray →
      int_list_parts (strip_chars "[]" (strip text)) = good ++ part :: rest →
      Forall2 (accepted c) good vs →
      int0 part = Some v → ¬ (-128 ≤ v ≤ 127) →
      _create_tag_from_input (class_name (Array c)) text = Err OutOfRange)
   ∧
   (∀ vs,
      Forall2 (accepted c) (int_list_parts (strip_chars "[]" (strip text))) vs →
      Forall (λ v, fits (array_bits c) v = true) vs →
      _create_tag_from_input (class_name (Array c)) text = Ok (TArray c vs)))
  ∧
  _create_tag_from_input "ByteArray" "200" = Err OutOfRange
  ∧
  _create_tag_from_input "IntArray" "200" = Ok (TArray IntArray [200])
  ∧
  _create_tag_from_input "IntArray" " [[1, 2]] " = Ok (TArray IntArray [1; 2]).
Proof.
  rewrite create_array. unfold _parse_int_list.
  split; [|split; [|by repeat split]].
  - by intros ->.
  - intros ->. split; [|split].
    + intros good part rest vs -> Hgood Hpart.
      rewrite (parse_int_loop_app _ _ good _ vs).
      * simpl. by rewrite Hpart.
      * eapply Forall2_impl; [done|]. apply accepted_bounds.
    + intros good part rest vs v -> -> Hgood Hpart Hv.
      rewrite (parse_int_loop_app _ _ good _ vs).
      * simpl. rewrite Hpart.
        destruct (v <? -128) eqn:Hlo; [done|].
        destruct (127 <? v) eqn:Hhi; [done|].
        apply Z.ltb_ge in Hlo, Hhi. lia.
      * eapply Forall2_impl; [done|]. apply accepted_bounds.
    + intros vs Hparts Hfit.
      rewrite (parse_int_loop_ok _ _ _ vs).
      * simpl. unfold make_array.
        assert (forallb (fits (array_bits c)) vs = true) as ->; [|done].
        apply forallb_forall. intros v Hv.
        rewrite Forall_forall in Hfit. apply Hfit.
        by apply list_elem_of_In.
      * eapply Forall2_impl; [done|]. apply accepted_bounds.
Qed.

(** C10.  Array coercion skips the comma-separated segments that are empty
    after trimming: "1,,2", "1, ,2" and "1,2," all coerce to [[1, 2]], for
    each of the three array classes; and in general the parts that are
    parsed are the trimmed segments that are not empty. *)
Theorem empty_segments_are_skipped (c : array_type) :
  (_create_tag_from_input (class_name (Array c)) "1,,2" = Ok (TArray c [1; 2]) ∧
   _create_tag_from_input (class_name (Array c)) "1, ,2" = Ok (TArray c [1; 2]) ∧
   _create_tag_from_input (class_name (Array c)) "1,2," = Ok (TArray c [1; 2]))
  ∧
  (∀ segments : list string,
     segments ≠ [] →
     Forall (λ s, all_chars (λ ch, negb (Ascii.eqb ch ",")) s = true) segments →
     int_list_parts (join "," segments)
     = filter (λ part : string, is_empty part = false) (map strip segments))
  ∧
  (∀ (segments : list string) minimum maximum,
     segments ≠ [] →
     Forall (λ s, all_chars (λ ch, negb (Ascii.eqb ch ",")) s = true) segments →
     is_empty (join "," segments) = false →
     strip_chars "[]" (strip (join "," segments)) = join "," segments →
     _parse_int_list (join "," segments) minimum maximum
     = parse_int_loop minimum maximum
         (filter (λ part : string, is_empty part = false) (map strip segments)) []).
Proof.
  assert (∀ segments : list string,
            segments ≠ [] →
            Forall (λ s, all_chars (λ ch, negb (Ascii.eqb ch ",")) s = true) segments →
            int_list_parts (join "," segments)
            = filter (λ part : string, is_empty part = false) (map strip segments))
    as Hparts.
  { intros segments Hne Hsegs. unfold int_list_parts.
    by rewrite (split_join "," segments Hne Hsegs). }
  split; [by destruct c|]. split; [done|].
  intros segments minimum maximum Hne Hsegs Hnonempty Hstripped.
  unfold _parse_int_list. rewrite Hstripped, (Hparts _ Hne Hsegs).
  destruct (strip (join "," segments)) eqn:Es; [|done].
  exfalso. by rewrite <- Hstripped in Hnonempty.
Qed.

(** Coercing a tag's class from the text the detail panel shows for the
    tag gives the tag back, with any [float] and [str] that agree on the
    float of the tag. *)
Lemma coerce_shown_text (t : tag) :
  value_editor_mode t ≠ ModeMessage →
  in_range t →
  float_text_round_trips t →
  _create_tag_from_input (type_name t)
    (_get_value_input (value_editor_mode t) (editable_text t)) = Ok t.
Proof.
  intros Hmode Hrange Hfloat.
  destruct t as [c n|c x|s|c values| |]; [..|done|done].
  - assert (type_name (TNum c n) = class_name (Numeric c)) as -> by done.
    unfold _create_tag_from_input.
    assert (dict_get (strip (class_name (Numeric c))) TAG_CLASS_MAP
            = Some (Numeric c)) as -> by by destruct c.
    simpl. rewrite int0_str_int. unfold make_numeric.
    simpl in Hrange. by rewrite Hrange.
  - assert (type_name (TFloat c x) = class_name (Floating c)) as -> by done.
    unfold _create_tag_from_input.
    assert (dict_get (strip (class_name (Floating c))) TAG_CLASS_MAP
            = Some (Floating c)) as -> by by destruct c.
    simpl in *. by rewrite Hfloat.
  - done.
  - assert (type_name (TArray c values) = class_name (Array c)) as -> by done.
    rewrite create_array. simpl in Hrange.
    assert (make_array c values = Ok (TArray c values)) as Hmake.
    { unfold make_array.
      assert (forallb (fits (array_bits c)) values = true) as ->; [|done].
      apply forallb_forall. intros v Hv. rewrite Forall_forall in Hrange.
      apply Hrange. by apply list_elem_of_In. }
    cbn [value_editor_mode _get_value_input editable_text].
    destruct (decide (values = [])) as [->|Hne]; [by destruct c|].
    destruct (joined_fixed is_space values int_char_not_space Hne)
      as (Hj & Hl & Hr).
    destruct (joined_fixed (char_in "[]") values int_char_not_bracket Hne)
      as (_ & Hl' & Hr').
    assert (strip (join ", " (map str_int values)) = join ", " (map str_int values))
      as Hstrip.
    { unfold strip. by rewrite Hl, Hr. }
    unfold _parse_int_list. rewrite !Hstrip.
    unfold strip_chars. rewrite Hl', Hr'.
    rewrite (parts_of_shown_text values Hne).
    destruct (join ", " (map str_int values)) eqn:E; [done|].
    cbn [is_empty].
    rewrite (parse_int_loop_ok _ _ _ values); [done|].
    apply Forall2_fmap_l, Forall2_same_length_lookup.
    split; [done|]. intros i v v' Hv Hv'. rewrite Hv in Hv'. injection Hv' as <-.
    split; [apply int0_str_int|].
    assert (fits (array_bits c) v = true) as Hfit.
    { rewrite Forall_forall in Hrange. apply Hrange.
      by eapply list_elem_of_lookup_2. }
    destruct c; simpl; try done.
    apply byte_fits in Hfit. split; apply Z.ltb_ge; lia.
Qed.

(** Coercion for an integer class: a text that is no integer literal and a
    value outside the class's width both fail with [InvalidInteger]; a
    value within the width is the tag's value. *)
Theorem integer_coercion (c : numeric_type) (value : string) :
  (int0 value = None →
   _create_tag_from_input (class_name (Numeric c)) value = Err InvalidInteger)
  ∧
  (∀ n, int0 value = Some n →
        _create_tag_from_input (class_name (Numeric c)) value
        = if fits (numeric_bits c) n then Ok (TNum c n) else Err InvalidInteger).
Proof.
  unfold _create_tag_from_input.
  assert (dict_get (strip (class_name (Numeric c))) TAG_CLASS_MAP
          = Some (Numeric c)) as -> by by destruct c.
  split.
  - by intros ->.
  - intros n ->. unfold make_numeric. by destruct (fits _ _).
Qed.

End coercion_facts.

(** Three texts: an unparseable third element; an element out of range
    that comes before an unparseable one; and brackets the wrong way round
    with a hexadecimal literal and an empty segment. *)
Lemma array_coercion_witness :
  _create_tag_from_input (H := python_float) (class_name (Array ByteArray))
    "[1, 2, abc]" = Err InvalidInteger
  ∧
  _create_tag_from_input (H := python_float) (class_name (Array ByteArray))
    "[1, 200, abc]" = Err OutOfRange
  ∧
  _create_tag_from_input (H := python_float) (class_name (Array LongArray))
    " ]]-7, 0x10,, 3[ " = Ok (TArray LongArray [-7; 16; 3]).
Proof.
  split; [|split].
  - apply (array_coercion (H := python_float) ByteArray "[1, 2, abc]")
      with (good := ["1"; "2"]) (part := "abc") (rest := []) (vs := [1; 2]).
    + reflexivity.
    + reflexivity.
    + repeat constructor; simpl; lia.
    + reflexivity.
  - apply (array_coercion (H := python_float) ByteArray "[1, 200, abc]")
      with (good := ["1"]) (part := "200") (rest := ["abc"]) (vs := [1]) (v := 200).
    + reflexivity.
    + reflexivity.
    + reflexivity.
    + repeat constructor; simpl; lia.
    + reflexivity.
    + lia.
  - apply (array_coercion (H := python_float) LongArray " ]]-7, 0x10,, 3[ ").
    + reflexivity.
    + repeat constructor; simpl; try done.
    + repeat constructor.
Defined.

(** C5 (counterexample).  Read with the spec's words, which strip one pair
    of brackets, "[[1,2]]" has the unparseable elements "[1" and "2]"; the
    code strips both pairs and returns [[1, 2]]. *)
Lemma nested_brackets_are_stripped :
  spec_int_list "[[1,2]]" = Err InvalidInteger ∧
  _parse_int_list "[[1,2]]" None None = Ok [1; 2] ∧
  ∀ F : PyFloat,
    _create_tag_from_input "IntArray" "[[1,2]]" = Ok (TArray IntArray [1; 2]).
Proof. by repeat split. Qed.

(** The segments "1", "", " ", "2", "": the parts parsed are "1" and
    "2". *)
Lemma empty_segments_are_skipped_witness :
  _parse_int_list (join "," ["1"; ""; " "; "2"; ""]) None None
  = parse_int_loop None None ["1"; "2"] [].
Proof.
  apply (empty_segments_are_skipped (H := python_float) IntArray).
  - done.
  - repeat constructor.
  - reflexivity.
  - reflexivity.
Defined.

(** C8.  For every scalar and array tag whose numbers fit its class,
    coercing the tag's class from the text the detail panel shows for it
    gives the tag back: Byte, Short, Int, Long, Float, Double, String,
    ByteArray, IntArray and LongArray.  The float of a Float or Double tag
    is any double; the NaN is given back as the NaN, which Python's [==]
    tells apart from itself. *)
Theorem coerce_editable_text_round_trip (t : tag) :
  value_editor_mode t ≠ ModeMessage →
  in_range t →
  _create_tag_from_input (H := python_float) (type_name t)
    (_get_value_input (value_editor_mode t)
       (editable_text (H := python_float) t)) = Ok t.
Proof.
  intros Hmode Hrange. apply coerce_shown_text; [done|done|].
  destruct t as [c n|c x|s|c values| |]; try done.
  by apply float_of_string_repr.
Qed.

(** The texts shown for a ByteArray, the least Long, the doubles 0.1,
    -2.5e-5 and 1e23, a negative infinity and a string with spaces, read
    back. *)
Lemma coerce_editable_text_round_trip_witness :
  _create_tag_from_input (H := python_float) "ByteArray" "-128, 0, 127"
  = Ok (TArray ByteArray [-128; 0; 127])
  ∧
  _create_tag_from_input (H := python_float) "Long" "-9223372036854775808"
  = Ok (TNum Long (-9223372036854775808))
  ∧
  _create_tag_from_input (H := python_float) "Double" "0.1"
  = Ok (TFloat Double (S754_finite false 7205759403792794 (-56)))
  ∧
  _create_tag_from_input (H := python_float) "Float" "-2.5e-05"
  = Ok (TFloat Float (S754_finite true 7378697629483821 (-68)))
  ∧
  _create_tag_from_input (H := python_float) "Double" "1e+23"
  = Ok (TFloat Double (S754_finite false 5960464477539062 24))
  ∧
  _create_tag_from_input (H := python_float) "Double" "-inf"
  = Ok (TFloat Double (S754_infinity true))
  ∧
  _create_tag_from_input (H := python_float) "String" " a, b "
  = Ok (TString " a, b ").
Proof.
  refine (conj _ (conj _ (conj _ (conj _ (conj _ (conj _ _)))))).
  - apply (coerce_editable_text_round_trip (TArray ByteArray [-128; 0; 127]));
      [done|]. repeat constructor.
  - apply (coerce_editable_text_round_trip (TNum Long (-9223372036854775808)));
      done.
  - apply (coerce_editable_text_round_trip
             (TFloat Double (S754_finite false 7205759403792794 (-56)))); done.
  - apply (coerce_editable_text_round_trip
             (TFloat Float (S754_finite true 7378697629483821 (-68)))); done.
  - apply (coerce_editable_text_round_trip
             (TFloat Double (S754_finite false 5960464477539062 24))); done.
  - apply (coerce_editable_text_round_trip (TFloat Double (S754_infinity true)));
      done.
  - apply (coerce_editable_text_round_trip (TString " a, b ")); done.
Defined.

Lemma integer_coercion_example :
  ∀ F : PyFloat,
    _create_tag_from_input "Byte" "200" = Err InvalidInteger ∧
    _create_tag_from_input "Short" "200" = Ok (TNum Short 200) ∧
    _create_tag_from_input "Int" "0x7fffffff" = Ok (TNum Int 2147483647) ∧
    _create_tag_from_input "Int" "0x80000000" = Err InvalidInteger.
Proof. intros F. by repeat split. Qed.

(** ** Addressing *)

Lemma list_alter_same {A} (f : A → A) (i : nat) (l : list A) x :
  l !! i = Some x → f x = x → alter f i l = l.
Proof.
  revert i. induction l as [|y l IH]; intros [|i]; simpl; try done.
  - intros [= ->] Hf. unfold alter. simpl. by rewrite Hf.
  - intros H Hf. unfold alter. simpl. f_equal. by apply IH.
Qed.

Lemma resolve_app root (p q : path) :
  resolve root (p ++ q) = resolve root p ≫= λ t, resolve t q.
Proof.
  revert root. induction p as [|k p IH]; intros root; simpl; [done|].
  destruct (child root k); simpl; [apply IH | done].
Qed.

Lemma resolve_snoc root (pp : path) k :
  resolve root (pp ++ [k]) = resolve root pp ≫= λ parent, child parent k.
Proof.
  rewrite resolve_app. destruct (resolve root pp) as [parent|]; simpl; [|done].
  by destruct (child parent k).
Qed.

Lemma resolve_set_at root p v x :
  resolve root p = Some x → resolve (set_at root p v) p = Some v.
Proof.
  revert root. induction p as [|k p IH]; intros root; simpl; [done|].
  destruct root as [| | | |entries|st items], k as [key|i]; simpl; try done.
  - rewrite dict_get_alter. destruct (dict_get key entries); simpl; [apply IH | done].
  - rewrite list_lookup_alter_eq. destruct (items !! i); simpl; [apply IH | done].
Qed.

Lemma set_at_same root p x :
  resolve root p = Some x → set_at root p x = root.
Proof.
  revert root. induction p as [|k p IH]; intros root; simpl.
  - by intros [= ->].
  - destruct root as [| | | |entries|st items], k as [key|i]; simpl; try done.
    + destruct (dict_get key entries) as [c|] eqn:E; [|done]. intros H.
      f_equal. eapply dict_alter_id; eauto.
    + destruct (items !! i) as [c|] eqn:E; [|done]. intros H.
      f_equal. eapply list_alter_same; eauto.
Qed.

Lemma child_set_child parent k new x :
  child parent k = Some x → child (set_child parent k new) k = Some new.
Proof.
  destruct parent as [| | | |entries|st items], k as [key|i]; simpl; try done.
  - intros _. apply dict_get_set_eq.
  - intros H. apply list_lookup_insert_eq. by eapply lookup_lt_Some.
Qed.

Lemma node_info_root root :
  node_info root [] =
  Some {| node_tag := root; node_parent := None; node_key := None;
          node_path := [] |}.
Proof. done. Qed.

Lemma node_info_snoc root (pp : path) k parent t :
  resolve root pp = Some parent → child parent k = Some t →
  node_info root (pp ++ [k]) =
  Some {| node_tag := t; node_parent := Some parent; node_key := Some k;
          node_path := pp ++ [k] |}.
Proof.
  intros Hp Hc. unfold node_info.
  rewrite last_snoc, removelast_last, Hp, Hc. done.
Qed.

(** The node that a path resolves to is the node [build_tree] records. *)
Lemma node_info_resolve root (p : path) t :
  resolve root p = Some t →
  ∃ info, node_info root p = Some info ∧ node_tag info = t ∧
          ((p = [] ∧ node_parent info = None ∧ node_key info = None) ∨
           (∃ pp k parent, p = pp ++ [k] ∧ resolve root pp = Some parent ∧
                           child parent k = Some t ∧
                           node_parent info = Some parent ∧
                           node_key info = Some k)).
Proof.
  destruct p as [|k pp _] using rev_ind.
  - intros [= <-]. eexists. split; [apply node_info_root|]. simpl. eauto.
  - rewrite resolve_snoc.
    destruct (resolve root pp) as [parent|] eqn:Hp; simpl; [|done].
    intros Hc. eexists. split; [by eapply node_info_snoc|]. simpl.
    split; [done|]. right. by exists pp, k, parent.
Qed.

Lemma node_info_path_eq root (p : path) info :
  node_info root p = Some info → node_path info = p.
Proof.
  unfold node_info. destruct (last p) as [k|] eqn:Hlast.
  - destruct (resolve root (removelast p)) as [parent|]; [|done].
    destruct (child parent k); [|done]. by intros [= <-].
  - intros [= <-]. simpl. symmetry. by apply last_None.
Qed.

Lemma replace_tag_resolve root (p : path) info t new :
  resolve root p = Some t → node_info root p = Some info →
  resolve (_replace_tag root info new) p = Some new.
Proof.
  intros Hr Hi.
  destruct (node_info_resolve _ _ _ Hr) as (info' & Hi' & _ & Hcase).
  rewrite Hi in Hi'. injection Hi' as <-.
  unfold _replace_tag. rewrite (node_info_path_eq _ _ _ Hi).
  destruct Hcase as [(-> & Hpar & _)|(pp & k & parent & -> & Hp & Hc & Hpar & Hkey)];
    rewrite Hpar; [done|]. rewrite Hkey.
  rewrite removelast_last, resolve_snoc.
  rewrite (resolve_set_at _ _ _ _ Hp). simpl.
  by eapply child_set_child.
Qed.

(** ** Renaming and replacing: [apply_changes] *)

Lemma is_empty_false s : s ≠ "" → is_empty s = false.
Proof. by destruct s. Qed.

Lemma eqb_neq_false (a b : string) : a ≠ b → String.eqb a b = false.
Proof. intros. by apply String.eqb_neq. Qed.

Lemma dict_get_del_ne {V} key key' (d : list (string * V)) :
  key' ≠ key → dict_get key' (dict_del key d) = dict_get key' d.
Proof.
  intros Hne. induction d as [|[k w] d IH]; [done|]. simpl.
  destruct (String.eqb k key) eqn:E; simpl.
  - apply String.eqb_eq in E as ->. by rewrite eqb_neq_false.
  - by rewrite IH.
Qed.

Lemma dict_get_not_key {V} key (d : list (string * V)) :
  key ∉ map fst d → dict_get key d = None.
Proof.
  induction d as [|[k w] d IH]; [done|]. simpl.
  intros [Hne Hd]%not_elem_of_cons. by rewrite eqb_neq_false, IH.
Qed.

Lemma dict_del_filter {V} key (d : list (string * V)) :
  NoDup (map fst d) → dict_del key d = filter (λ entry, entry.1 ≠ key) d.
Proof.
  induction d as [|[k w] d IH]; [done|].
  intros [Hk Hd]%NoDup_cons. simpl.
  destruct (String.eqb k key) eqn:E.
  - apply String.eqb_eq in E as ->.
    rewrite filter_cons_False by (simpl; by intros ?).
    clear IH Hd. induction d as [|[k w'] d IH]; [done|].
    simpl in Hk. apply not_elem_of_cons in Hk as [Hne Hk].
    rewrite filter_cons_True by (simpl; congruence).
    f_equal. by apply IH.
  - apply String.eqb_neq in E. rewrite filter_cons_True by done.
    by rewrite IH.
Qed.

Lemma dict_get_del_eq {V} key (d : list (string * V)) :
  NoDup (map fst d) → dict_get key (dict_del key d) = None.
Proof.
  intros Hd. apply dict_get_not_key. rewrite (dict_del_filter _ _ Hd).
  intros (entry & -> & Hin)%list_elem_of_fmap.
  by apply list_elem_of_filter in Hin as [? _].
Qed.

Lemma dict_get_snoc_fresh {V} key (v : V) d :
  dict_mem key d = false → dict_get key (d ++ [(key, v)]) = Some v.
Proof.
  intros Hmem. rewrite <- (dict_set_fresh _ v _ Hmem). apply dict_get_set_eq.
Qed.

Section apply_changes_facts.
Context `{PyFloat}.



End apply_changes_facts.




(** C1 (the failing input).  The entry "a" holds [Int(1)]; the name entry
    says "b" and the value entry "not-a-number".  The coercion fails with
    [InvalidInteger], and the call returns with the entry already renamed:
    the tree is not the one the call started from. *)
Theorem rename_survives_failed_coercion :
  ∀ F : PyFloat,
    _create_tag_from_input "Int" "not-a-number" = Err InvalidInteger ∧
    apply_changes (TCompound [("a", TNum Int 1)]) [Name "a"] "b" "not-a-number"
    = (TCompound [("b", TNum Int 1)], Some InvalidInteger).
Proof. intros F. split; reflexivity. Qed.

(** ** Inserting: [add_child] *)

Section add_child_facts.
Context `{PyFloat}.

(** One insertion into a list whose subtype is fixed. *)
Lemma add_child_typed_list (root : tag) (p : path) (c : tag_class)
  (items : list tag) (dialog : option AddTagResult) :
  resolve root p = Some (TList (Some c) items) →
  homogeneous c items →
  ∃ items',
    resolve (add_child root p dialog).1 p = Some (TList (Some c) items') ∧
    homogeneous c items' ∧
    (items' = items ∨
     ∃ new_tag, items' = items ++ [new_tag] ∧
                (add_child root p dialog).2 = None).
Proof.
  intros Hp Hitems.
  destruct (node_info_resolve _ _ _ Hp) as (info & Hinfo & Htag & _).
  unfold add_child. rewrite Hinfo, Htag.
  destruct dialog as [res|]; [|by exists items; auto].
  destruct (_create_tag_from_input _ _) as [new_tag|e]; [|by exists items; auto].
  simpl. destruct (decide (class_of new_tag = c)) as [Hc|Hc]; simpl.
  - exists (items ++ [new_tag]). split; [by eapply resolve_set_at|].
    split; [|by eauto].
    apply Forall_app. split; [done|]. by constructor.
  - exists items. auto.
Qed.

(** C2.  Inserting into a list through [add_child].  A first element
    inserted into a list whose subtype is still untyped fixes the subtype to
    that element's class.  From then on, whatever is inserted and however
    often, the subtype stays and every element is of that class; and
    inserting a tag of another class fails with [TypeMismatch] and leaves
    the tree as it was. *)
Theorem list_insert_fixes_subtype (root : tag) (p : path) :
  (∀ res new_tag list_type,
     resolve root p = Some (TList None []) →
     dict_get (result_type res) TAG_CLASS_MAP = Some list_type →
     _create_tag_from_input (result_type res) (result_value res) = Ok new_tag →
     class_of new_tag = list_type ∧
     ∃ root',
       add_child root p (Some res) = (root', None) ∧
       resolve root' p = Some (TList (Some list_type) [new_tag]))
  ∧
  (∀ c items,
     resolve root p = Some (TList (Some c) items) →
     homogeneous c items →
     (∀ dialogs,
        ∃ items', resolve (add_children root p dialogs) p
                  = Some (TList (Some c) items') ∧
                  homogeneous c items')
     ∧
     (∀ res new_tag,
        _create_tag_from_input (result_type res) (result_value res) = Ok new_tag →
        class_of new_tag ≠ c →
        add_child root p (Some res) = (root, Some TypeMismatch))).
Proof.
  split.
  - intros res new_tag list_type Hp Hty Hnew.
    pose proof (created_tag_class _ _ _ Hnew) as Hclass.
    rewrite (offered_type_name_stripped _ _ Hty), Hty in Hclass.
    injection Hclass as Hclass. split; [done|].
    destruct (node_info_resolve _ _ _ Hp) as (info & Hinfo & Htag & _).
    unfold add_child. rewrite Hinfo, Htag, Hnew, Hty. simpl.
    rewrite decide_True by done.
    eexists. split; [done|].
    by eapply replace_tag_resolve.
  - intros c items Hp Hitems. split.
    + intros dialogs. revert root items Hp Hitems.
      induction dialogs as [|d dialogs IH]; intros root items Hp Hitems; simpl.
      * by exists items.
      * destruct (add_child_typed_list root p c items d Hp Hitems)
          as (items1 & Hp1 & Hitems1 & _).
        apply (IH _ _ Hp1 Hitems1).
    + intros res new_tag Hnew Hc.
      destruct (node_info_resolve _ _ _ Hp) as (info & Hinfo & Htag & _).
      unfold add_child. rewrite Hinfo, Htag, Hnew. simpl.
      by rewrite decide_False.
Qed.

(** Inserting into a compound through [add_child]: a name that is already a
    key fails with [DuplicateName]; a value that cannot be coerced fails
    with the coercion's error; in both cases the tree is unchanged.
    Otherwise the new entry is appended at the end of the compound. *)
Theorem insert_into_compound (root : tag) (p : path)
  (entries : list (string * tag)) (name type_name value : string) :
  resolve root p = Some (TCompound entries) →
  (dict_mem name entries = true →
   add_child root p
     (Some {| result_name := Some name; result_type := type_name;
              result_value := value |})
   = (root, Some DuplicateName))
  ∧
  (dict_mem name entries = false →
   ∀ e, _create_tag_from_input type_name value = Err e →
        add_child root p
          (Some {| result_name := Some name; result_type := type_name;
                   result_value := value |})
        = (root, Some e))
  ∧
  (dict_mem name entries = false →
   ∀ new_tag, _create_tag_from_input type_name value = Ok new_tag →
     ∃ root',
       add_child root p
         (Some {| result_name := Some name; result_type := type_name;
                  result_value := value |})
       = (root', None) ∧
       resolve root' p = Some (TCompound (entries ++ [(name, new_tag)]))).
Proof.
  intros Hp.
  destruct (node_info_resolve _ _ _ Hp) as (info & Hinfo & Htag & _).
  unfold add_child. rewrite Hinfo, Htag. simpl.
  split; [|split].
  - by intros ->.
  - intros -> e ->. done.
  - intros Hmem new_tag ->. rewrite Hmem. eexists. split; [done|].
    rewrite (dict_set_fresh _ _ _ Hmem). by eapply resolve_set_at.
Qed.

End add_child_facts.

(** An untyped list takes an Int and becomes a list of Int; a String is
    then refused. *)
Lemma list_insert_fixes_subtype_witness :
  (∃ root',
     add_child (H := python_float)
       (TCompound [("l", TList None [])]) [Name "l"]
       (Some {| result_name := None; result_type := "Int"; result_value := "3" |})
     = (root', None) ∧
     resolve root' [Name "l"] = Some (TList (Some (Numeric Int)) [TNum Int 3]))
  ∧
  add_child (H := python_float)
    (TCompound [("l", TList (Some (Numeric Int)) [TNum Int 3])]) [Name "l"]
    (Some {| result_name := None; result_type := "String"; result_value := "x" |})
  = (TCompound [("l", TList (Some (Numeric Int)) [TNum Int 3])], Some TypeMismatch).
Proof.
  split.
  - apply (list_insert_fixes_subtype (H := python_float)
             (TCompound [("l", TList None [])]) [Name "l"]); done.
  - apply (list_insert_fixes_subtype (H := python_float)
             (TCompound [("l", TList (Some (Numeric Int)) [TNum Int 3])]) [Name "l"])
      with (c := Numeric Int) (items := [TNum Int 3]) (new_tag := TString "x");
      [done|by repeat constructor|done|done].
Defined.

(** The compound { a: 1 } gets a string under "b"; a second "a" is
    refused. *)
Lemma insert_into_compound_witness :
  add_child (H := python_float) (TCompound [("a", TNum Int 1)]) []
    (Some {| result_name := Some "a"; result_type := "Int"; result_value := "2" |})
  = (TCompound [("a", TNum Int 1)], Some DuplicateName)
  ∧
  ∃ root',
    add_child (H := python_float) (TCompound [("a", TNum Int 1)]) []
      (Some {| result_name := Some "b"; result_type := "String"; result_value := "x" |})
    = (root', None) ∧
    resolve root' [] = Some (TCompound ([("a", TNum Int 1)] ++ [("b", TString "x")])).
Proof.
  split.
  - refine (proj1 (insert_into_compound (H := python_float)
                     (TCompound [("a", TNum Int 1)]) [] [("a", TNum Int 1)]
                     "a" "Int" "2" _) _); reflexivity.
  - refine (proj2 (proj2 (insert_into_compound (H := python_float)
                     (TCompound [("a", TNum Int 1)]) [] [("a", TNum Int 1)]
                     "b" "String" "x" _)) _ (TString "x") _); reflexivity.
Defined.

(** ** The inventory: sorting by slot *)

Lemma insert_by_key_perm k x l : insert_by_key k x l ≡ₚ (k, x) :: l.
Proof.
  induction l as [|[k' y] l IH]; simpl; [done|].
  destruct (k <=? k'); [done|].
  rewrite IH. apply perm_swap.
Qed.

Lemma sort_keyed_perm l : sort_keyed l ≡ₚ l.
Proof.
  induction l as [|[k x] l IH]; simpl; [done|].
  by rewrite insert_by_key_perm, IH.
Qed.

Lemma insert_by_key_sorted k x l :
  Sorted Z.le (map fst l) → Sorted Z.le (map fst (insert_by_key k x l)).
Proof.
  induction l as [|[k' y] l IH]; simpl; intros Hs.
  - repeat constructor.
  - destruct (k <=? k') eqn:E; simpl.
    + constructor; [done|]. constructor. lia.
    + inversion Hs as [|? ? Hs' Hhd]; subst.
      constructor; [by apply IH|].
      destruct l as [|[k'' z] l]; simpl.
      * constructor. lia.
      * destruct (k <=? k''); simpl; constructor; [lia|].
        by inversion Hhd.
Qed.

Lemma sort_keyed_sorted l : Sorted Z.le (map fst (sort_keyed l)).
Proof.
  induction l as [|[k x] l IH]; simpl; [constructor|].
  by apply insert_by_key_sorted.
Qed.

Lemma slot_keys_Forall2 inventory ks :
  slot_keys inventory = Ok ks ↔
  Forall2 (λ item k, slot_of item = Ok k) inventory ks.
Proof.
  revert ks. induction inventory as [|item rest IH]; intros ks; simpl.
  - split; [intros [= <-]; constructor | by inversion 1].
  - destruct (slot_of item) as [k|e] eqn:Ek; simpl.
    + destruct (slot_keys rest) as [ks'|e] eqn:Er; simpl.
      * split.
        -- intros [= <-]. constructor; [done|]. by apply IH.
        -- inversion 1 as [|? k0 ? ks0 Hk Hr]; subst.
           rewrite Ek in Hk. injection Hk as <-.
           apply IH in Hr. by injection Hr as <-.
      * split; [done|].
        inversion 1 as [|? k0 ? ks0 Hk Hr]; subst.
        apply IH in Hr. done.
    + split; [done|]. inversion 1; congruence.
Qed.

Lemma slot_keys_keyed (l : list (Z * compound)) :
  Forall keyed l → slot_keys (map snd l) = Ok (map fst l).
Proof.
  intros Hl. apply slot_keys_Forall2.
  induction Hl as [|[k x] l Hk _ IH]; simpl; constructor; done.
Qed.

Lemma zip_keyed inventory ks :
  slot_keys inventory = Ok ks →
  Forall keyed (zip ks inventory) ∧ map snd (zip ks inventory) = inventory.
Proof.
  rewrite slot_keys_Forall2.
  induction 1 as [|item k rest ks Hk _ [IH1 IH2]]; simpl; [done|].
  split; [by constructor | by rewrite IH2].
Qed.

Lemma slot_keys_total inventory :
  Forall readable inventory ↔ ∃ ks, slot_keys inventory = Ok ks.
Proof.
  split.
  - induction 1 as [|item rest [k Hk] _ [ks IH]]; simpl; [by eexists|].
    rewrite Hk, IH. simpl. by eexists.
  - intros [ks Hks]. apply slot_keys_Forall2 in Hks.
    induction Hks; constructor; [by eexists | done].
Qed.

Lemma sort_by_slot_ok inventory sorted :
  sort_by_slot inventory = Ok sorted →
  sorted ≡ₚ inventory ∧
  ∃ ks, slot_keys sorted = Ok ks ∧ Sorted Z.le ks.
Proof.
  unfold sort_by_slot.
  destruct (slot_keys inventory) as [ks|e] eqn:Eks; simpl; [|done].
  intros [= <-].
  destruct (zip_keyed _ _ Eks) as [Hkeyed Hsnd].
  split.
  - rewrite sort_keyed_perm. by rewrite Hsnd.
  - exists (map fst (sort_keyed (zip ks inventory))). split.
    + apply slot_keys_keyed.
      by rewrite (sort_keyed_perm (zip ks inventory)).
    + apply sort_keyed_sorted.
Qed.

Lemma sort_by_slot_total inventory ks :
  slot_keys inventory = Ok ks → ∃ sorted, sort_by_slot inventory = Ok sorted.
Proof. intros E. unfold sort_by_slot. rewrite E. simpl. eauto. Qed.

(** ** The inventory: [_find_inventory_item] *)

Lemma find_from_Some i items slot exclude n :
  find_from i items slot exclude = Ok (Some n) →
  ∃ j item, n = (i + j)%nat ∧ items !! j = Some item ∧
            slot_of item = Ok slot ∧ exclude ≠ Some n.
Proof.
  revert i. induction items as [|item rest IH]; intros i; simpl; [done|].
  destruct (decide (exclude = Some i)) as [Hex|Hex].
  - intros H. destruct (IH _ H) as (j & it & -> & Hj & Hs & Hne).
    exists (S j), it. split_and!; [lia|done|done|].
    intros Heq; apply Hne; rewrite Heq; f_equal; lia.
  - destruct (slot_of item) as [s|e] eqn:Es; simpl; [|done].
    destruct (s =? slot) eqn:E.
    + intros [= <-]. exists 0%nat, item. apply Z.eqb_eq in E. subst s.
      split_and!; [lia|done|done|done].
    + intros H. destruct (IH _ H) as (j & it & -> & Hj & Hs & Hne).
      exists (S j), it. split_and!; [lia|done|done|].
      intros Heq; apply Hne; rewrite Heq; f_equal; lia.
Qed.

Lemma find_from_None i items slot exclude :
  find_from i items slot exclude = Ok None ↔
  ∀ j item, items !! j = Some item → exclude ≠ Some (i + j)%nat →
            ∃ k, slot_of item = Ok k ∧ k ≠ slot.
Proof.
  revert i. induction items as [|item rest IH]; intros i; simpl.
  - split; [intros _ j item; by rewrite lookup_nil | done].
  - destruct (decide (exclude = Some i)) as [Hex|Hex].
    + rewrite IH. split.
      * intros H [|j] it Hj Hne; simpl in *.
        -- rewrite Nat.add_0_r in Hne. done.
        -- apply (H j it Hj). intros Heq; apply Hne; rewrite Heq; f_equal; lia.
      * intros H j it Hj Hne. apply (H (S j) it Hj).
        intros Heq; apply Hne; rewrite Heq; f_equal; lia.
    + destruct (slot_of item) as [s|e] eqn:Es; simpl.
      * destruct (s =? slot) eqn:E.
        -- split; [done|]. intros H.
           destruct (H 0%nat item eq_refl) as (k & Hk & Hne).
           { by rewrite Nat.add_0_r. }
           rewrite Es in Hk. injection Hk as <-. apply Z.eqb_eq in E. done.
        -- rewrite IH. apply Z.eqb_neq in E. split.
           ++ intros H [|j] it Hj Hne; simpl in *.
              ** injection Hj as <-. eauto.
              ** apply (H j it Hj).
                 intros Heq; apply Hne; rewrite Heq; f_equal; lia.
           ++ intros H j it Hj Hne. apply (H (S j) it Hj).
              intros Heq; apply Hne; rewrite Heq; f_equal; lia.
      * split; [done|]. intros H.
        destruct (H 0%nat item eq_refl) as (k & Hk & _).
        { by rewrite Nat.add_0_r. }
        congruence.
Qed.

Lemma find_from_readable i items slot exclude :
  Forall readable items → ∃ r, find_from i items slot exclude = Ok r.
Proof.
  intros H. revert i. induction H as [|item rest [k Hk] _ IH]; intros i; simpl.
  - by eexists.
  - destruct (decide (exclude = Some i)); [apply IH|].
    rewrite Hk. simpl. destruct (k =? slot); [by eexists | apply IH].
Qed.

(** An occupied slot is found, when every entry can be read. *)
Lemma find_occupied inventory slot exclude j other :
  Forall readable inventory →
  inventory !! j = Some other → slot_of other = Ok slot → exclude ≠ Some j →
  ∃ n, _find_inventory_item inventory slot exclude = Ok (Some n).
Proof.
  intros Hr Hj Hs Hne. unfold _find_inventory_item.
  destruct (find_from_readable 0 inventory slot exclude Hr) as [[n|] Hf].
  - eauto.
  - rewrite find_from_None in Hf.
    destruct (Hf j other Hj Hne) as (k & Hk & Hkne). congruence.
Qed.

Lemma find_Some_lookup inventory slot exclude n :
  _find_inventory_item inventory slot exclude = Ok (Some n) →
  ∃ item, inventory !! n = Some item ∧ slot_of item = Ok slot ∧ exclude ≠ Some n.
Proof.
  intros H. apply find_from_Some in H as (j & item & -> & Hj & Hs & Hne).
  eauto.
Qed.

Lemma find_None_free inventory slot exclude :
  _find_inventory_item inventory slot exclude = Ok None ↔
  ∀ j other, inventory !! j = Some other → exclude ≠ Some j →
             ∃ k, slot_of other = Ok k ∧ k ≠ slot.
Proof. unfold _find_inventory_item. by rewrite find_from_None. Qed.

(** ** The inventory: Save *)

Lemma saved_entry_fields s id c item :
  dict_get "Slot" (saved_entry s id c item) = Some (TNum Byte s) ∧
  dict_get "id" (saved_entry s id c item) = Some (TString id) ∧
  dict_get "Count" (saved_entry s id c item) = Some (TNum Byte c).
Proof.
  unfold saved_entry. split_and!.
  - rewrite dict_get_set_ne by done. rewrite dict_get_set_ne by done.
    apply dict_get_set_eq.
  - rewrite dict_get_set_ne by done. apply dict_get_set_eq.
  - apply dict_get_set_eq.
Qed.

Lemma saved_entry_readable s id c item : slot_of (saved_entry s id c item) = Ok s.
Proof. unfold slot_of. by destruct (saved_entry_fields s id c item) as (-> & _). Qed.

(** The existing-entry branch of a Save, once the destination is free and
    both Byte tags can be built. *)
Lemma list_alter_twice {A} (f g : A → A) (i : nat) (l : list A) x :
  l !! i = Some x → alter g i (alter f i l) = <[i := g (f x)]> l.
Proof.
  revert i. induction l as [|y l IH]; intros [|i]; simpl; try done.
  - by intros [= ->].
  - intros H. f_equal. by apply IH.
Qed.

Lemma alter_saved i (inventory : list compound) old s id c :
  inventory !! i = Some old →
  alter (dict_set "Count" (TNum Byte c)) i
    (alter (λ item, dict_set "id" (TString id)
                      (dict_set "Slot" (TNum Byte s) item)) i inventory)
  = <[i := saved_entry s id c old]> inventory.
Proof.
  intros Hi. by rewrite (list_alter_twice _ _ _ _ _ Hi).
Qed.

Lemma insert_readable i (inventory : list compound) item :
  Forall readable inventory → readable item →
  Forall readable (<[i := item]> inventory).
Proof. intros. by apply Forall_insert. Qed.

Lemma _on_save_accepts slot_var id_var count_var answer :
  _on_save slot_var id_var count_var = Ok answer →
  ∃ s id c, answer = ActionSave s id c ∧ int0 (strip slot_var) = Some s ∧
            id = strip id_var ∧ id ≠ "" ∧ 0 ≤ c ≤ 64.
Proof.
  unfold _on_save, _parse_int.
  destruct (int0 (strip slot_var)) as [s|]; simpl; [|done].
  destruct (strip id_var) as [|a id'] eqn:Eid; simpl; [done|].
  destruct (int0 (strip count_var)) as [c|]; simpl; [|done].
  destruct (c <? 0); [done|].
  destruct ((0 <=? c) && (c <=? 64)) eqn:E; [|done].
  intros [= <-]. apply andb_true_iff in E as [?%Z.leb_le ?%Z.leb_le].
  exists s, (String a id'), c. split_and!; done || lia.
Qed.

(** The dialog is made without an exception for an entry whose Count, when
    it has one, is an integer tag; and for a slot without an entry. *)
Lemma initial_count_integer (item : compound) :
  integer_count item → ∃ text, initial_count (Some item) = Ok text.
Proof.
  unfold integer_count, initial_count. destruct item as [|entry item]; [by eexists|].
  destruct (dict_get "Count" (entry :: item)) as [[]|]; try done; by eexists.
Qed.

Lemma stack_saved slot id count : stack slot id count = saved_entry slot id count [].
Proof. done. Qed.

(** Save, every entry's slot being readable and the dialog having been made
    for the entry of the slot.  When the destination slot is held by an
    entry other than the one being edited, Save fails with [SlotConflict]
    and the list is unchanged.  Otherwise, for an existing entry: when the
    new slot fits a Byte tag (-128..127) and the count is within 0..64, Save
    writes the entry's Slot, id and Count in place, so that the list after
    the sort is a permutation of the old list with that one entry updated,
    and no entry is added; and in every case the length of the list is
    unchanged. *)
Theorem save_conflict_or_in_place_update
  (subtype : option tag_class) (inventory : list compound)
  (slot new_slot new_count : Z) (new_id : string)
  (item : option nat) (text : string) :
  Forall readable inventory →
  _find_inventory_item inventory slot None = Ok item →
  initial_count (item ≫= λ i, inventory !! i) = Ok text →
  ((∃ j other, Some j ≠ item ∧ inventory !! j = Some other ∧
               slot_of other = Ok new_slot) →
   _edit_inventory_item subtype inventory slot
     (Some (ActionSave new_slot new_id new_count))
   = (inventory, Some SlotConflict))
  ∧
  (∀ i, item = Some i →
     length (_edit_inventory_item subtype inventory slot
               (Some (ActionSave new_slot new_id new_count))).1
     = length inventory
     ∧
     ((∀ j other, j ≠ i → inventory !! j = Some other →
                  slot_of other ≠ Ok new_slot) →
      fits 8 new_slot = true → 0 ≤ new_count ≤ 64 →
      ∃ old inventory',
        inventory !! i = Some old ∧
        _edit_inventory_item subtype inventory slot
          (Some (ActionSave new_slot new_id new_count))
        = (inventory', None) ∧
        inventory' ≡ₚ <[i := saved_entry new_slot new_id new_count old]> inventory)).
Proof.
  intros Hread Hfind Hopen. split.
  - intros (j & other & Hne & Hj & Hs).
    destruct (find_occupied inventory new_slot item j other Hread Hj Hs) as [n Hn].
    { congruence. }
    unfold _edit_inventory_item. by rewrite Hfind, Hopen, Hn.
  - intros i ->.
    destruct (find_Some_lookup _ _ _ _ Hfind) as (old & Hold & _ & _).
    split.
    + unfold _edit_inventory_item. rewrite Hfind, Hopen.
      destruct (_find_inventory_item inventory new_slot (Some i)) as [[n|]|e];
        simpl; try done.
      destruct (make_numeric Byte new_slot) as [slot_tag|e]; simpl; [|done].
      destruct (make_numeric Byte new_count) as [count_tag|e]; simpl.
      * destruct (sort_by_slot _) as [sorted|e] eqn:Es; simpl.
        -- apply sort_by_slot_ok in Es as [Hp _]. rewrite Hp.
           by rewrite !length_alter.
        -- by rewrite !length_alter.
      * by rewrite length_alter.
    + intros Hfree Hslot Hcount.
      assert (_find_inventory_item inventory new_slot (Some i) = Ok None) as Hnone.
      { apply find_None_free. intros j other Hj Hne.
        assert (readable other) as [k Hk].
        { eapply Forall_lookup_1; eauto. }
        exists k. split; [done|]. intros ->.
        apply (Hfree j other); [congruence|done|done]. }
      exists old.
      assert (Forall readable (<[i := saved_entry new_slot new_id new_count old]> inventory))
        as Hread'.
      { apply insert_readable; [done|]. eexists. apply saved_entry_readable. }
      apply slot_keys_total in Hread' as [ks Hks].
      destruct (sort_by_slot_total _ _ Hks) as [sorted Hsorted].
      exists sorted. split; [done|]. split.
      * unfold _edit_inventory_item. rewrite Hfind, Hopen, Hnone.
        unfold make_numeric. simpl numeric_bits.
        rewrite Hslot, (count_fits _ Hcount).
        rewrite (alter_saved _ _ _ _ _ _ Hold). by rewrite Hsorted.
      * by apply sort_by_slot_ok in Hsorted as [Hp _].
Qed.

(** With entries in slots 5 and 6, moving the second to slot 5 is a
    conflict; with one entry "a" in slot 5, [Save(slot=5, id="b", count=2)]
    on it updates it in place. *)
Lemma save_conflict_or_in_place_update_witness :
  _edit_inventory_item (Some Compound) [stack 5 "a" 1; stack 6 "x" 1] 6
    (Some (ActionSave 5 "c" 1))
  = ([stack 5 "a" 1; stack 6 "x" 1], Some SlotConflict)
  ∧
  ∃ old inventory',
    [stack 5 "a" 1] !! 0%nat = Some old ∧
    _edit_inventory_item (Some Compound) [stack 5 "a" 1] 5 (Some (ActionSave 5 "b" 2))
    = (inventory', None) ∧
    inventory' ≡ₚ <[0%nat := saved_entry 5 "b" 2 old]> [stack 5 "a" 1].
Proof.
  split.
  - apply (save_conflict_or_in_place_update (Some Compound)
             [stack 5 "a" 1; stack 6 "x" 1] 6 5 1 "c" (Some 1%nat) "1").
    + repeat constructor; by eexists.
    + reflexivity.
    + reflexivity.
    + exists 0%nat, (stack 5 "a" 1). split_and!; [done|reflexivity|reflexivity].
  - apply (save_conflict_or_in_place_update (Some Compound)
             [stack 5 "a" 1] 5 5 2 "b" (Some 0%nat) "1").
    + repeat constructor; by eexists.
    + reflexivity.
    + reflexivity.
    + reflexivity.
    + intros [|j] other Hj; [done|]. by rewrite lookup_cons, lookup_nil.
    + reflexivity.
    + lia.
Defined.

(** C3 (the failing input).  The list holds one entry, in slot 5; its
    button is clicked and the dialog is saved with the slot 150, the Offhand
    slot of [SPECIAL_PLAYER_SLOTS], which the dialog accepts and which no
    entry holds.  [Byte(150)] is refused: the call ends with [OutOfRange]
    and the entry is not updated. *)
Theorem save_out_of_byte_range_not_updated :
  _on_save "150" "b" "2" = Ok (ActionSave 150 "b" 2) ∧
  _find_inventory_item [stack 5 "a" 1] 5 None = Ok (Some 0%nat) ∧
  _find_inventory_item [stack 5 "a" 1] 150 (Some 0%nat) = Ok None ∧
  _edit_inventory_item (Some Compound) [stack 5 "a" 1] 5
    (Some (ActionSave 150 "b" 2))
  = ([stack 5 "a" 1], Some OutOfRange).
Proof. repeat split. Qed.

(** After every successful Save the backing list is sorted ascending by
    slot number: the slot numbers of its entries, read in list order, are
    sorted. *)
Theorem save_leaves_inventory_sorted
  (subtype : option tag_class) (inventory inventory' : list compound)
  (slot new_slot new_count : Z) (new_id : string) :
  _edit_inventory_item subtype inventory slot
    (Some (ActionSave new_slot new_id new_count)) = (inventory', None) →
  ∃ ks, slot_keys inventory' = Ok ks ∧ Sorted Z.le ks.
Proof.
  unfold _edit_inventory_item.
  destruct (_find_inventory_item inventory slot None) as [item|e]; [|done].
  destruct (initial_count _) as [text|e]; [|done].
  destruct (_find_inventory_item inventory new_slot item) as [[n|]|e]; try done.
  destruct item as [i|].
  - destruct (make_numeric Byte new_slot) as [slot_tag|e]; [|done].
    destruct (make_numeric Byte new_count) as [count_tag|e]; [|done].
    destruct (sort_by_slot _) as [sorted|e] eqn:Es; [|done].
    intros [= <-]. by apply sort_by_slot_ok in Es as [_ ?].
  - destruct (make_numeric Byte new_slot) as [slot_tag|e]; [|done].
    destruct (make_numeric Byte new_count) as [count_tag|e]; [|done].
    destruct (inventory_append _ _ _) as [appended|e]; [|done].
    destruct (sort_by_slot _) as [sorted|e] eqn:Es; [|done].
    intros [= <-]. by apply sort_by_slot_ok in Es as [_ ?].
Qed.

(** On an empty list of compounds, saving slot 3 and then slot 1 leaves the
    order [slot 1, slot 3]. *)
Lemma save_leaves_inventory_sorted_witness :
  (_edit_inventory_item (Some Compound) [] 3 (Some (ActionSave 3 "a" 1))).1
  = [stack 3 "a" 1] ∧
  _edit_inventory_item (Some Compound) [stack 3 "a" 1] 1 (Some (ActionSave 1 "b" 1))
  = ([stack 1 "b" 1; stack 3 "a" 1], None) ∧
  ∃ ks, slot_keys [stack 1 "b" 1; stack 3 "a" 1] = Ok ks ∧ Sorted Z.le ks.
Proof.
  split; [reflexivity|]. split; [reflexivity|].
  apply (save_leaves_inventory_sorted (Some Compound) [stack 3 "a" 1] _ 1 1 1 "b").
  reflexivity.
Defined.

(** Whatever the dialog accepts has a count within 0..64 and any integer as
    slot.  Every successful Save stores the slot and the count as Byte
    tags, [Byte(s)] and [Byte(c)], in an entry of the list, and then the
    slot fits a signed 8-bit integer; with a slot outside -128..127 nothing
    is stored: the call ends in an error and the list is as it was. *)
Theorem save_stores_byte_tags
  (subtype : option tag_class) (inventory : list compound) (slot : Z)
  (slot_var id_var count_var : string) (answer : dialog_result) :
  _on_save slot_var id_var count_var = Ok answer →
  ∃ s id c,
    answer = ActionSave s id c ∧ 0 ≤ c ≤ 64 ∧
    (∀ inventory',
       _edit_inventory_item subtype inventory slot (Some answer) = (inventory', None) →
       fits 8 s = true ∧
       ∃ entry, entry ∈ inventory' ∧
                dict_get "Slot" entry = Some (TNum Byte s) ∧
                dict_get "Count" entry = Some (TNum Byte c)) ∧
    (fits 8 s = false →
     ∃ e, _edit_inventory_item subtype inventory slot (Some answer)
          = (inventory, Some e)).
Proof.
  intros Hsave.
  destruct (_on_save_accepts _ _ _ _ Hsave) as (s & id & c & -> & _ & _ & _ & Hc).
  exists s, id, c. split; [done|]. split; [done|]. split.
  - intros inventory'. unfold _edit_inventory_item.
    destruct (_find_inventory_item inventory slot None) as [item|e] eqn:Hfind;
      [|done].
    destruct (initial_count _) as [text|e]; [|done].
    destruct (_find_inventory_item inventory s item) as [[n|]|e]; try done.
    destruct item as [i|].
    + destruct (make_numeric Byte s) as [slot_tag|e] eqn:Eslot; [|done].
      destruct (make_numeric Byte c) as [count_tag|e] eqn:Ecount; [|done].
      apply make_numeric_ok in Eslot as [Hfit ->].
      apply make_numeric_ok in Ecount as [_ ->].
      destruct (sort_by_slot _) as [sorted|e] eqn:Es; [|done].
      intros [= <-]. split; [done|].
      apply sort_by_slot_ok in Es as [Hp _].
      destruct (find_Some_lookup _ _ _ _ Hfind) as (old & Hold & _ & _).
      rewrite (alter_saved _ _ _ _ _ _ Hold) in Hp.
      exists (saved_entry s id c old). split.
      * rewrite Hp. apply list_elem_of_lookup. exists i.
        apply list_lookup_insert_eq. by eapply lookup_lt_Some.
      * by destruct (saved_entry_fields s id c old) as (? & _ & ?).
    + destruct (make_numeric Byte s) as [slot_tag|e] eqn:Eslot; [|done].
      destruct (make_numeric Byte c) as [count_tag|e] eqn:Ecount; [|done].
      apply make_numeric_ok in Eslot as [Hfit ->].
      apply make_numeric_ok in Ecount as [_ ->].
      destruct (inventory_append _ _ _) as [appended|e] eqn:Eapp; [|done].
      destruct (sort_by_slot _) as [sorted|e] eqn:Es; [|done].
      intros [= <-]. split; [done|].
      apply sort_by_slot_ok in Es as [Hp _].
      unfold inventory_append in Eapp.
      destruct subtype as [[| | | | |]|]; try done. injection Eapp as <-.
      exists (saved_entry s id c []). split.
      * rewrite Hp. apply elem_of_app. right. by apply list_elem_of_singleton.
      * by destruct (saved_entry_fields s id c []) as (? & _ & ?).
  - intros Hfit. unfold _edit_inventory_item.
    destruct (_find_inventory_item inventory slot None) as [item|e]; [|by eexists].
    destruct (initial_count _) as [text|e]; [|by eexists].
    destruct (_find_inventory_item inventory s item) as [[n|]|e]; try by eexists.
    unfold make_numeric. simpl numeric_bits. rewrite Hfit.
    destruct item; by eexists.
Qed.

(** The helmet slot 103 fits a Byte and is stored as such. *)
Lemma save_stores_byte_tags_witness :
  _edit_inventory_item (Some Compound) [stack 3 "a" 1] 103
    (Some (ActionSave 103 "minecraft:diamond_helmet" 1))
  = ([stack 3 "a" 1; stack 103 "minecraft:diamond_helmet" 1], None)
  ∧
  ∃ s id c,
    ActionSave 103 "minecraft:diamond_helmet" 1 = ActionSave s id c ∧ 0 ≤ c ≤ 64 ∧
    (∀ inventory',
       _edit_inventory_item (Some Compound) [stack 3 "a" 1] 103
         (Some (ActionSave 103 "minecraft:diamond_helmet" 1)) = (inventory', None) →
       fits 8 s = true ∧
       ∃ entry, entry ∈ inventory' ∧
                dict_get "Slot" entry = Some (TNum Byte s) ∧
                dict_get "Count" entry = Some (TNum Byte c)) ∧
    (fits 8 s = false →
     ∃ e, _edit_inventory_item (Some Compound) [stack 3 "a" 1] 103
            (Some (ActionSave 103 "minecraft:diamond_helmet" 1))
          = ([stack 3 "a" 1], Some e)).
Proof.
  split; [reflexivity|].
  apply (save_stores_byte_tags (Some Compound) [stack 3 "a" 1] 103
           "103" " minecraft:diamond_helmet" "1").
  reflexivity.
Defined.

(** ** The inventory: new entries, Delete and the dialog *)

(** Save on a slot that holds no entry, the destination being free and
    fitting a Byte.  On a list of compounds a new entry with the three
    fields is added, and the list is the old entries and the new one, sorted
    by slot.  On a list of any other subtype, such as the empty list without
    a type, the tag library refuses the new entry: the call ends with
    [TypeMismatch] and nothing is saved. *)
Theorem save_appends_new_entry
  (subtype : option tag_class) (inventory : list compound)
  (slot new_slot new_count : Z) (new_id : string) :
  Forall readable inventory →
  _find_inventory_item inventory slot None = Ok None →
  (∀ j other, inventory !! j = Some other → slot_of other ≠ Ok new_slot) →
  fits 8 new_slot = true → 0 ≤ new_count ≤ 64 →
  (subtype = Some Compound →
   ∃ inventory',
     _edit_inventory_item subtype inventory slot
       (Some (ActionSave new_slot new_id new_count)) = (inventory', None) ∧
     inventory' ≡ₚ inventory ++ [stack new_slot new_id new_count] ∧
     ∃ ks, slot_keys inventory' = Ok ks ∧ Sorted Z.le ks)
  ∧
  (subtype ≠ Some Compound →
   _edit_inventory_item subtype inventory slot
     (Some (ActionSave new_slot new_id new_count))
   = (inventory, Some TypeMismatch)).
Proof.
  intros Hread Hfind Hfree Hslot Hcount.
  assert (_find_inventory_item inventory new_slot None = Ok None) as Hnone.
  { apply find_None_free. intros j other Hj _.
    assert (readable other) as [k Hk] by (eapply Forall_lookup_1; eauto).
    exists k. split; [done|]. intros ->. by apply (Hfree j other). }
  split.
  - intros ->.
    assert (Forall readable (inventory ++ [stack new_slot new_id new_count])) as Hread'.
    { apply Forall_app. split; [done|]. constructor; [|done].
      exists new_slot. rewrite stack_saved. apply saved_entry_readable. }
    apply slot_keys_total in Hread' as [ks Hks].
    destruct (sort_by_slot_total _ _ Hks) as [sorted Hsorted].
    exists sorted. split.
    + unfold _edit_inventory_item. rewrite Hfind. cbn [mbind option_bind initial_count].
      rewrite Hnone.
      unfold make_numeric. simpl numeric_bits.
      rewrite Hslot, (count_fits _ Hcount). cbn [inventory_append].
      change (dict_set "Count" (TNum Byte new_count)
                (dict_set "id" (TString new_id)
                   (dict_set "Slot" (TNum Byte new_slot) [])))
        with (stack new_slot new_id new_count).
      by rewrite Hsorted.
    + by apply sort_by_slot_ok in Hsorted.
  - intros Hsubtype.
    unfold _edit_inventory_item. rewrite Hfind. cbn [mbind option_bind initial_count].
    rewrite Hnone.
    unfold make_numeric. simpl numeric_bits.
    rewrite Hslot, (count_fits _ Hcount).
    unfold inventory_append. by destruct subtype as [[| | | | |]|].
Qed.

(** A list of compounds with an entry in slot 3 takes a new entry in
    slot 1; the empty list without a type takes none. *)
Lemma save_appends_new_entry_witness :
  (∃ inventory',
     _edit_inventory_item (Some Compound) [stack 3 "a" 1] 1
       (Some (ActionSave 1 "b" 2)) = (inventory', None) ∧
     inventory' ≡ₚ [stack 3 "a" 1] ++ [stack 1 "b" 2] ∧
     ∃ ks, slot_keys inventory' = Ok ks ∧ Sorted Z.le ks)
  ∧
  _edit_inventory_item None [] 1 (Some (ActionSave 1 "b" 2))
  = ([], Some TypeMismatch).
Proof.
  split.
  - refine (proj1 (save_appends_new_entry (Some Compound) [stack 3 "a" 1] 1 1 2 "b"
                     _ _ _ _ _) _).
    + repeat constructor; by eexists.
    + reflexivity.
    + intros [|j] other Hj; [by injection Hj as <-|].
      by rewrite lookup_cons, lookup_nil in Hj.
    + reflexivity.
    + lia.
    + reflexivity.
  - refine (proj2 (save_appends_new_entry None [] 1 1 2 "b" _ _ _ _ _) _).
    + constructor.
    + reflexivity.
    + intros j other Hj. by rewrite lookup_nil in Hj.
    + reflexivity.
    + lia.
    + discriminate.
Defined.



(** Delete.  On a slot without an entry it fails with [NothingToDelete] and
    the list is unchanged.  On a slot with an entry the dialog is made for
    the entry found: when that succeeds (the Count of the entry can be read),
    the entry is removed and the other entries stay in their order; when it
    fails, the call ends with that error and the list is unchanged. *)
Theorem delete_removes_the_entry (subtype : option tag_class)
  (inventory : list compound) (slot : Z) :
  (_find_inventory_item inventory slot None = Ok None →
   _edit_inventory_item subtype inventory slot (Some ActionDelete)
   = (inventory, Some NothingToDelete))
  ∧
  (∀ i, _find_inventory_item inventory slot None = Ok (Some i) →
        ∃ item, inventory !! i = Some item ∧ slot_of item = Ok slot ∧
                (∀ text, initial_count (Some item) = Ok text →
                         _edit_inventory_item subtype inventory slot
                           (Some ActionDelete)
                         = (delete i inventory, None)) ∧
                (∀ e, initial_count (Some item) = Err e →
                      _edit_inventory_item subtype inventory slot
                        (Some ActionDelete)
                      = (inventory, Some e)) ∧
                S (length (delete i inventory)) = length inventory).
Proof.
  unfold _edit_inventory_item. split.
  - by intros ->.
  - intros i Hfind. rewrite Hfind.
    destruct (find_Some_lookup _ _ _ _ Hfind) as (item & Hi & Hs & _).
    cbn [mbind option_bind]. rewrite Hi.
    exists item. split_and!; try done.
    + by intros text ->.
    + by intros e ->.
    + rewrite length_delete by eauto.
      apply lookup_lt_Some in Hi. lia.
Qed.

(** What the item dialog refuses: a slot that is no integer, a blank id, a
    count that is no integer, negative or above 64. *)
Theorem on_save_validation (slot_var id_var count_var : string) :
  (int0 (strip slot_var) = None →
   _on_save slot_var id_var count_var = Err InvalidSlot)
  ∧
  (∀ s, int0 (strip slot_var) = Some s →
     (strip id_var = "" → _on_save slot_var id_var count_var = Err InvalidId)
     ∧
     (strip id_var ≠ "" →
        (int0 (strip count_var) = None →
         _on_save slot_var id_var count_var = Err InvalidCount)
        ∧
        (∀ c, int0 (strip count_var) = Some c →
              _on_save slot_var id_var count_var
              = if (0 <=? c) && (c <=? 64)
                then Ok (ActionSave s (strip id_var) c)
                else Err InvalidCount))).
Proof.
  unfold _on_save, _parse_int. split.
  - by intros ->.
  - intros s ->. simpl. split.
    + by intros ->.
    + intros Hid. rewrite (is_empty_false _ Hid). split.
      * by intros ->.
      * intros c ->. simpl.
        destruct (c <? 0) eqn:Hneg; [|done].
        apply Z.ltb_lt in Hneg.
        assert ((0 <=? c) = false) as -> by (apply Z.leb_gt; lia). done.
Qed.

(** ** The inventory: the slot projection *)

Lemma integer_slot_read item : integer_slot item → slot_of item = Ok (slot_number item).
Proof.
  unfold integer_slot, slot_of, slot_number.
  destruct (dict_get "Slot" item) as [[]|]; simpl; done.
Qed.

Lemma missing_slot_is_zero item : dict_get "Slot" item = None → slot_of item = Ok 0.
Proof. unfold slot_of. by intros ->. Qed.

Lemma items_by_slot_loop_spec inventory (m0 : gmap Z compound) :
  Forall integer_slot inventory →
  ∃ m, items_by_slot_loop inventory m0 = Ok m ∧
       ∀ s, m !! s =
            match last (filter (λ item, slot_number item = s) inventory) with
            | Some item => Some item
            | None => m0 !! s
            end.
Proof.
  intros H. revert m0.
  induction H as [|item rest Hitem _ IH]; intros m0; simpl.
  - by exists m0.
  - rewrite (integer_slot_read _ Hitem). simpl.
    destruct (IH (<[slot_number item := item]> m0)) as (m & -> & Hm).
    exists m. split; [done|]. intros s. rewrite Hm.
    rewrite filter_cons. case_decide as Hs.
    + rewrite last_cons. subst s. rewrite lookup_insert_eq.
      by destruct (last _).
    + rewrite lookup_insert_ne by done. done.
Qed.

(** C6.  For every list of inventory entries (the Slot tag of an entry,
    when it has one, being an integer tag) the projection succeeds, and it
    maps a slot to the last entry of the list whose slot number is that
    slot, where the slot number is the value of the Slot tag and 0 when
    the tag is missing: a later entry of the same slot wins, and no error
    is raised. *)
Theorem projection_last_write_wins (inventory : list compound) :
  Forall integer_slot inventory →
  ∃ m, items_by_slot inventory = Ok m ∧
       ∀ s, m !! s = last (filter (λ item, slot_number item = s) inventory).
Proof.
  intros H. destruct (items_by_slot_loop_spec inventory ∅ H) as (m & Hm & Hs).
  exists m. split; [done|]. intros s. rewrite Hs.
  rewrite lookup_empty. by destruct (last _).
Qed.

(** Two entries in slot 5 and one without a Slot tag: slot 5 shows the
    later entry, slot 0 the entry without the tag. *)
Lemma projection_last_write_wins_witness :
  ∃ m, items_by_slot [stack 5 "a" 1; [("id", TString "c")]; stack 5 "b" 2] = Ok m ∧
       m !! 5 = Some (stack 5 "b" 2) ∧ m !! 0 = Some [("id", TString "c")] ∧
       m !! 1 = None.
Proof.
  destruct (projection_last_write_wins
              [stack 5 "a" 1; [("id", TString "c")]; stack 5 "b" 2])
    as (m & Hm & Hs).
  - repeat constructor.
  - exists m. split; [exact Hm|]. rewrite !Hs. repeat split.
Defined.

(** ** The path label: [_path_to_string] *)

Lemma join_empty_snoc (parts : list string) (x : string) :
  join "" (parts ++ [x]) = (join "" parts ++ x)%string.
Proof.
  induction parts as [|a parts IH]; [done|].
  destruct parts as [|b parts].
  - simpl. done.
  - change (join "" ((a :: b :: parts) ++ [x]))
      with (a ++ "" ++ join "" ((b :: parts) ++ [x]))%string.
    rewrite IH.
    change (join "" (a :: b :: parts)) with (a ++ "" ++ join "" (b :: parts))%string.
    simpl. by rewrite append_assoc.
Qed.

Lemma removelast_snoc_last {A} (l : list A) (d : A) :
  l ≠ [] → removelast l ++ [default d (last l)] = l.
Proof.
  intros Hne. destruct (decide (l = [])) as [->|_]; [done|].
  induction l as [|a l IH]; [done|].
  destruct l as [|b l]; [done|].
  change (a :: (removelast (b :: l) ++ [default d (last (b :: l))]) = a :: b :: l).
  f_equal. by apply IH.
Qed.

Lemma join_empty_extend (parts : list string) (text : string) :
  parts ≠ [] →
  join "" (removelast parts ++ [(default "" (last parts) ++ text)%string])
  = (join "" parts ++ text)%string.
Proof.
  intros Hne. rewrite join_empty_snoc.
  rewrite <- (removelast_snoc_last parts "" Hne) at 3.
  by rewrite join_empty_snoc, append_assoc.
Qed.

Lemma path_parts_app (p q : path) parts :
  path_parts (p ++ q) parts = path_parts q (path_parts p parts).
Proof.
  revert parts. induction p as [|[s|i] p IH]; intros parts; simpl; [done|..];
    by rewrite IH.
Qed.

Lemma path_parts_nil (p : path) parts :
  path_parts p parts = [] ↔ p = [] ∧ parts = [].
Proof.
  revert parts. induction p as [|[s|i] p IH]; intros parts; simpl.
  - split; [by intros ->|by intros [_ ->]].
  - rewrite IH. split; [|by intros [? _]]. intros [_ Habs].
    by destruct parts.
  - rewrite IH. split; [|by intros [? _]]. intros [_ Habs].
    destruct parts as [|a parts]; [done|].
    by destruct (removelast (a :: parts)).
Qed.

Lemma path_string_name (p : path) (s : string) :
  _path_to_string (p ++ [Name s])
  = (_path_to_string p ++ match p with [] => s | _ => "." ++ s end)%string.
Proof.
  unfold _path_to_string. rewrite path_parts_app. simpl.
  rewrite join_empty_snoc. f_equal.
  destruct p as [|k p]; [done|].
  destruct (path_parts (k :: p) []) eqn:E; [|done].
  by apply path_parts_nil in E as [? _].
Qed.

Lemma path_string_index (p : path) (i : nat) :
  _path_to_string (p ++ [Index i])
  = (_path_to_string p ++ "[" ++ str_int (Z.of_nat i) ++ "]")%string.
Proof.
  unfold _path_to_string. rewrite path_parts_app. simpl.
  destruct (path_parts p []) as [|a parts] eqn:E.
  - done.
  - by rewrite join_empty_extend.
Qed.

(** The label of a child's path is the label of its parent's path with the
    child's component at the end: the name of an entry, after a dot unless
    the parent is the root, or the index of an element in brackets.  The
    label of the root's path is empty. *)
Theorem path_label_extends_parent (p : path) (k : key) :
  _path_to_string [] = "" ∧
  _path_to_string (p ++ [k])
  = (_path_to_string p ++
     match k with
     | Name s => match p with [] => s | _ => "." ++ s end
     | Index i => "[" ++ str_int (Z.of_nat i) ++ "]"
     end)%string.
Proof.
  split; [done|]. destruct k; [apply path_string_name|apply path_string_index].
Qed.

(** Two texts that agree after the last [c] agree before it. *)
Lemma split_at_last c (a1 b1 a2 b2 : string) :
  all_chars (λ x, negb (Ascii.eqb x c)) b1 = true →
  all_chars (λ x, negb (Ascii.eqb x c)) b2 = true →
  (a1 ++ String c b1)%string = (a2 ++ String c b2)%string →
  a1 = a2 ∧ b1 = b2.
Proof.
  intros H1 H2. revert a2. induction a1 as [|x a1 IH]; intros [|y a2] Heq;
    simpl in Heq.
  - by injection Heq as ->.
  - injection Heq as <- ->. rewrite all_chars_app in H1. simpl in H1.
    rewrite Ascii.eqb_refl in H1. simpl in H1.
    by rewrite andb_false_r in H1.
  - injection Heq as -> <-. rewrite all_chars_app in H2. simpl in H2.
    rewrite Ascii.eqb_refl in H2. simpl in H2.
    by rewrite andb_false_r in H2.
  - injection Heq as -> Heq. destruct (IH _ Heq) as [-> ->]. done.
Qed.

Lemma append_eq_nil (a b : string) : (a ++ b)%string = "" → a = "" ∧ b = "".
Proof. destruct a; simpl; [done|discriminate]. Qed.

(** A text that ends in a character other than [c] does not end in [c]. *)
Lemma last_char_differs c (a s b : string) :
  s ≠ "" → all_chars (λ x, negb (Ascii.eqb x c)) s = true →
  (a ++ s)%string ≠ (b ++ String c "")%string.
Proof.
  intros Hne Hs. revert b. induction a as [|x a IH]; intros b Heq; simpl in Heq.
  - subst s. rewrite all_chars_app in Hs. simpl in Hs.
    rewrite Ascii.eqb_refl in Hs. simpl in Hs. by rewrite andb_false_r in Hs.
  - destruct b as [|y b]; simpl in Heq.
    + injection Heq as _ Heq. by apply append_eq_nil in Heq as [_ ?].
    + injection Heq as _ Heq. by apply (IH b).
Qed.

Lemma plain_name_facts (s : string) :
  plain_name s = true →
  s ≠ "" ∧ all_chars (λ x, negb (Ascii.eqb x ".")) s = true
  ∧ all_chars (λ x, negb (Ascii.eqb x "]")) s = true.
Proof.
  unfold plain_name. intros [Hne Hall]%andb_true_iff.
  split; [by destruct s|].
  split; (eapply all_chars_impl; [|exact Hall]); intros c Hc;
    destruct c as [[] [] [] [] [] [] [] []]; vm_compute in Hc |- *; congruence.
Qed.

Lemma index_text_facts (i : nat) :
  all_chars (λ x, negb (Ascii.eqb x "[")) (str_int (Z.of_nat i) ++ "]")%string = true
  ∧ all_chars (λ x, negb (Ascii.eqb x ".")) (str_int (Z.of_nat i) ++ "]")%string = true.
Proof.
  destruct (str_int_chars (Z.of_nat i)) as [_ Hall].
  split; rewrite all_chars_app; apply andb_true_iff; (split; [|done]);
    apply (int_chars_no (λ x, Ascii.eqb x _)); try done;
    intros c Hc; destruct c as [[] [] [] [] [] [] [] []];
    vm_compute in Hc |- *; congruence.
Qed.

Lemma str_int_inj (a b : Z) : str_int a = str_int b → a = b.
Proof.
  intros Heq. pose proof (int0_str_int a) as Ha.
  rewrite Heq, int0_str_int in Ha. by injection Ha.
Qed.

Lemma length_append (a b : string) :
  String.length (a ++ b)%string = (String.length a + String.length b)%nat.
Proof. induction a as [|x a IH]; simpl; [done|]. by rewrite IH. Qed.

Lemma append_inj_r (a b c : string) : (a ++ c)%string = (b ++ c)%string → a = b.
Proof.
  revert b. induction a as [|x a IH]; intros [|y b] Heq; simpl in Heq.
  - done.
  - exfalso. assert (String.length c = String.length (String y (b ++ c))) as Hl
      by by rewrite <- Heq.
    simpl in Hl. rewrite length_append in Hl. lia.
  - exfalso. assert (String.length (String x (a ++ c)) = String.length c) as Hl
      by by rewrite Heq.
    simpl in Hl. rewrite length_append in Hl. lia.
  - injection Heq as -> Heq. by rewrite (IH _ Heq).
Qed.

Lemma path_string_nonempty (p : path) (k : key) :
  plain_key k = true → _path_to_string (p ++ [k]) ≠ "".
Proof.
  intros Hk Heq. destruct k as [s|i].
  - rewrite path_string_name in Heq. apply append_eq_nil in Heq as [_ Heq].
    apply plain_name_facts in Hk as (Hne & _). by destruct p.
  - rewrite path_string_index in Heq. by apply append_eq_nil in Heq as [_ Heq].
Qed.

(** When the names on two paths are plain (not empty, no dot, no bracket),
    the paths that have the same label are the same path. *)
Theorem path_label_identifies_path (p q : path) :
  forallb plain_key p = true → forallb plain_key q = true →
  _path_to_string p = _path_to_string q → p = q.
Proof.
  revert q. induction p as [|k p IH] using rev_ind; intros q Hp Hq Heq.
  - destruct q as [|k q _] using rev_ind; [done|].
    rewrite forallb_app in Hq. apply andb_true_iff in Hq as [_ Hk].
    simpl in Hk. rewrite andb_true_r in Hk.
    symmetry in Heq. by apply path_string_nonempty in Heq.
  - rewrite forallb_app in Hp. apply andb_true_iff in Hp as [Hp Hk].
    simpl in Hk. rewrite andb_true_r in Hk.
    destruct q as [|k' q _] using rev_ind.
    { by apply path_string_nonempty in Heq. }
    rewrite forallb_app in Hq. apply andb_true_iff in Hq as [Hq Hk'].
    simpl in Hk'. rewrite andb_true_r in Hk'.
    destruct k as [s|i], k' as [s'|i'].
    + rewrite !path_string_name in Heq.
      apply plain_name_facts in Hk as (Hne & Hdot & _).
      apply plain_name_facts in Hk' as (Hne' & Hdot' & _).
      destruct p as [|k0 p], q as [|k0' q].
      * simpl in Heq. by subst.
      * exfalso. simpl "++"%string in Heq at 1. subst s.
        rewrite all_chars_app in Hdot. simpl in Hdot.
        by rewrite andb_false_r in Hdot.
      * exfalso. simpl "++"%string in Heq at 3. subst s'.
        rewrite all_chars_app in Hdot'. simpl in Hdot'.
        by rewrite andb_false_r in Hdot'.
      * apply split_at_last in Heq as [Heq ->]; [|done..].
        by rewrite (IH _ Hp Hq Heq).
    + exfalso. rewrite path_string_name, path_string_index in Heq.
      apply plain_name_facts in Hk as (Hne & _ & Hbr).
      set (b := (_path_to_string q ++ "[" ++ str_int (Z.of_nat i'))%string).
      assert ((_path_to_string q ++ "[" ++ str_int (Z.of_nat i') ++ "]")%string
              = (b ++ "]")%string) as Hb.
      { unfold b. by rewrite !append_assoc. }
      rewrite Hb in Heq.
      destruct p as [|k0 p].
      * by apply (last_char_differs "]" "" s b).
      * rewrite <- append_assoc in Heq.
        by apply (last_char_differs "]" _ s b) in Heq.
    + exfalso. rewrite path_string_name, path_string_index in Heq.
      apply plain_name_facts in Hk' as (Hne & _ & Hbr).
      set (b := (_path_to_string p ++ "[" ++ str_int (Z.of_nat i))%string).
      assert ((_path_to_string p ++ "[" ++ str_int (Z.of_nat i) ++ "]")%string
              = (b ++ "]")%string) as Hb.
      { unfold b. by rewrite !append_assoc. }
      rewrite Hb in Heq. symmetry in Heq.
      destruct q as [|k0 q].
      * by apply (last_char_differs "]" "" s' b).
      * rewrite <- append_assoc in Heq.
        by apply (last_char_differs "]" _ s' b) in Heq.
    + rewrite !path_string_index in Heq.
      destruct (index_text_facts i) as [Hi _].
      destruct (index_text_facts i') as [Hi' _].
      apply split_at_last in Heq as [Heq Hd]; [|done..].
      apply append_inj_r, str_int_inj, Nat2Z.inj in Hd as ->.
      by rewrite (IH _ Hp Hq Heq).
Qed.

(** The paths [("a", 0, "b")] and [("a", 1, "b")] have the labels "a[0].b"
    and "a[1].b".  Without the condition on the names the label does not
    tell paths apart: the entry "a.b" of the root and the entry "b" of the
    root's compound "a" are both shown as "a.b". *)
Lemma path_label_identifies_path_witness :
  [Name "a"; Index 0; Name "b"] = [Name "a"; Index 0; Name "b"] ∧
  _path_to_string [Name "a"; Index 0; Name "b"] = "a[0].b" ∧
  _path_to_string [Name "a"; Index 1; Name "b"] = "a[1].b" ∧
  _path_to_string [Name "a.b"] = _path_to_string [Name "a"; Name "b"].
Proof.
  split; [|by repeat split].
  apply (path_label_identifies_path [Name "a"; Index 0; Name "b"]
           [Name "a"; Index 0; Name "b"]); reflexivity.
Defined.

(** ** The tree items: [build_tree] and [_populate_tree] *)

(** Induction on a tag, with the property at hand for the values of a
    compound and for the elements of a list. *)
Lemma tag_induction (P : tag → Prop) :
  (∀ c n, P (TNum c n)) → (∀ c x, P (TFloat c x)) → (∀ s, P (TString s)) →
  (∀ c values, P (TArray c values)) →
  (∀ entries, Forall (λ entry, P entry.2) entries → P (TCompound entries)) →
  (∀ subtype elements, Forall P elements → P (TList subtype elements)) →
  ∀ t, P t.
Proof.
  intros Hnum Hfloat Hstring Harray Hcompound Hlist.
  fix IH 1. intros [c n|c x|s|c values|entries|subtype elements].
  - apply Hnum.
  - apply Hfloat.
  - apply Hstring.
  - apply Harray.
  - apply Hcompound. induction entries as [|[key value] entries IHentries].
    + constructor.
    + constructor; [apply IH|apply IHentries].
  - apply Hlist. induction elements as [|value elements IHelements].
    + constructor.
    + constructor; [apply IH|apply IHelements].
Qed.

Lemma populate_compound entries p :
  _populate_tree (TCompound entries) p
  = flat_map (λ entry,
                child_info (TCompound entries) p (Name entry.1) entry.2
                :: _populate_tree entry.2 (p ++ [Name entry.1])) entries.
Proof.
  cbn [_populate_tree].
  generalize (TCompound entries) as parent. intros parent.
  induction entries as [|[key value] entries IH]; [done|].
  cbn [flat_map fst snd]. rewrite <- IH. done.
Qed.

Lemma populate_list subtype elements p :
  _populate_tree (TList subtype elements) p
  = mjoin (imap (λ i value,
                    child_info (TList subtype elements) p (Index i) value
                    :: _populate_tree value (p ++ [Index i])) elements).
Proof.
  cbn [_populate_tree].
  generalize (TList subtype elements) as parent. intros parent.
  change (λ i value, child_info parent p (Index i) value
                     :: _populate_tree value (p ++ [Index i]))
    with (λ i value, child_info parent p (Index (0 + i)) value
                     :: _populate_tree value (p ++ [Index (0 + i)])).
  generalize 0%nat as start.
  induction elements as [|value elements IH]; intros start; [done|].
  cbn [imap mjoin list_join]. rewrite Nat.add_0_r.
  rewrite (IH (S start)), <- app_comm_cons.
  f_equal. f_equal. f_equal.
  apply imap_ext. intros i x _. simpl. by rewrite Nat.add_succ_r.
Qed.

Lemma unique_keys_compound entries :
  unique_keys (TCompound entries) = true ↔
  NoDup (map fst entries) ∧ Forall (λ entry, unique_keys entry.2 = true) entries.
Proof.
  cbn [unique_keys]. rewrite andb_true_iff, bool_decide_eq_true.
  apply and_iff_compat_l.
  induction entries as [|[key value] entries IH]; [by split; [constructor|]|].
  rewrite andb_true_iff, Forall_cons, IH. done.
Qed.

Lemma unique_keys_list subtype elements :
  unique_keys (TList subtype elements) = true ↔
  Forall (λ value, unique_keys value = true) elements.
Proof.
  cbn [unique_keys].
  induction elements as [|value elements IH]; [by split; [constructor|]|].
  rewrite andb_true_iff, Forall_cons, IH. done.
Qed.

Lemma dict_get_elem_of {V} key (v : V) d :
  dict_get key d = Some v → (key, v) ∈ d.
Proof.
  induction d as [|[k w] d IH]; [done|]. simpl.
  destruct (String.eqb k key) eqn:E.
  - apply String.eqb_eq in E as ->. intros [= ->]. by left.
  - intros Hget. right. by apply IH.
Qed.

Lemma dict_get_unique {V} key (v : V) d :
  NoDup (map fst d) → (key, v) ∈ d → dict_get key d = Some v.
Proof.
  induction d as [|[k w] d IH]; [by intros _ ?%elem_of_nil|].
  intros [Hk Hd]%NoDup_cons [Heq|Hin]%elem_of_cons; simpl.
  - injection Heq as <- <-. by rewrite String.eqb_refl.
  - destruct (String.eqb k key) eqn:E; [|by apply IH].
    apply String.eqb_eq in E as ->. exfalso. apply Hk.
    apply list_elem_of_fmap. by exists (key, v).
Qed.

(** Every child of a node that can be reached from [t] has an item. *)
Lemma populate_has_item t :
  ∀ p q k parent value,
    resolve t q = Some parent → child parent k = Some value →
    child_info parent (p ++ q) k value ∈ _populate_tree t p.
Proof.
  induction t as [| | | |entries IH|subtype elements IH] using tag_induction;
    intros p q k parent value Hq Hk.
  1-4: destruct q as [|[] q]; simpl in Hq;
       [injection Hq as <-; by destruct k|done..].
  - rewrite populate_compound, list_elem_of_In, in_flat_map.
    destruct q as [|k0 q].
    + injection Hq as <-. rewrite app_nil_r.
      destruct k as [key|i]; [|done]. simpl in Hk.
      apply dict_get_elem_of in Hk.
      exists (key, value). split; [by apply list_elem_of_In|].
      apply list_elem_of_In. by left.
    + simpl in Hq. destruct k0 as [key|i]; [|done]. simpl in Hq.
      destruct (dict_get key entries) as [c|] eqn:Hget; [|done].
      apply dict_get_elem_of in Hget.
      exists (key, c). split; [by apply list_elem_of_In|].
      apply list_elem_of_In. right.
      rewrite Forall_forall in IH.
      replace (p ++ Name key :: q) with ((p ++ [Name key]) ++ q)
        by by rewrite <- app_assoc.
      by apply (IH _ Hget).
  - rewrite populate_list, list_elem_of_join.
    destruct q as [|k0 q].
    + injection Hq as <-. rewrite app_nil_r.
      destruct k as [key|i]; [done|]. simpl in Hk.
      eexists. split; [|apply elem_of_lookup_imap; by exists i, value].
      by left.
    + simpl in Hq. destruct k0 as [key|i]; [done|]. simpl in Hq.
      destruct (elements !! i) as [c|] eqn:Hget; [|done].
      eexists. split; [|apply elem_of_lookup_imap; by exists i, c].
      right. rewrite Forall_lookup in IH.
      replace (p ++ Index i :: q) with ((p ++ [Index i]) ++ q)
        by by rewrite <- app_assoc.
      by apply (IH _ _ Hget).
Qed.

(** The items below the node [t] of path [p]: one for each child of each
    node that can be reached from [t]. *)
Lemma populate_items t :
  unique_keys t = true →
  ∀ p info,
    info ∈ _populate_tree t p ↔
    ∃ q k parent value,
      resolve t q = Some parent ∧ child parent k = Some value ∧
      info = child_info parent (p ++ q) k value.
Proof.
  intros Hunique p info. split.
  2: { intros (q & k & parent & value & Hq & Hk & ->). by apply populate_has_item. }
  revert Hunique p info.
  induction t as [| | | |entries IH|subtype elements IH] using tag_induction;
    intros Hunique p info; try by intros ?%elem_of_nil.
  - apply unique_keys_compound in Hunique as [Hnodup Hsub].
    rewrite populate_compound, list_elem_of_In, in_flat_map.
    intros ([key value] & Hin%list_elem_of_In & Hinfo%list_elem_of_In).
    cbn [fst snd] in Hinfo.
    assert (dict_get key entries = Some value) as Hget by by apply dict_get_unique.
    apply elem_of_cons in Hinfo as [->|Hinfo].
    + exists [], (Name key), (TCompound entries), value.
      by rewrite app_nil_r.
    + rewrite Forall_forall in IH, Hsub.
      apply (IH _ Hin (Hsub _ Hin)) in Hinfo
        as (q & k & parent & x & Hq & Hk & ->).
      exists (Name key :: q), k, parent, x. simpl. rewrite Hget.
      by rewrite <- app_assoc.
  - apply unique_keys_list in Hunique.
    rewrite populate_list, list_elem_of_join.
    intros (block & Hinfo & Hblock).
    apply elem_of_lookup_imap in Hblock as (i & value & -> & Hi).
    apply elem_of_cons in Hinfo as [->|Hinfo].
    + exists [], (Index i), (TList subtype elements), value.
      by rewrite app_nil_r.
    + rewrite Forall_lookup in IH, Hunique.
      apply (IH _ _ Hi (Hunique _ _ Hi)) in Hinfo
        as (q & k & parent & x & Hq & Hk & ->).
      exists (Index i :: q), k, parent, x. simpl. rewrite Hi.
      by rewrite <- app_assoc.
Qed.

Lemma node_info_last root (p : path) k :
  node_info root (p ++ [k]) =
  parent ← resolve root p;
  value ← child parent k;
  Some (child_info parent p k value).
Proof.
  unfold node_info. rewrite last_snoc, List.removelast_last.
  destruct (resolve root p) as [parent|]; [|done]. simpl.
  by destruct (child parent k).
Qed.

Lemma node_info_path root (p : path) info :
  node_info root p = Some info → node_path info = p.
Proof.
  destruct p as [|k q _] using rev_ind.
  - rewrite node_info_root. by intros [= <-].
  - rewrite node_info_last.
    destruct (resolve root q) as [parent|]; [|done]. simpl.
    destruct (child parent k); [|done]. by intros [= <-].
Qed.

(** The items of the tree below the root are the nodes that [node_info]
    finds. *)
Lemma populate_node_info root info :
  unique_keys root = true →
  info ∈ _populate_tree root [] ↔
  node_path info ≠ [] ∧ node_info root (node_path info) = Some info.
Proof.
  intros Hunique. rewrite (populate_items root Hunique). split.
  - intros (q & k & parent & value & Hq & Hk & ->). simpl.
    split; [by destruct q|].
    rewrite node_info_last, Hq. simpl. by rewrite Hk.
  - intros [Hne Hinfo].
    destruct (node_path info) as [|k q _] eqn:Hpath using rev_ind; [done|].
    rewrite node_info_last in Hinfo.
    destruct (resolve root q) as [parent|] eqn:Hq; [|done]. simpl in Hinfo.
    destruct (child parent k) as [value|] eqn:Hk; [|done].
    injection Hinfo as <-. by exists q, k, parent, value.
Qed.

Lemma populate_paths_below t p info :
  info ∈ _populate_tree t p → ∃ k q, node_path info = p ++ k :: q.
Proof.
  revert p info.
  induction t as [| | | |entries IH|subtype elements IH] using tag_induction;
    intros p info; try by intros ?%elem_of_nil.
  - rewrite populate_compound, list_elem_of_In, in_flat_map.
    intros ([key value] & Hin%list_elem_of_In & Hinfo%list_elem_of_In).
    cbn [fst snd] in Hinfo.
    apply elem_of_cons in Hinfo as [->|Hinfo]; [by exists (Name key), []|].
    rewrite Forall_forall in IH.
    apply (IH _ Hin) in Hinfo as (k & q & ->).
    exists (Name key), (k :: q). by rewrite <- app_assoc.
  - rewrite populate_list, list_elem_of_join.
    intros (block & Hinfo & Hblock).
    apply elem_of_lookup_imap in Hblock as (i & value & -> & Hi).
    apply elem_of_cons in Hinfo as [->|Hinfo]; [by exists (Index i), []|].
    rewrite Forall_lookup in IH.
    apply (IH _ _ Hi) in Hinfo as (k & q & ->).
    exists (Index i), (k :: q). by rewrite <- app_assoc.
Qed.

Lemma populate_block_paths t p k path :
  path ∈ (p ++ [k]) :: map node_path (_populate_tree t (p ++ [k])) →
  ∃ q, path = p ++ k :: q.
Proof.
  intros [->|Hin]%elem_of_cons; [by exists []|].
  apply list_elem_of_fmap in Hin as (info & -> & Hin).
  apply populate_paths_below in Hin as (k' & q & ->).
  exists (k' :: q). by rewrite <- app_assoc.
Qed.

Lemma populate_block_nodup t p k :
  NoDup (map node_path (_populate_tree t (p ++ [k]))) →
  NoDup ((p ++ [k]) :: map node_path (_populate_tree t (p ++ [k]))).
Proof.
  intros Hnodup. constructor; [|done].
  intros Hin. apply list_elem_of_fmap in Hin as (info & Heq & Hin).
  apply populate_paths_below in Hin as (k' & q & Hpath).
  rewrite Hpath in Heq. apply (f_equal length) in Heq.
  rewrite !length_app in Heq. simpl in Heq. lia.
Qed.

(** No two items of the tree have the same path. *)
Lemma populate_paths_nodup t :
  unique_keys t = true → ∀ p, NoDup (map node_path (_populate_tree t p)).
Proof.
  induction t as [| | | |entries IH|subtype elements IH] using tag_induction;
    intros Hunique p; try by constructor.
  - apply unique_keys_compound in Hunique as [Hnodup Hsub].
    rewrite populate_compound.
    generalize (TCompound entries) as parent. intros parent.
    induction entries as [|[key value] entries IHentries]; [constructor|].
    apply NoDup_cons in Hnodup as [Hkey Hnodup].
    apply Forall_cons in IH as [IHvalue IH].
    apply Forall_cons in Hsub as [Hvalue Hsub].
    cbn [flat_map fst snd]. rewrite map_app.
    change (map node_path
              (child_info parent p (Name key) value
               :: _populate_tree value (p ++ [Name key])))
      with ((p ++ [Name key])
            :: map node_path (_populate_tree value (p ++ [Name key]))).
    apply NoDup_app. split_and!.
    + apply populate_block_nodup, IHvalue, Hvalue.
    + intros path Hpath%populate_block_paths Hrest.
      destruct Hpath as (q & ->).
      apply list_elem_of_fmap in Hrest as (info & Heq & Hin).
      apply list_elem_of_In, in_flat_map in Hin
        as ([key' value'] & Hin%list_elem_of_In & Hinfo%list_elem_of_In).
      cbn [fst snd] in Hinfo.
      assert (node_path info ∈ (p ++ [Name key'])
                :: map node_path (_populate_tree value' (p ++ [Name key'])))
        as (q' & Hpath)%populate_block_paths.
      { apply elem_of_cons in Hinfo as [->|Hinfo]; [by left|right].
        by apply list_elem_of_fmap_2. }
      rewrite Hpath in Heq. apply app_inv_head in Heq. injection Heq as <- _.
      apply Hkey. apply list_elem_of_fmap. by exists (key, value').
    + by apply IHentries.
  - apply unique_keys_list in Hunique.
    rewrite populate_list.
    generalize (TList subtype elements) as parent. intros parent.
    change (λ i value, child_info parent p (Index i) value
                       :: _populate_tree value (p ++ [Index i]))
      with (λ i value, child_info parent p (Index (0 + i)) value
                       :: _populate_tree value (p ++ [Index (0 + i)])).
    generalize 0%nat as start.
    induction elements as [|value elements IHelements]; intros start;
      [constructor|].
    apply Forall_cons in IH as [IHvalue IH].
    apply Forall_cons in Hunique as [Hvalue Hunique].
    cbn [imap mjoin list_join]. rewrite Nat.add_0_r, map_app.
    change (map node_path
              (child_info parent p (Index start) value
               :: _populate_tree value (p ++ [Index start])))
      with ((p ++ [Index start])
            :: map node_path (_populate_tree value (p ++ [Index start]))).
    apply NoDup_app. split_and!.
    + apply populate_block_nodup, IHvalue, Hvalue.
    + intros path Hpath%populate_block_paths Hrest.
      destruct Hpath as (q & ->).
      apply list_elem_of_fmap in Hrest as (info & Heq & Hin).
      apply list_elem_of_join in Hin as (block & Hinfo & Hblock).
      apply elem_of_lookup_imap in Hblock as (i & value' & -> & Hi).
      assert (node_path info ∈ (p ++ [Index (start + S i)])
                :: map node_path (_populate_tree value' (p ++ [Index (start + S i)])))
        as (q' & Hpath)%populate_block_paths.
      { simpl in Hinfo.
        apply elem_of_cons in Hinfo as [->|Hinfo]; [by left|right].
        by apply list_elem_of_fmap_2. }
      rewrite Hpath in Heq. apply app_inv_head in Heq. injection Heq as Heq _.
      lia.
    + rewrite (imap_ext _ (λ i value0,
                 child_info parent p (Index (S start + i)) value0
                 :: _populate_tree value0 (p ++ [Index (S start + i)]))).
      * by apply IHelements.
      * intros i x _. simpl. by rewrite Nat.add_succ_r.
Qed.

(** The tree view of a root compound that is not empty, whose compounds
    have distinct keys as dicts do: the items are the nodes of the tree.
    Each item records the tag, the parent, the key and the path of the node
    at its path; every path that leads to a tag has an item; and no two
    items have the same path. *)
Theorem tree_items_are_the_nodes (entries : compound)
  (select_path current_path : option path) :
  entries ≠ [] → unique_keys (TCompound entries) = true →
  let root := TCompound entries in
  let node_map := (build_tree (Some entries) select_path current_path).1 in
  (∀ info, info ∈ node_map ↔ node_info root (node_path info) = Some info) ∧
  (∀ p, p ∈ map node_path node_map ↔ is_Some (resolve root p)) ∧
  NoDup (map node_path node_map).
Proof.
  intros Hne Hunique root node_map.
  assert (node_map
          = {| node_tag := root; node_parent := None; node_key := None;
               node_path := [] |} :: _populate_tree root []) as ->.
  { unfold node_map, build_tree. by destruct entries. }
  assert (∀ info,
            info ∈ {| node_tag := root; node_parent := None; node_key := None;
                      node_path := [] |} :: _populate_tree root []
            ↔ node_info root (node_path info) = Some info) as Hitems.
  { intros info. rewrite elem_of_cons, (populate_node_info root info Hunique).
    split.
    - intros [->|[_ Hinfo]]; [done|done].
    - intros Hinfo. destruct (node_path info) as [|k q] eqn:Hpath.
      + left. rewrite node_info_root in Hinfo. by injection Hinfo.
      + right. rewrite ?Hpath. by split. }
  split; [done|]. split.
  - intros p. rewrite list_elem_of_fmap. split.
    + intros (info & -> & Hin). apply Hitems in Hin.
      destruct (node_path info) as [|k q _] eqn:Hpath using rev_ind; [done|].
      rewrite node_info_last in Hin. rewrite resolve_snoc.
      destruct (resolve root q) as [parent|]; [|done]. simpl in *.
      by destruct (child parent k).
    + intros [t Hp].
      destruct (node_info_resolve _ _ _ Hp) as (info & Hinfo & _).
      pose proof (node_info_path _ _ _ Hinfo) as Hpath.
      exists info. split; [done|]. apply Hitems. by rewrite Hpath.
  - cbn [map node_path]. constructor.
    + intros Hin. apply list_elem_of_fmap in Hin as (info & Heq & Hin).
      apply populate_paths_below in Hin as (k & q & Hpath).
      rewrite Hpath in Heq. done.
    + by apply populate_paths_nodup.
Qed.

(** A root with a list of two numbers and a string: five items. *)
Lemma tree_items_are_the_nodes_witness :
  let entries := [("l", TList (Some (Numeric Int)) [TNum Int 1; TNum Int 2]);
                  ("s", TString "x")] in
  let node_map := (build_tree (Some entries) None None).1 in
  map node_path node_map
  = [[]; [Name "l"]; [Name "l"; Index 0]; [Name "l"; Index 1]; [Name "s"]] ∧
  (∀ info, info ∈ node_map ↔
           node_info (TCompound entries) (node_path info) = Some info) ∧
  (∀ p, p ∈ map node_path node_map ↔ is_Some (resolve (TCompound entries) p)) ∧
  NoDup (map node_path node_map).
Proof.
  intros entries node_map. split; [reflexivity|].
  apply (tree_items_are_the_nodes entries None None).
  - discriminate.
  - reflexivity.
Defined.

(** ** Deleting: [delete_node] *)

Lemma dict_del_snoc_fresh {V} key (v : V) d :
  dict_mem key d = false → dict_del key (d ++ [(key, v)]) = d.
Proof.
  unfold dict_mem. induction d as [|[k w] d IH]; simpl.
  - by rewrite String.eqb_refl.
  - destruct (String.eqb k key); [done|]. intros Hmem. by rewrite IH.
Qed.

Lemma dict_alter_alter {V} (f g : V → V) key (d : list (string * V)) :
  dict_alter g key (dict_alter f key d) = dict_alter (g ∘ f) key d.
Proof.
  induction d as [|[k w] d IH]; [done|]. simpl.
  destruct (String.eqb k key) eqn:E; simpl; rewrite E; [done|].
  by rewrite IH.
Qed.

Lemma dict_alter_ext {V} (f g : V → V) key (d : list (string * V)) :
  (∀ x, f x = g x) → dict_alter f key d = dict_alter g key d.
Proof.
  intros Hfg. induction d as [|[k w] d IH]; [done|]. simpl.
  destruct (String.eqb k key); [by rewrite Hfg|by rewrite IH].
Qed.

(** A second assignment at a path overwrites the first. *)
Lemma set_at_twice root (p : path) a b :
  set_at (set_at root p a) p b = set_at root p b.
Proof.
  revert root. induction p as [|k p IH]; intros root; [done|].
  destruct root as [| | | |entries|st items], k as [key|i]; simpl; try done.
  - rewrite dict_alter_alter. f_equal. apply dict_alter_ext. intros x. apply IH.
  - rewrite list_alter_alter_eq. f_equal. apply list_alter_ext; [|done].
    intros x _. apply IH.
Qed.

Lemma delete_node_child root (pp : path) k parent t :
  resolve root pp = Some parent → child parent k = Some t →
  delete_node root (pp ++ [k]) true
  = (set_at root pp (delete_child parent k), Some pp).
Proof.
  intros Hpp Hk. unfold delete_node.
  rewrite (node_info_snoc _ _ _ _ _ Hpp Hk). simpl.
  by rewrite !List.removelast_last.
Qed.

(** Deleting the entry [key] of a compound whose keys are distinct: the
    compound keeps its other entries, in their order; the path of the
    deleted entry leads nowhere, the paths of the other entries lead where
    they led; and the views are refreshed with the compound's path as the
    path to select. *)
Theorem delete_compound_entry (root : tag) (pp : path)
  (entries : list (string * tag)) (key : string) (t : tag) :
  resolve root pp = Some (TCompound entries) →
  NoDup (map fst entries) →
  dict_get key entries = Some t →
  ∃ root',
    delete_node root (pp ++ [Name key]) true = (root', Some pp) ∧
    resolve root' pp
    = Some (TCompound (filter (λ entry, entry.1 ≠ key) entries)) ∧
    resolve root' (pp ++ [Name key]) = None ∧
    (∀ key' q, key' ≠ key →
               resolve root' (pp ++ Name key' :: q)
               = resolve root (pp ++ Name key' :: q)).
Proof.
  intros Hpp Hnodup Hget.
  rewrite (delete_node_child root pp (Name key) _ t Hpp Hget).
  eexists. split; [done|]. simpl.
  pose proof (resolve_set_at root pp (TCompound (dict_del key entries)) _ Hpp)
    as Hpp'.
  split; [by rewrite <- dict_del_filter|]. split.
  - rewrite resolve_snoc, Hpp'. simpl. by apply dict_get_del_eq.
  - intros key' q Hne. rewrite !resolve_app, Hpp', Hpp. simpl.
    by rewrite dict_get_del_ne.
Qed.

Lemma delete_compound_entry_witness :
  ∃ root',
    delete_node (TCompound [("a", TCompound [("x", TNum Int 1); ("y", TNum Int 2)])])
      ([Name "a"] ++ [Name "x"]) true = (root', Some [Name "a"]) ∧
    resolve root' [Name "a"]
    = Some (TCompound (filter (λ entry, entry.1 ≠ "x")
                         [("x", TNum Int 1); ("y", TNum Int 2)])) ∧
    resolve root' ([Name "a"] ++ [Name "x"]) = None ∧
    (∀ key' q, key' ≠ "x" →
               resolve root' ([Name "a"] ++ Name key' :: q)
               = resolve
                   (TCompound [("a", TCompound [("x", TNum Int 1); ("y", TNum Int 2)])])
                   ([Name "a"] ++ Name key' :: q)).
Proof.
  apply (delete_compound_entry
           (TCompound [("a", TCompound [("x", TNum Int 1); ("y", TNum Int 2)])])
           [Name "a"] [("x", TNum Int 1); ("y", TNum Int 2)] "x" (TNum Int 1)).
  - reflexivity.
  - apply (bool_decide_eq_true_1 _). reflexivity.
  - reflexivity.
Defined.

(** Deleting the element [i] of a list: the list keeps its subtype and its
    other elements; the elements before [i] stay where they are and those
    after it move down by one. *)
Theorem delete_list_element (root : tag) (pp : path)
  (subtype : option tag_class) (elements : list tag) (i : nat) (t : tag) :
  resolve root pp = Some (TList subtype elements) →
  elements !! i = Some t →
  ∃ root',
    delete_node root (pp ++ [Index i]) true = (root', Some pp) ∧
    resolve root' pp = Some (TList subtype (delete i elements)) ∧
    (∀ j q, (j < i)%nat →
            resolve root' (pp ++ Index j :: q) = resolve root (pp ++ Index j :: q)) ∧
    (∀ j q, (i ≤ j)%nat →
            resolve root' (pp ++ Index j :: q)
            = resolve root (pp ++ Index (S j) :: q)).
Proof.
  intros Hpp Hget.
  rewrite (delete_node_child root pp (Index i) _ t Hpp Hget).
  eexists. split; [done|]. simpl.
  pose proof (resolve_set_at root pp (TList subtype (delete i elements)) _ Hpp)
    as Hpp'.
  split; [done|]. split.
  - intros j q Hlt. rewrite !resolve_app, Hpp', Hpp. simpl.
    by rewrite list_lookup_delete_lt.
  - intros j q Hle. rewrite !resolve_app, Hpp', Hpp. simpl.
    by rewrite list_lookup_delete_ge.
Qed.

Lemma delete_list_element_witness :
  ∃ root',
    delete_node (TList (Some StringTag) [TString "a"; TString "b"; TString "c"])
      ([] ++ [Index 1]) true = (root', Some []) ∧
    resolve root' []
    = Some (TList (Some StringTag)
              (delete 1%nat [TString "a"; TString "b"; TString "c"])) ∧
    (∀ j q, (j < 1)%nat →
            resolve root' ([] ++ Index j :: q)
            = resolve (TList (Some StringTag) [TString "a"; TString "b"; TString "c"])
                ([] ++ Index j :: q)) ∧
    (∀ j q, (1 ≤ j)%nat →
            resolve root' ([] ++ Index j :: q)
            = resolve (TList (Some StringTag) [TString "a"; TString "b"; TString "c"])
                ([] ++ Index (S j) :: q)).
Proof.
  apply (delete_list_element
           (TList (Some StringTag) [TString "a"; TString "b"; TString "c"]) []
           (Some StringTag) [TString "a"; TString "b"; TString "c"] 1 (TString "b"));
    reflexivity.
Defined.

Section add_and_delete.
Context `{PyFloat}.

(** Adding an entry to a compound and deleting it again gives the tree back
    as it was. *)
Theorem add_then_delete_restores (root : tag) (p : path)
  (entries : list (string * tag)) (res : AddTagResult) (name : string)
  (new_tag : tag) :
  resolve root p = Some (TCompound entries) →
  result_name res = Some name →
  dict_mem name entries = false →
  _create_tag_from_input (result_type res) (result_value res) = Ok new_tag →
  ∃ root1,
    add_child root p (Some res) = (root1, None) ∧
    resolve root1 (p ++ [Name name]) = Some new_tag ∧
    delete_node root1 (p ++ [Name name]) true = (root, Some p).
Proof.
  intros Hp Hname Hmem Hnew.
  destruct (node_info_resolve _ _ _ Hp) as (info & Hinfo & Htag & _).
  unfold add_child. rewrite Hinfo, Htag, Hname, Hmem, Hnew.
  rewrite (dict_set_fresh _ _ _ Hmem).
  eexists. split; [done|].
  pose proof (resolve_set_at root p (TCompound (entries ++ [(name, new_tag)])) _ Hp)
    as Hp1.
  assert (child (TCompound (entries ++ [(name, new_tag)])) (Name name)
          = Some new_tag) as Hchild by by apply dict_get_snoc_fresh.
  split.
  - rewrite resolve_snoc, Hp1. done.
  - rewrite (delete_node_child _ _ _ _ _ Hp1 Hchild). simpl.
    rewrite (dict_del_snoc_fresh _ _ _ Hmem), set_at_twice.
    by rewrite (set_at_same _ _ _ Hp).
Qed.

Lemma delete_snoc {A} (l : list A) (x : A) : delete (length l) (l ++ [x]) = l.
Proof. rewrite delete_middle. apply app_nil_r. Qed.

(** Adding an element to a list and deleting it again.  A list whose subtype
    is fixed comes back as it was.  An untyped list does not: the first
    element fixes the subtype, and the list, empty again, keeps it. *)
Theorem list_add_then_delete (root : tag) (p : path) (res : AddTagResult)
  (new_tag : tag) :
  _create_tag_from_input (result_type res) (result_value res) = Ok new_tag →
  (∀ c elements,
     resolve root p = Some (TList (Some c) elements) →
     class_of new_tag = c →
     ∃ root1,
       add_child root p (Some res) = (root1, None) ∧
       delete_node root1 (p ++ [Index (length elements)]) true = (root, Some p))
  ∧
  (∀ list_type,
     resolve root p = Some (TList None []) →
     dict_get (result_type res) TAG_CLASS_MAP = Some list_type →
     ∃ root1 root2,
       add_child root p (Some res) = (root1, None) ∧
       delete_node root1 (p ++ [Index 0]) true = (root2, Some p) ∧
       resolve root2 p = Some (TList (Some list_type) [])).
Proof.
  intros Hnew. split.
  - intros c elements Hp Hclass.
    destruct (node_info_resolve _ _ _ Hp) as (info & Hinfo & Htag & _).
    unfold add_child. rewrite Hinfo, Htag, Hnew. simpl.
    rewrite decide_True by done.
    eexists. split; [done|].
    pose proof (resolve_set_at root p (TList (Some c) (elements ++ [new_tag])) _ Hp)
      as Hp1.
    assert (child (TList (Some c) (elements ++ [new_tag])) (Index (length elements))
            = Some new_tag) as Hchild.
    { simpl. by rewrite lookup_app_r, Nat.sub_diag. }
    rewrite (delete_node_child _ _ _ _ _ Hp1 Hchild). simpl.
    rewrite delete_snoc, set_at_twice.
    by rewrite (set_at_same _ _ _ Hp).
  - intros list_type Hp Hty.
    pose proof (created_tag_class _ _ _ Hnew) as Hclass.
    rewrite (offered_type_name_stripped _ _ Hty), Hty in Hclass.
    injection Hclass as Hclass.
    destruct (node_info_resolve _ _ _ Hp) as (info & Hinfo & Htag & _).
    unfold add_child. rewrite Hinfo, Htag, Hnew, Hty. simpl.
    rewrite decide_True by done.
    eexists. eexists. split; [done|].
    pose proof (replace_tag_resolve root p info _ (TList (Some list_type) [new_tag])
                  Hp Hinfo) as Hp1.
    assert (child (TList (Some list_type) [new_tag]) (Index 0)
            = Some new_tag) as Hchild by done.
    rewrite (delete_node_child _ _ _ _ _ Hp1 Hchild). simpl.
    split; [done|].
    by eapply resolve_set_at.
Qed.

End add_and_delete.

Lemma add_then_delete_restores_witness :
  ∃ root1,
    add_child (H := python_float) (TCompound [("a", TNum Int 1)]) []
      (Some {| result_name := Some "b"; result_type := "Short";
               result_value := "0x10" |}) = (root1, None) ∧
    resolve root1 ([] ++ [Name "b"]) = Some (TNum Short 16) ∧
    delete_node root1 ([] ++ [Name "b"]) true = (TCompound [("a", TNum Int 1)], Some []).
Proof.
  apply (add_then_delete_restores (H := python_float)
           (TCompound [("a", TNum Int 1)]) [] [("a", TNum Int 1)]
           {| result_name := Some "b"; result_type := "Short";
              result_value := "0x10" |} "b" (TNum Short 16)); reflexivity.
Defined.

Lemma list_add_then_delete_witness :
  (∃ root1,
     add_child (H := python_float)
       (TCompound [("l", TList (Some StringTag) [TString "a"])]) [Name "l"]
       (Some {| result_name := None; result_type := "String"; result_value := "b" |})
     = (root1, None) ∧
     delete_node root1 ([Name "l"] ++ [Index (length [TString "a"])]) true
     = (TCompound [("l", TList (Some StringTag) [TString "a"])], Some [Name "l"]))
  ∧
  (∃ root1 root2,
     add_child (H := python_float)
       (TCompound [("l", TList None [])]) [Name "l"]
       (Some {| result_name := None; result_type := "String"; result_value := "b" |})
     = (root1, None) ∧
     delete_node root1 ([Name "l"] ++ [Index 0]) true = (root2, Some [Name "l"]) ∧
     resolve root2 [Name "l"] = Some (TList (Some StringTag) [])).
Proof.
  split.
  - refine (proj1 (list_add_then_delete (H := python_float)
                     (TCompound [("l", TList (Some StringTag) [TString "a"])])
                     [Name "l"]
                     {| result_name := None; result_type := "String";
                        result_value := "b" |} (TString "b") _)
              StringTag [TString "a"] _ _); reflexivity.
  - refine (proj2 (list_add_then_delete (H := python_float)
                     (TCompound [("l", TList None [])]) [Name "l"]
                     {| result_name := None; result_type := "String";
                        result_value := "b" |} (TString "b") _)
              StringTag _ _); reflexivity.
Defined.

(** ** Deleting and the selection *)

Lemma or_path_nil (current_path : option path) :
  or_path (Some []) (or_path current_path []) = or_path current_path [].
Proof. done. Qed.

Lemma resolvable_path_has_item root (pp : path) x :
  pp ≠ [] → resolve root pp = Some x →
  pp ∈ map node_path (_populate_tree root []).
Proof.
  destruct pp as [|k q _] using rev_ind; [done|]. intros _.
  rewrite resolve_snoc.
  destruct (resolve root q) as [gp|] eqn:Hgp; [|done]. simpl.
  intros Hk. apply list_elem_of_fmap. exists (child_info gp q k x).
  split; [done|]. by apply (populate_has_item root []).
Qed.

Lemma top_level_paths entries key :
  [Name key] ∈ map node_path (_populate_tree (TCompound entries) []) →
  key ∈ map fst entries.
Proof.
  intros (info & Heq & Hin)%list_elem_of_fmap.
  rewrite populate_compound in Hin.
  apply list_elem_of_In, in_flat_map in Hin
    as ([key' value] & Hin%list_elem_of_In & Hinfo%list_elem_of_In).
  cbn [fst snd] in Hinfo.
  apply elem_of_cons in Hinfo as [->|Hinfo].
  - injection Heq as ->. apply list_elem_of_fmap. by exists (key', value).
  - apply populate_paths_below in Hinfo as (k & q & Hpath).
    rewrite Hpath in Heq. simpl in Heq. by destruct q.
Qed.

(** The selection after a delete.  [delete_node] asks for the parent to be
    selected.  For a child of the root that request is the empty path, which
    [build_tree] takes for no request at all: it looks for the path that was
    selected before, the deleted entry's, finds no item and clears the
    selection.  For a node further down the parent is selected.  And when the
    root's only entry is deleted the root is an empty compound, for which
    [build_tree] shows no item at all, not even the root's. *)
Theorem selection_after_delete (entries : compound) :
  (∀ key t,
     NoDup (map fst entries) → dict_get key entries = Some t →
     delete_node (TCompound entries) [Name key] true
     = (TCompound (dict_del key entries), Some []) ∧
     (build_tree (Some (dict_del key entries)) (Some []) (Some [Name key])).2
     = None)
  ∧
  (∀ pp parent k t,
     pp ≠ [] → resolve (TCompound entries) pp = Some parent →
     child parent k = Some t →
     ∃ entries',
       delete_node (TCompound entries) (pp ++ [k]) true
       = (TCompound entries', Some pp) ∧
       (build_tree (Some entries') (Some pp) (Some (pp ++ [k]))).2 = Some pp)
  ∧
  (∀ key t select_path current_path,
     entries = [(key, t)] →
     delete_node (TCompound entries) [Name key] true = (TCompound [], Some []) ∧
     build_tree (Some []) select_path current_path = ([], None)).
Proof.
  split_and!.
  3: { intros key t select_path current_path ->. split; [|done].
       assert (dict_get key [(key, t)] = Some t) as Hget
         by (simpl; by rewrite String.eqb_refl).
       etrans; [exact (delete_node_child (TCompound [(key, t)]) [] (Name key)
                         _ t eq_refl Hget)|].
       simpl. by rewrite String.eqb_refl. }
  - intros key t Hnodup Hget. split.
    + exact (delete_node_child (TCompound entries) [] (Name key) _ t eq_refl Hget).
    + unfold build_tree.
      destruct (dict_del key entries) as [|entry rest] eqn:Hdel; [done|].
      rewrite or_path_nil. cbn [or_path snd].
      rewrite decide_False; [done|].
      intros [Habs|Hin]%elem_of_cons; [done|].
      apply top_level_paths in Hin. rewrite <- Hdel in Hin.
      apply list_elem_of_fmap in Hin as ([key' value] & Hkey & Hin).
      simpl in Hkey. subst key'.
      rewrite (dict_del_filter _ _ Hnodup) in Hin.
      by apply list_elem_of_filter in Hin as [? _].
  - intros pp parent k t Hne Hpp Hk.
    rewrite (delete_node_child _ _ _ _ _ Hpp Hk).
    destruct pp as [|k0 q]; [done|].
    destruct k0 as [key|i]; [|done]. simpl in Hpp.
    destruct (dict_get key entries) as [c|] eqn:Hget; [|done].
    cbn [set_at]. eexists. split; [done|].
    set (entries' := dict_alter _ key entries).
    assert (resolve (TCompound entries') (Name key :: q)
            = Some (delete_child parent k)) as Hpp'.
    { apply (resolve_set_at (TCompound entries) (Name key :: q) _ parent).
      simpl. by rewrite Hget. }
    unfold build_tree.
    destruct entries' as [|entry rest] eqn:Hentries; [done|].
    cbn [or_path snd]. rewrite decide_True; [done|].
    right. by apply (resolvable_path_has_item _ _ (delete_child parent k)).
Qed.

Lemma selection_after_delete_witness :
  (delete_node (TCompound [("a", TNum Int 1); ("b", TNum Int 2)]) [Name "a"] true
   = (TCompound (dict_del "a" [("a", TNum Int 1); ("b", TNum Int 2)]), Some []) ∧
   (build_tree (Some (dict_del "a" [("a", TNum Int 1); ("b", TNum Int 2)]))
      (Some []) (Some [Name "a"])).2 = None)
  ∧
  (∃ entries',
     delete_node (TCompound [("a", TCompound [("x", TNum Int 1)])])
       ([Name "a"] ++ [Name "x"]) true = (TCompound entries', Some [Name "a"]) ∧
     (build_tree (Some entries') (Some [Name "a"])
        (Some ([Name "a"] ++ [Name "x"]))).2 = Some [Name "a"]).
Proof.
  split.
  - refine (proj1 (selection_after_delete [("a", TNum Int 1); ("b", TNum Int 2)])
              "a" (TNum Int 1) _ _); [|reflexivity].
    apply (bool_decide_eq_true_1 _). reflexivity.
  - refine (proj1 (proj2 (selection_after_delete
                             [("a", TCompound [("x", TNum Int 1)])]))
              [Name "a"] (TCompound [("x", TNum Int 1)]) (Name "x") (TNum Int 1)
              _ _ _); [discriminate|reflexivity|reflexivity].
Defined.

(** ** The detail panel and Apply *)

Lemma class_name_lookup c : dict_get (strip (class_name c)) TAG_CLASS_MAP = Some c.
Proof. by destruct c as [[]|[]| |[]| |]. Qed.

Lemma scalar_type_name t :
  value_editor_mode t ≠ ModeMessage → type_name t = class_name (class_of t).
Proof. by destruct t. Qed.


Section detail_panel_facts.
Context `{PyFloat}.


(** Apply on an element of a list.  When an error is shown the tree is
    unchanged.  Otherwise the element is replaced, in its place, by a tag of
    the same class: the list keeps its length and its subtype, and its
    elements stay of one class. *)
Theorem apply_on_list_element (root : tag) (pp : path)
  (subtype : option tag_class) (elements : list tag) (i : nat) (t : tag)
  (name_var value_widget : string) :
  resolve root pp = Some (TList subtype elements) →
  elements !! i = Some t →
  ∃ root' e,
    apply_changes root (pp ++ [Index i]) name_var value_widget = (root', e) ∧
    (e ≠ None → root' = root) ∧
    (e = None →
     ∃ t', resolve root' pp = Some (TList subtype (<[i := t']> elements)) ∧
           class_of t' = class_of t ∧
           (value_editor_mode t = ModeMessage → t' = t)).
Proof.
  intros Hpp Hget. unfold apply_changes.
  rewrite (node_info_snoc root pp (Index i) _ t Hpp Hget).
  cbn [handle_rename node_parent node_key node_tag].
  assert (resolve root pp = Some (TList subtype (<[i := t]> elements))) as Hsame
    by by rewrite list_insert_id.
  destruct (value_editor_mode t) eqn:Hmode.
  3: { exists root, None. split; [done|]. split; [done|]. intros _. by exists t. }
  all: destruct (_create_tag_from_input _ _) as [new_tag|e] eqn:Hnew;
    [|exists root, (Some e); by repeat split].
  all: eexists _, None; split; [done|]; split; [done|]; intros _;
    exists new_tag; rewrite List.removelast_last; simpl;
    split; [by eapply resolve_set_at|]; split; [|done];
    apply created_tag_class in Hnew;
    (rewrite scalar_type_name, class_name_lookup in Hnew by by rewrite Hmode);
    by injection Hnew.
Qed.

End detail_panel_facts.


Lemma apply_on_list_element_witness :
  ∃ root' e,
    apply_changes (H := python_float)
      (TList (Some (Numeric Byte)) [TNum Byte 1; TNum Byte 2]) ([] ++ [Index 1])
      "1" "0x7f" = (root', e) ∧
    (e ≠ None → root' = TList (Some (Numeric Byte)) [TNum Byte 1; TNum Byte 2]) ∧
    (e = None →
     ∃ t', resolve root' []
           = Some (TList (Some (Numeric Byte))
                     (<[1%nat := t']> [TNum Byte 1; TNum Byte 2])) ∧
           class_of t' = class_of (TNum Byte 2) ∧
           (value_editor_mode (TNum Byte 2) = ModeMessage → t' = TNum Byte 2)).
Proof.
  apply (apply_on_list_element (H := python_float)
           (TList (Some (Numeric Byte)) [TNum Byte 1; TNum Byte 2]) []
           (Some (Numeric Byte)) [TNum Byte 1; TNum Byte 2] 1 (TNum Byte 2)
           "1" "0x7f"); reflexivity.
Defined.

(** ** The detail panel: disabled widgets *)

Section button_states.
Context `{PyFloat}.

(** The buttons and the name entry that [_update_detail_panel] disables
    belong to operations that would do nothing: with Apply disabled
    [apply_changes] leaves the tree as it is, with Add disabled [add_child]
    does, with Delete disabled [delete_node] does; and with the name entry
    disabled [apply_changes] does not read the name. *)
Theorem disabled_widgets_do_nothing (root : tag) (p : path) (info : NodeInfo) :
  node_info root p = Some info →
  (panel_apply (_update_detail_panel info) = false →
   ∀ name_var value_widget,
     apply_changes root p name_var value_widget = (root, None)) ∧
  (panel_add (_update_detail_panel info) = false →
   ∀ dialog, add_child root p dialog = (root, None)) ∧
  (panel_delete (_update_detail_panel info) = false →
   ∀ confirmed, delete_node root p confirmed = (root, None)) ∧
  (panel_name_enabled (_update_detail_panel info) = false →
   ∀ name_var name_var' value_widget,
     apply_changes root p name_var value_widget
     = apply_changes root p name_var' value_widget).
Proof.
  intros Hinfo. unfold _update_detail_panel. cbn.
  split_and!.
  - intros Happly name_var value_widget.
    unfold apply_changes, handle_rename. rewrite Hinfo.
    destruct (node_tag info) as [| | | |entries|subtype elements] eqn:Htag;
      try done; simpl in Happly;
      by destruct (node_parent info) as [[| | | | |]|].
  - intros Hadd dialog. unfold add_child. rewrite Hinfo.
    by destruct (node_tag info).
  - intros Hdelete confirmed. unfold delete_node. rewrite Hinfo.
    by destruct (node_parent info).
  - intros Hname name_var name_var' value_widget.
    unfold apply_changes, handle_rename. rewrite Hinfo.
    destruct (node_parent info) as [[| | | |entries|]|]; try done.
    by destruct (node_key info) as [[|]|].
Qed.

End button_states.

(** The root compound: Apply and Delete are disabled.  A string: Add is
    disabled.  An element of a list: the name entry is disabled. *)
Lemma disabled_widgets_do_nothing_witness :
  let root := TCompound [("s", TString "x"); ("l", TList None [])] in
  (∀ name_var value_widget,
     apply_changes (H := python_float) root [] name_var value_widget
     = (root, None)) ∧
  (∀ dialog,
     add_child (H := python_float) root [Name "s"] dialog = (root, None)) ∧
  (∀ confirmed, delete_node root [] confirmed = (root, None)).
Proof.
  intros root.
  pose proof (disabled_widgets_do_nothing (H := python_float) root []
                {| node_tag := root; node_parent := None; node_key := None;
                   node_path := [] |} eq_refl) as (Happly & _ & Hdelete & _).
  pose proof (disabled_widgets_do_nothing (H := python_float) root [Name "s"]
                {| node_tag := TString "x"; node_parent := Some root;
                   node_key := Some (Name "s"); node_path := [Name "s"] |}
                eq_refl) as (_ & Hadd & _ & _).
  split; [apply Happly; reflexivity|].
  split; [apply Hadd; reflexivity|apply Hdelete; reflexivity].
Defined.

(** ** The add-tag dialog and [add_child] *)

(** What a submitted dialog holds. *)
Lemma _on_submit_accepts require_name type_var name_var value_var res :
  _on_submit require_name type_var name_var value_var = inr res →
  result_type res = strip type_var ∧ strip type_var ≠ "" ∧
  result_value res = strip value_var ∧
  result_name res
  = (if require_name then Some (strip name_var) else None) ∧
  (require_name = true → strip name_var ≠ "") ∧
  (strip type_var ≠ "Compound" → strip type_var ≠ "List" →
   strip value_var ≠ "").
Proof.
  unfold _on_submit.
  destruct (is_empty (strip type_var)) eqn:Htype; [done|].
  assert (strip type_var ≠ "") as Hty by (intros Heq; by rewrite Heq in Htype).
  assert (negb (String.eqb (strip type_var) "Compound"
                || String.eqb (strip type_var) "List")
          && is_empty (strip value_var) = false →
          strip type_var ≠ "Compound" → strip type_var ≠ "List" →
          strip value_var ≠ "") as Hval.
  { intros Hvalue Hc Hl Heq. rewrite Heq in Hvalue.
    apply eqb_neq_false in Hc, Hl. by rewrite Hc, Hl in Hvalue. }
  destruct require_name.
  - destruct (is_empty (strip name_var)) eqn:Hname; [done|].
    destruct (negb _ && is_empty (strip value_var)) eqn:Hvalue; [done|].
    intros [= <-]. split_and!; try done; [|by apply Hval].
    intros _ Heq. by rewrite Heq in Hname.
  - destruct (negb _ && is_empty (strip value_var)) eqn:Hvalue; [done|].
    intros [= <-]. split_and!; try done. by apply Hval.
Qed.

Lemma offered_type_lookup type_var :
  type_var ∈ map fst TAG_CLASS_MAP → ∃ c, dict_get type_var TAG_CLASS_MAP = Some c.
Proof.
  cbn [map TAG_CLASS_MAP fst]. intros Hin.
  repeat (apply elem_of_cons in Hin as [->|Hin]; [by eexists|]).
  by apply elem_of_nil in Hin.
Qed.

Lemma parse_int_loop_errors minimum maximum parts numbers e :
  parse_int_loop minimum maximum parts numbers = Err e →
  e = InvalidInteger ∨ e = OutOfRange.
Proof.
  revert numbers. induction parts as [|part parts IH]; intros numbers; [done|].
  simpl. destruct (int0 part) as [value|]; [|intros [= <-]; by left].
  destruct (below minimum value); [intros [= <-]; by right|].
  destruct (above maximum value); [intros [= <-]; by right|].
  apply IH.
Qed.

Lemma parse_int_list_errors text minimum maximum e :
  _parse_int_list text minimum maximum = Err e →
  e = InvalidInteger ∨ e = OutOfRange.
Proof.
  unfold _parse_int_list. destruct (is_empty (strip text)); [done|].
  apply parse_int_loop_errors.
Qed.

Section dialog_facts.
Context `{PyFloat}.

(** The errors of a coercion to a type that [TAG_CLASS_MAP] knows. *)
Lemma coercion_errors type_name value c e :
  dict_get (strip type_name) TAG_CLASS_MAP = Some c →
  _create_tag_from_input type_name value = Err e →
  e = InvalidInteger ∨ e = InvalidFloat ∨ e = OutOfRange ∨ e = Overflow.
Proof.
  unfold _create_tag_from_input. intros ->.
  destruct c as [c|c| |c| |]; try done.
  - destruct (int0 value) as [n|]; [|intros [= <-]; auto].
    destruct (make_numeric c n); [done|intros [= <-]; auto].
  - destruct (float_of_text value); [done|intros [= <-]; auto].
  - assert (∀ minimum maximum,
              _parse_int_list value minimum maximum ≫= make_array c = Err e →
              e = InvalidInteger ∨ e = InvalidFloat ∨ e = OutOfRange ∨ e = Overflow)
      as Harray.
    { intros minimum maximum.
      destruct (_parse_int_list value minimum maximum) as [values|e'] eqn:Hparse;
        simpl.
      - unfold make_array. destruct (forallb _ values); [done|].
        intros [= <-]. auto.
      - intros [= <-]. apply parse_int_list_errors in Hparse as [->| ->]; auto. }
    destruct c; apply Harray.
Qed.

(** A string entered in the add-tag dialog.  The dialog closes only with a
    name and a value that are not blank, and hands both on stripped: the
    entry added to the compound has the stripped name and holds the stripped
    text, so that neither an empty string nor one with surrounding
    whitespace can be added. *)
Theorem dialog_adds_stripped_string (root : tag) (p : path)
  (entries : list (string * tag)) (type_var name_var value_var : string)
  (res : AddTagResult) :
  resolve root p = Some (TCompound entries) →
  _on_submit true type_var name_var value_var = inr res →
  strip type_var = "String" →
  strip name_var ≠ "" ∧ strip value_var ≠ "" ∧
  (dict_mem (strip name_var) entries = true →
   add_child root p (Some res) = (root, Some DuplicateName)) ∧
  (dict_mem (strip name_var) entries = false →
   ∃ root',
     add_child root p (Some res) = (root', None) ∧
     resolve root' p
     = Some (TCompound (entries ++ [(strip name_var, TString (strip value_var))]))).
Proof.
  intros Hp Hsubmit Hstring.
  apply _on_submit_accepts in Hsubmit
    as (Htype & _ & Hvalue & Hname & Hnonblank & Hval).
  rewrite Hstring in Htype, Hval.
  split; [by apply Hnonblank|]. split; [by apply Hval|].
  destruct (node_info_resolve _ _ _ Hp) as (info & Hinfo & Htag & _).
  unfold add_child. rewrite Hinfo, Htag, Hname, Htype, Hvalue. simpl.
  split.
  - by intros ->.
  - intros Hmem. rewrite Hmem. eexists. split; [done|].
    rewrite (dict_set_fresh _ _ _ Hmem). by eapply resolve_set_at.
Qed.

(** Adding through the dialog, as [add_child] sets it up for the selected
    container (an untyped list being empty): whatever is chosen and typed,
    the type is one that the coercion knows and, for a list, the class of
    the new tag is the list's; an error leaves the tree unchanged. *)
Theorem dialog_add_is_well_typed (root : tag) (p : path) (t : tag)
  (d : AddTagDialog) (type_var name_var value_var : string)
  (res : AddTagResult) :
  resolve root p = Some t →
  (∀ elements, t = TList None elements → elements = []) →
  add_child_dialog t = Some d →
  selectable d type_var →
  _on_submit (require_name d) type_var name_var value_var = inr res →
  ∃ root' e,
    add_child root p (Some res) = (root', e) ∧
    e ≠ Some UnsupportedType ∧ e ≠ Some TypeMismatch ∧
    (e ≠ None → root' = root).
Proof.
  intros Hp Hempty Hdialog Hselect Hsubmit.
  apply _on_submit_accepts in Hsubmit
    as (Htype & Hnonblank & Hvalue & Hname & _ & _).
  destruct (node_info_resolve _ _ _ Hp) as (info & Hinfo & Htag & _).
  assert (∃ c, dict_get type_var TAG_CLASS_MAP = Some c ∧
               ∀ c' l, t = TList (Some c') l → c = c')
    as (c & Hlookup & Hsub).
  { destruct t as [| | | |entries|[c'|] elements]; try done;
      injection Hdialog as <-; destruct Hselect as [Hsel|[Hallow Hsel]];
      simpl in *; try done.
    - subst type_var. exfalso. by apply Hnonblank.
    - apply offered_type_lookup in Hsel as [c Hc]. exists c.
      split; [done|]. by intros c' l.
    - subst type_var. exists c'. split.
      + rewrite <- class_name_lookup.
        f_equal. symmetry.
        destruct c' as [[]|[]| |[]| |]; reflexivity.
      + intros c'' l Heq. by injection Heq.
    - subst type_var. exists (Numeric Byte). split; [done|]. by intros c' l.
    - apply offered_type_lookup in Hsel as [c Hc]. exists c.
      split; [done|]. by intros c' l. }
  pose proof (offered_type_name_stripped _ _ Hlookup) as Hstripped.
  rewrite Hstripped in Htype.
  assert (∀ e, _create_tag_from_input (result_type res) (result_value res) = Err e →
               e ≠ UnsupportedType ∧ e ≠ TypeMismatch) as Herrors.
  { intros e He. rewrite Htype in He.
    eapply coercion_errors in He; [|by rewrite Hstripped].
    by destruct He as [->|[->|[->| ->]]]. }
  assert (∀ new_tag,
            _create_tag_from_input (result_type res) (result_value res) = Ok new_tag →
            class_of new_tag = c) as Hclass.
  { intros new_tag Hnew. apply created_tag_class in Hnew.
    rewrite Htype, Hstripped, Hlookup in Hnew. by injection Hnew. }
  unfold add_child. rewrite Hinfo, Htag.
  destruct t as [| | | |entries|[c'|] elements]; try done.
  - destruct (result_name res) as [name|]; [|by exists root, None].
    destruct (dict_mem name entries); [by exists root, (Some DuplicateName)|].
    destruct (_create_tag_from_input _ _) as [new_tag|e] eqn:Hnew.
    + by eexists _, None.
    + destruct (Herrors e eq_refl).
      exists root, (Some e). repeat split; congruence.
  - destruct (_create_tag_from_input _ _) as [new_tag|e] eqn:Hnew.
    + simpl. rewrite decide_True; [by eexists _, None|].
      rewrite (Hclass new_tag eq_refl). by apply (Hsub c' elements).
    + destruct (Herrors e eq_refl).
      exists root, (Some e). repeat split; congruence.
  - rewrite (Hempty elements eq_refl).
    destruct (_create_tag_from_input _ _) as [new_tag|e] eqn:Hnew.
    + rewrite Htype, Hlookup. simpl.
      rewrite decide_True by by apply Hclass.
      by eexists _, None.
    + destruct (Herrors e eq_refl).
      exists root, (Some e). repeat split; congruence.
Qed.

End dialog_facts.

Lemma dialog_adds_stripped_string_witness :
  strip " name " ≠ "" ∧ strip "  some text " ≠ "" ∧
  (dict_mem (strip " name ") [("a", TNum Int 1)] = true →
   add_child (H := python_float) (TCompound [("a", TNum Int 1)]) []
     (Some {| result_name := Some "name"; result_type := "String";
              result_value := "some text" |})
   = (TCompound [("a", TNum Int 1)], Some DuplicateName)) ∧
  (dict_mem (strip " name ") [("a", TNum Int 1)] = false →
   ∃ root',
     add_child (H := python_float) (TCompound [("a", TNum Int 1)]) []
       (Some {| result_name := Some "name"; result_type := "String";
                result_value := "some text" |}) = (root', None) ∧
     resolve root' []
     = Some (TCompound ([("a", TNum Int 1)]
                          ++ [(strip " name ", TString (strip "  some text "))]))).
Proof.
  apply (dialog_adds_stripped_string (H := python_float)
           (TCompound [("a", TNum Int 1)]) [] [("a", TNum Int 1)]
           "String" " name " "  some text "); reflexivity.
Defined.

Lemma dialog_add_is_well_typed_witness :
  ∃ root' e,
    add_child (H := python_float)
      (TCompound [("l", TList (Some (Numeric Int)) [TNum Int 3])]) [Name "l"]
      (Some {| result_name := None; result_type := "Int"; result_value := "x" |})
    = (root', e) ∧
    e ≠ Some UnsupportedType ∧ e ≠ Some TypeMismatch ∧
    (e ≠ None → root' = TCompound [("l", TList (Some (Numeric Int)) [TNum Int 3])]).
Proof.
  apply (dialog_add_is_well_typed (H := python_float)
           (TCompound [("l", TList (Some (Numeric Int)) [TNum Int 3])]) [Name "l"]
           (TList (Some (Numeric Int)) [TNum Int 3])
           {| require_name := false; type_options := ["Int"];
              preselected_type := Some "Int"; allow_type_selection := false |}
           "Int" "" " x ").
  - reflexivity.
  - intros elements Heq. discriminate Heq.
  - reflexivity.
  - left. reflexivity.
  - reflexivity.
Defined.

(** ** The inventory: the item dialog without edits *)

Lemma sort_keyed_sorted_id l : Sorted Z.le (map fst l) → sort_keyed l = l.
Proof.
  induction l as [|[k x] l IH]; [done|].
  intros Hsorted. apply Sorted_inv in Hsorted as [Hsorted Hhd].
  simpl. rewrite (IH Hsorted).
  destruct l as [|[k' y] l]; [done|]. simpl.
  apply HdRel_inv in Hhd. simpl in Hhd.
  by rewrite (proj2 (Z.leb_le k k') Hhd).
Qed.

Lemma zip_fst_keys (inventory : list compound) ks :
  slot_keys inventory = Ok ks → map fst (zip ks inventory) = ks.
Proof.
  intros Hks%slot_keys_Forall2. apply Forall2_length in Hks.
  apply fst_zip. lia.
Qed.

(** Sorting a list that is sorted by slot leaves it as it is. *)
Lemma sort_by_slot_sorted inventory ks :
  slot_keys inventory = Ok ks → Sorted Z.le ks →
  sort_by_slot inventory = Ok inventory.
Proof.
  intros Hks Hsorted. unfold sort_by_slot. rewrite Hks. simpl.
  rewrite sort_keyed_sorted_id by by rewrite (zip_fst_keys _ _ Hks).
  by destruct (zip_keyed _ _ Hks) as [_ ->].
Qed.

Lemma _parse_int_str_int n allow_negative :
  _parse_int (str_int n) allow_negative
  = if negb allow_negative && (n <? 0) then None else Some n.
Proof. unfold _parse_int. by rewrite int0_str_int. Qed.

Section item_dialog_facts.
Context `{TagText}.

(** Opening the item dialog on an entry as Save writes it (Byte slot, a
    String id without surrounding whitespace, Byte count within 0..64; the
    list sorted, no other entry in the slot) and pressing Save without
    touching the fields: the dialog accepts its own initial contents, and the
    inventory is left exactly as it was. *)
Theorem save_without_edits_changes_nothing (subtype : option tag_class)
  (inventory : list compound) (ks : list Z) (slot count : Z) (id : string)
  (i : nat) (item : compound) :
  slot_keys inventory = Ok ks → Sorted Z.le ks →
  inventory !! i = Some item →
  dict_get "Slot" item = Some (TNum Byte slot) → fits 8 slot = true →
  dict_get "id" item = Some (TString id) → strip id = id → id ≠ "" →
  dict_get "Count" item = Some (TNum Byte count) → 0 ≤ count ≤ 64 →
  (∀ j other, j ≠ i → inventory !! j = Some other → slot_of other ≠ Ok slot) →
  _find_inventory_item inventory slot None = Ok (Some i) ∧
  initial_id (Some item) = id ∧
  initial_count (Some item) = Ok (str_int count) ∧
  _on_save (initial_slot slot) id (str_int count) = Ok (ActionSave slot id count) ∧
  _edit_inventory_item subtype inventory slot (Some (ActionSave slot id count))
  = (inventory, None).
Proof.
  intros Hks Hsorted Hi Hslot Hfits Hid Hstrip Hne Hcount Hrange Hunique.
  assert (Forall readable inventory) as Hread
    by (apply slot_keys_total; by exists ks).
  assert (slot_of item = Ok slot) as Hitem by (unfold slot_of; by rewrite Hslot).
  assert (_find_inventory_item inventory slot None = Ok (Some i)) as Hfind.
  { destruct (find_occupied inventory slot None i item Hread Hi Hitem)
      as [n Hn]; [done|].
    destruct (find_Some_lookup _ _ _ _ Hn) as (other & Hother & Hs & _).
    destruct (decide (n = i)) as [->|Hni]; [done|].
    by destruct (Hunique n other Hni Hother). }
  assert (_find_inventory_item inventory slot (Some i) = Ok None) as Hfree.
  { apply find_None_free. intros j other Hj Hexcl.
    assert (readable other) as [k Hk] by (eapply Forall_lookup_1; eauto).
    exists k. split; [done|]. intros ->.
    apply (Hunique j other); [congruence|done..]. }
  assert (initial_count (Some item) = Ok (str_int count)) as Hopen.
  { unfold initial_count. destruct item; [done|]. by rewrite Hcount. }
  split; [done|].
  split; [unfold initial_id; destruct item; [done|]; by rewrite Hid|].
  split; [done|].
  split.
  - unfold _on_save, initial_slot.
    rewrite !strip_str_int, !_parse_int_str_int, Hstrip. simpl.
    rewrite (is_empty_false _ Hne).
    assert ((count <? 0) = false) as -> by (apply Z.ltb_ge; lia).
    assert ((0 <=? count) && (count <=? 64) = true) as ->; [|done].
    apply andb_true_iff. split; apply Z.leb_le; lia.
  - unfold _edit_inventory_item. rewrite Hfind. cbn [mbind option_bind].
    rewrite Hi, Hopen, Hfree.
    unfold make_numeric. simpl numeric_bits.
    rewrite Hfits, (count_fits _ Hrange).
    rewrite (alter_saved _ _ item) by done.
    assert (saved_entry slot id count item = item) as ->.
    { unfold saved_entry.
      rewrite (dict_set_same "Slot" _ item Hslot),
        (dict_set_same "id" _ item Hid). by apply dict_set_same. }
    rewrite list_insert_id by done.
    by rewrite (sort_by_slot_sorted _ _ Hks Hsorted).
Qed.

End item_dialog_facts.

Lemma save_without_edits_changes_nothing_witness :
  _find_inventory_item [stack 3 "minecraft:stone" 64; stack 5 "minecraft:dirt" 1]
    5 None = Ok (Some 1%nat) ∧
  initial_id (H := no_tag_text) (Some (stack 5 "minecraft:dirt" 1))
  = "minecraft:dirt" ∧
  initial_count (Some (stack 5 "minecraft:dirt" 1)) = Ok (str_int 1) ∧
  _on_save (initial_slot 5) "minecraft:dirt" (str_int 1)
  = Ok (ActionSave 5 "minecraft:dirt" 1) ∧
  _edit_inventory_item (Some Compound)
    [stack 3 "minecraft:stone" 64; stack 5 "minecraft:dirt" 1]
    5 (Some (ActionSave 5 "minecraft:dirt" 1))
  = ([stack 3 "minecraft:stone" 64; stack 5 "minecraft:dirt" 1], None).
Proof.
  apply (save_without_edits_changes_nothing (H := no_tag_text) (Some Compound)
           [stack 3 "minecraft:stone" 64; stack 5 "minecraft:dirt" 1] [3; 5]
           5 1 "minecraft:dirt" 1 (stack 5 "minecraft:dirt" 1)).
  - reflexivity.
  - repeat constructor. lia.
  - reflexivity.
  - reflexivity.
  - reflexivity.
  - reflexivity.
  - reflexivity.
  - discriminate.
  - reflexivity.
  - lia.
  - intros [|[|j]] other Hj Hother; [|done|done].
    injection Hother as <-. discriminate.
Defined.

(** ** The inventory: which entry a button shows and which it edits *)

Lemma find_from_first i items slot :
  Forall integer_slot items →
  ∃ r, find_from i items slot None = Ok r ∧
       ((r = None ∧ filter (λ item, slot_number item = slot) items = []) ∨
        (∃ j item,
           r = Some (i + j)%nat ∧ items !! j = Some item ∧
           head (filter (λ item, slot_number item = slot) items) = Some item ∧
           ∀ j' other, (j' < j)%nat → items !! j' = Some other →
                       slot_number other ≠ slot)).
Proof.
  revert i. induction items as [|item items IH]; intros i Hslots.
  - exists None. split; [done|]. by left.
  - apply Forall_cons in Hslots as [Hitem Hslots]. simpl.
    rewrite (integer_slot_read _ Hitem). simpl.
    destruct (slot_number item =? slot) eqn:E.
    + apply Z.eqb_eq in E. exists (Some i). split; [done|]. right.
      exists 0%nat, item. rewrite Nat.add_0_r.
      rewrite filter_cons_True by done.
      split_and!; try done. intros j' other Hlt. lia.
    + apply Z.eqb_neq in E.
      destruct (IH (S i) Hslots) as (r & Hr & Hcase).
      exists r. split; [done|].
      rewrite filter_cons_False by done.
      destruct Hcase as [[-> Hnone]|(j & first & -> & Hj & Hhead & Hbefore)];
        [by left|right].
      exists (S j), first. split_and!; try done.
      * f_equal. lia.
      * intros [|j'] other Hlt Hother.
        -- by injection Hother as <-.
        -- apply (Hbefore j' other); [lia|done].
Qed.

(** The button of a slot shows the last entry of the list that has the slot,
    and a click on it opens the dialog on the first one: with two entries in
    one slot, the entry that is edited or deleted is not the one shown.  No
    entry before the one that is opened has the slot. *)
Theorem button_shows_last_and_edits_first (inventory : list compound) (slot : Z) :
  Forall integer_slot inventory →
  ∃ by_slot opened,
    items_by_slot inventory = Ok by_slot ∧
    _find_inventory_item inventory slot None = Ok opened ∧
    by_slot !! slot = last (filter (λ item, slot_number item = slot) inventory) ∧
    (opened ≫= λ i, inventory !! i)
    = head (filter (λ item, slot_number item = slot) inventory) ∧
    (∀ i j other, opened = Some i → (j < i)%nat → inventory !! j = Some other →
                  slot_number other ≠ slot).
Proof.
  intros Hslots.
  destruct (items_by_slot_loop_spec inventory ∅ Hslots) as (by_slot & Hm & Hlast).
  destruct (find_from_first 0 inventory slot Hslots) as (opened & Hfind & Hcase).
  exists by_slot, opened. split; [done|]. split; [done|]. split.
  - rewrite Hlast. by destruct (last _).
  - destruct Hcase as [[-> Hnone]|(j & first & -> & Hj & Hhead & Hbefore)].
    + rewrite Hnone. by split.
    + simpl. rewrite Hj, Hhead. split; [done|].
      intros i j' other [= <-]. apply Hbefore.
Qed.

Lemma button_shows_last_and_edits_first_witness :
  ∃ by_slot opened,
    items_by_slot [stack 5 "a" 1; stack 7 "c" 1; stack 5 "b" 2] = Ok by_slot ∧
    _find_inventory_item [stack 5 "a" 1; stack 7 "c" 1; stack 5 "b" 2] 5 None
    = Ok opened ∧
    by_slot !! 5
    = last (filter (λ item, slot_number item = 5)
              [stack 5 "a" 1; stack 7 "c" 1; stack 5 "b" 2]) ∧
    (opened ≫= λ i, [stack 5 "a" 1; stack 7 "c" 1; stack 5 "b" 2] !! i)
    = head (filter (λ item, slot_number item = 5)
              [stack 5 "a" 1; stack 7 "c" 1; stack 5 "b" 2]) ∧
    (∀ i j other, opened = Some i → (j < i)%nat →
                  [stack 5 "a" 1; stack 7 "c" 1; stack 5 "b" 2] !! j = Some other →
                  slot_number other ≠ 5).
Proof.
  apply (button_shows_last_and_edits_first
           [stack 5 "a" 1; stack 7 "c" 1; stack 5 "b" 2] 5).
  repeat constructor.
Defined.

(** ** The inventory: the buttons of a tab *)

Lemma inventory_grid_slots s :
  s ∈ concat INVENTORY_GRID ↔ 0 ≤ s ≤ 35.
Proof.
  split.
  - cbn. intros Hin.
    repeat (apply elem_of_cons in Hin as [->|Hin]; [lia|]).
    by apply elem_of_nil in Hin.
  - intros Hs.
    assert (∃ n : nat, s = Z.of_nat n ∧ (n < 36)%nat) as (n & -> & Hn)
      by (exists (Z.to_nat s); lia).
    do 36 (destruct n as [|n]; [apply (bool_decide_unpack _); by vm_compute|]).
    lia.
Qed.

Lemma ender_grid_slots s :
  s ∈ concat ENDER_GRID ↔ 0 ≤ s ≤ 26.
Proof.
  split.
  - cbn. intros Hin.
    repeat (apply elem_of_cons in Hin as [->|Hin]; [lia|]).
    by apply elem_of_nil in Hin.
  - intros Hs.
    assert (∃ n : nat, s = Z.of_nat n ∧ (n < 27)%nat) as (n & -> & Hn)
      by (exists (Z.to_nat s); lia).
    do 27 (destruct n as [|n]; [apply (bool_decide_unpack _); by vm_compute|]).
    lia.
Qed.

Lemma occupied_slot (inventory : list compound) (by_slot : gmap Z compound) s :
  (∀ s, by_slot !! s = last (filter (λ item, slot_number item = s) inventory)) →
  s ∈ dom by_slot ↔ ∃ item, item ∈ inventory ∧ slot_number item = s.
Proof.
  intros Hlast. rewrite elem_of_dom, Hlast. split.
  - intros [item Hitem]. apply last_Some in Hitem as [l Hl].
    assert (item ∈ filter (λ item, slot_number item = s) inventory) as Hin.
    { rewrite Hl. apply elem_of_app. right. by left. }
    apply list_elem_of_filter in Hin as [? ?]. by exists item.
  - intros (item & Hin & Hs).
    assert (item ∈ filter (λ item, slot_number item = s) inventory) as Hf
      by by apply list_elem_of_filter.
    destruct (filter _ inventory) as [|x l] eqn:E using rev_ind.
    + by apply elem_of_nil in Hf.
    + rewrite last_snoc. by eexists.
Qed.

Lemma last_filter_elem_of {A} (P : A → Prop) `{∀ x, Decision (P x)}
  (l : list A) (x : A) :
  last (filter P l) = Some x → x ∈ l ∧ P x.
Proof.
  intros [l' Hl]%last_Some.
  assert (x ∈ filter P l) as Hin.
  { rewrite Hl. apply elem_of_app. right. by left. }
  by apply list_elem_of_filter in Hin as [? ?].
Qed.

Section button_facts.
Context `{TagText}.

(** The text of the button of an entry whose Count is an integer tag. *)
Lemma button_text_of_entry slot (entry : compound) :
  integer_count entry →
  ∃ text, _format_slot_button_text slot (Some entry) = Ok text.
Proof.
  unfold integer_count, _format_slot_button_text.
  destruct (dict_get "Count" entry) as [[c n| | | | |]|]; try done;
    intros _; by eexists.
Qed.

Lemma make_buttons_ok (by_slot : gmap Z compound) (slots : list Z) :
  (∀ s entry, by_slot !! s = Some entry → integer_count entry) →
  ∃ buttons,
    make_buttons by_slot slots = Ok buttons ∧ map fst buttons = slots ∧
    ∀ s text, (s, text) ∈ buttons →
              _format_slot_button_text s (by_slot !! s) = Ok text.
Proof.
  intros Hcount. induction slots as [|slot slots IH].
  - exists []. split_and!; try done. by intros s text ?%elem_of_nil.
  - destruct IH as (buttons & Hbuttons & Hslots & Htexts).
    assert (∃ text, _format_slot_button_text slot (by_slot !! slot) = Ok text)
      as [text Htext].
    { destruct (by_slot !! slot) as [entry|] eqn:Hentry; [|by eexists].
      by eapply button_text_of_entry, Hcount. }
    exists ((slot, text) :: buttons). cbn [make_buttons].
    rewrite Htext, Hbuttons. split_and!; [done|by rewrite <- Hslots|].
    intros s text' [[= -> ->]|Hin]%elem_of_cons; [done|by apply Htexts].
Qed.

Lemma make_rows_ok (by_slot : gmap Z compound) (grid_layout : list (list Z)) :
  (∀ s entry, by_slot !! s = Some entry → integer_count entry) →
  ∃ grid,
    make_rows by_slot grid_layout = Ok grid ∧
    map fst (concat grid) = concat grid_layout ∧
    ∀ s text, (s, text) ∈ concat grid →
              _format_slot_button_text s (by_slot !! s) = Ok text.
Proof.
  intros Hcount. induction grid_layout as [|row_slots rest IH].
  - exists []. split_and!; try done. by intros s text ?%elem_of_nil.
  - destruct IH as (grid & Hgrid & Hslots & Htexts).
    destruct (make_buttons_ok by_slot row_slots Hcount)
      as (row & Hrow & Hrow_slots & Hrow_texts).
    exists (row :: grid). cbn [make_rows]. rewrite Hrow, Hgrid.
    split_and!; [done|..].
    + cbn [concat]. by rewrite map_app, Hrow_slots, Hslots.
    + cbn [concat]. intros s text [Hin|Hin]%elem_of_app;
        [by apply Hrow_texts|by apply Htexts].
Qed.

(** The buttons of the two tabs, for a list whose Slot and Count tags are
    integer tags.  The player's inventory has one button for each slot
    0..35, for each of the five armour and offhand slots and for every other
    slot that holds an entry: no slot has two buttons, the special column is
    in ascending order, and every entry's slot has a button.  The ender
    chest has the buttons 0..26 and no others: an entry of another slot is
    not shown.  The text of a button is made from the last entry of its
    slot. *)
Theorem inventory_buttons (inventory : list compound) :
  Forall integer_slot inventory → Forall integer_count inventory →
  (∃ grid special,
     _populate_inventory_frame inventory INVENTORY_GRID true = Ok (grid, special) ∧
     NoDup (map fst (concat grid ++ special)) ∧
     Sorted Z.le (map fst special) ∧
     (∀ s, s ∈ map fst (concat grid ++ special) ↔
           0 ≤ s ≤ 35 ∨ s ∈ SPECIAL_PLAYER_SLOTS ∨
           ∃ item, item ∈ inventory ∧ slot_number item = s) ∧
     (∀ s text,
        (s, text) ∈ concat grid ++ special →
        _format_slot_button_text s
          (last (filter (λ item, slot_number item = s) inventory)) = Ok text))
  ∧
  (∃ grid,
     _populate_inventory_frame inventory ENDER_GRID false = Ok (grid, []) ∧
     NoDup (map fst (concat grid)) ∧
     (∀ s, s ∈ map fst (concat grid) ↔ 0 ≤ s ≤ 26) ∧
     (∀ s text,
        (s, text) ∈ concat grid →
        _format_slot_button_text s
          (last (filter (λ item, slot_number item = s) inventory)) = Ok text)).
Proof.
  intros Hslots Hcounts.
  destruct (items_by_slot_loop_spec inventory ∅ Hslots) as (by_slot & Hm & Hlast0).
  assert (∀ s, by_slot !! s
               = last (filter (λ item, slot_number item = s) inventory)) as Hlast.
  { intros s. rewrite Hlast0. by destruct (last _). }
  assert (∀ s entry, by_slot !! s = Some entry → integer_count entry) as Hcount.
  { intros s entry Hentry. rewrite Hlast in Hentry.
    apply last_filter_elem_of in Hentry as [Hin _].
    rewrite Forall_forall in Hcounts. by apply Hcounts. }
  unfold _populate_inventory_frame, items_by_slot. rewrite Hm.
  cbn [mbind result_bind].
  split.
  - set (all_special := (list_to_set SPECIAL_PLAYER_SLOTS
                         ∪ filter (λ slot, slot ∉ concat INVENTORY_GRID)
                             (dom by_slot) : gset Z)).
    set (column := merge_sort Z.le (elements all_special)).
    assert (∀ s, s ∈ column ↔ s ∈ all_special) as Hcolumn.
    { intros s. unfold column. by rewrite merge_sort_Permutation, elem_of_elements. }
    destruct (make_rows_ok by_slot INVENTORY_GRID Hcount)
      as (grid & -> & Hgrid_slots & Hgrid_texts).
    destruct (make_buttons_ok by_slot column Hcount)
      as (special & -> & Hspecial_slots & Hspecial_texts).
    exists grid, special. split; [done|].
    rewrite map_app, Hgrid_slots, Hspecial_slots.
    split_and!.
    + apply NoDup_app. split_and!.
      * apply (bool_decide_unpack _). by vm_compute.
      * intros s Hgrid' Hspecial. apply Hcolumn in Hspecial.
        apply elem_of_union in Hspecial as [Hspecial|Hspecial].
        -- apply elem_of_list_to_set in Hspecial.
           apply inventory_grid_slots in Hgrid'. cbn in Hspecial.
           repeat (apply elem_of_cons in Hspecial as [->|Hspecial]; [lia|]).
           by apply elem_of_nil in Hspecial.
        -- by apply elem_of_filter in Hspecial as [? _].
      * unfold column. rewrite merge_sort_Permutation. apply NoDup_elements.
    + apply Sorted_merge_sort. intros x y. lia.
    + intros s. rewrite elem_of_app, Hcolumn, inventory_grid_slots.
      unfold all_special.
      rewrite elem_of_union, elem_of_list_to_set, elem_of_filter,
        (occupied_slot inventory by_slot s Hlast), inventory_grid_slots.
      split; [tauto|].
      intros [?|[?|?]]; [tauto|tauto|].
      destruct (decide (0 ≤ s ≤ 35)); tauto.
    + intros s text [Hin|Hin]%elem_of_app; rewrite <- Hlast;
        [by apply Hgrid_texts|by apply Hspecial_texts].
  - destruct (make_rows_ok by_slot ENDER_GRID Hcount)
      as (grid & -> & Hgrid_slots & Hgrid_texts).
    exists grid. split; [done|]. rewrite Hgrid_slots. split_and!.
    + apply (bool_decide_unpack _). by vm_compute.
    + apply ender_grid_slots.
    + intros s text Hin. rewrite <- Hlast. by apply Hgrid_texts.
Qed.

(** What a successful Save leaves behind: the entry with its three fields,
    among entries of other slots. *)
Lemma save_succeeds (subtype : option tag_class)
  (inventory inventory' : list compound)
  (slot new_slot new_count : Z) (new_id : string) :
  _edit_inventory_item subtype inventory slot
    (Some (ActionSave new_slot new_id new_count)) = (inventory', None) →
  ∃ before old after,
    inventory' ≡ₚ before ++ saved_entry new_slot new_id new_count old :: after ∧
    (∀ other, other ∈ before ++ after →
              other ∈ inventory ∧ ∃ k, slot_of other = Ok k ∧ k ≠ new_slot).
Proof.
  unfold _edit_inventory_item.
  destruct (_find_inventory_item inventory slot None) as [item|e] eqn:Hfind;
    [|done].
  destruct (initial_count _) as [text|e]; [|done].
  destruct (_find_inventory_item inventory new_slot item) as [[n|]|e] eqn:Hfree;
    try done.
  pose proof (proj1 (find_None_free _ _ _) Hfree) as Hothers.
  destruct item as [i|].
  - destruct (make_numeric Byte new_slot) as [slot_tag|e] eqn:Eslot; [|done].
    destruct (make_numeric Byte new_count) as [count_tag|e] eqn:Ecount; [|done].
    apply make_numeric_ok in Eslot as [_ ->].
    apply make_numeric_ok in Ecount as [_ ->].
    destruct (sort_by_slot _) as [sorted|e] eqn:Es; [|done].
    intros [= <-]. apply sort_by_slot_ok in Es as [Hp _].
    destruct (find_Some_lookup _ _ _ _ Hfind) as (old & Hold & _ & _).
    rewrite (alter_saved _ _ _ _ _ _ Hold) in Hp.
    exists (take i inventory), old, (drop (S i) inventory).
    split.
    + rewrite Hp, insert_take_drop by by eapply lookup_lt_Some. done.
    + intros other [Hin|Hin]%elem_of_app.
      * apply list_elem_of_lookup in Hin as [j Hj].
        apply lookup_take_Some in Hj as [Hj Hlt].
        split; [by eapply list_elem_of_lookup_2|].
        apply (Hothers j other Hj). intros [= ->]. lia.
      * apply list_elem_of_lookup in Hin as [j Hj].
        rewrite lookup_drop in Hj.
        split; [by eapply list_elem_of_lookup_2|].
        apply (Hothers _ other Hj). intros [= Heq]. lia.
  - destruct (make_numeric Byte new_slot) as [slot_tag|e] eqn:Eslot; [|done].
    destruct (make_numeric Byte new_count) as [count_tag|e] eqn:Ecount; [|done].
    apply make_numeric_ok in Eslot as [_ ->].
    apply make_numeric_ok in Ecount as [_ ->].
    destruct (inventory_append _ _ _) as [appended|e] eqn:Eapp; [|done].
    unfold inventory_append in Eapp.
    destruct subtype as [[| | | | |]|]; try done. injection Eapp as <-.
    destruct (sort_by_slot _) as [sorted|e] eqn:Es; [|done].
    intros [= <-]. apply sort_by_slot_ok in Es as [Hp _].
    exists inventory, [], []. split; [done|].
    rewrite app_nil_r. intros other Hin. split; [done|].
    apply list_elem_of_lookup in Hin as [j Hj]. by apply (Hothers j other Hj).
Qed.

(** After a successful Save the button of the new slot shows what was
    saved: the slot's name, the id and the count. *)
Theorem saved_entry_is_shown (subtype : option tag_class)
  (inventory inventory' : list compound)
  (slot new_slot new_count : Z) (new_id : string) :
  Forall integer_slot inventory →
  _edit_inventory_item subtype inventory slot
    (Some (ActionSave new_slot new_id new_count)) = (inventory', None) →
  ∃ by_slot entry,
    items_by_slot inventory' = Ok by_slot ∧
    by_slot !! new_slot = Some entry ∧
    dict_get "id" entry = Some (TString new_id) ∧
    dict_get "Count" entry = Some (TNum Byte new_count) ∧
    _format_slot_button_text new_slot (by_slot !! new_slot)
    = Ok (default ("Slot " ++ str_int new_slot)
            (slot_name new_slot SPECIAL_SLOT_NAMES)
          ++ newline ++ new_id ++ " ×" ++ str_int new_count)%string.
Proof.
  intros Hslots Hsave.
  destruct (save_succeeds _ _ _ _ _ _ _ Hsave)
    as (before & old & after & Hperm & Hothers).
  set (entry := saved_entry new_slot new_id new_count old) in *.
  destruct (saved_entry_fields new_slot new_id new_count old)
    as (Hslot & Hid & Hcount). fold entry in Hslot, Hid, Hcount.
  assert (integer_slot entry) as Hentry by (unfold integer_slot; by rewrite Hslot).
  assert (slot_number entry = new_slot) as Hnumber
    by (unfold slot_number; by rewrite Hslot).
  assert (∀ other, other ∈ before ++ after →
                   integer_slot other ∧ slot_number other ≠ new_slot) as Hother.
  { intros other Hin. destruct (Hothers other Hin) as (Hinv & k & Hk & Hne).
    rewrite Forall_forall in Hslots. pose proof (Hslots _ Hinv) as Hint.
    split; [done|]. rewrite (integer_slot_read _ Hint) in Hk.
    by injection Hk as ->. }
  assert (Forall integer_slot inventory') as Hslots'.
  { rewrite Hperm. apply Forall_app. split; [|constructor].
    - apply Forall_forall. intros other Hin. apply Hother.
      apply elem_of_app. by left.
    - done.
    - apply Forall_forall. intros other Hin. apply Hother.
      apply elem_of_app. by right. }
  destruct (items_by_slot_loop_spec inventory' ∅ Hslots') as (by_slot & Hm & Hlast).
  assert (filter (λ item, slot_number item = new_slot) inventory' = [entry])
    as Hfilter.
  { apply Permutation_singleton_r. rewrite Hperm, filter_app, filter_cons_True by done.
    assert (∀ l, (∀ other, other ∈ l → slot_number other ≠ new_slot) →
                 filter (λ item, slot_number item = new_slot) l = []) as Hnone.
    { intros l Hl. induction l as [|x l IH]; [done|].
      rewrite filter_cons_False by (apply Hl; by left).
      apply IH. intros other Hin. apply Hl. by right. }
    rewrite !Hnone; [done|..]; intros other Hin; apply Hother, elem_of_app; auto. }
  assert (by_slot !! new_slot = Some entry) as Hshown.
  { by rewrite Hlast, Hfilter. }
  exists by_slot, entry. split_and!; try done.
  rewrite Hshown. unfold _format_slot_button_text. by rewrite Hid, Hcount.
Qed.

End button_facts.

Lemma inventory_buttons_witness :
  (∃ grid special,
     _populate_inventory_frame (H := no_tag_text)
       [stack 3 "a" 1; stack 40 "b" 1] INVENTORY_GRID true = Ok (grid, special) ∧
     NoDup (map fst (concat grid ++ special)) ∧
     Sorted Z.le (map fst special) ∧
     (∀ s, s ∈ map fst (concat grid ++ special) ↔
           0 ≤ s ≤ 35 ∨ s ∈ SPECIAL_PLAYER_SLOTS ∨
           ∃ item, item ∈ [stack 3 "a" 1; stack 40 "b" 1] ∧ slot_number item = s) ∧
     (∀ s text,
        (s, text) ∈ concat grid ++ special →
        _format_slot_button_text (H := no_tag_text) s
          (last (filter (λ item, slot_number item = s)
                   [stack 3 "a" 1; stack 40 "b" 1])) = Ok text))
  ∧
  (∃ grid,
     _populate_inventory_frame (H := no_tag_text)
       [stack 3 "a" 1; stack 40 "b" 1] ENDER_GRID false = Ok (grid, []) ∧
     NoDup (map fst (concat grid)) ∧
     (∀ s, s ∈ map fst (concat grid) ↔ 0 ≤ s ≤ 26) ∧
     (∀ s text,
        (s, text) ∈ concat grid →
        _format_slot_button_text (H := no_tag_text) s
          (last (filter (λ item, slot_number item = s)
                   [stack 3 "a" 1; stack 40 "b" 1])) = Ok text)).
Proof.
  apply (inventory_buttons (H := no_tag_text) [stack 3 "a" 1; stack 40 "b" 1]);
    repeat constructor.
Defined.

(** Saving a diamond helmet from the button of the empty helmet slot. *)
Lemma saved_entry_is_shown_witness :
  ∃ by_slot entry,
    items_by_slot [stack 3 "a" 1; stack 103 "minecraft:diamond_helmet" 1]
    = Ok by_slot ∧
    by_slot !! 103 = Some entry ∧
    dict_get "id" entry = Some (TString "minecraft:diamond_helmet") ∧
    dict_get "Count" entry = Some (TNum Byte 1) ∧
    _format_slot_button_text (H := no_tag_text) 103 (by_slot !! 103)
    = Ok (default ("Slot " ++ str_int 103) (slot_name 103 SPECIAL_SLOT_NAMES)
          ++ newline ++ "minecraft:diamond_helmet" ++ " ×" ++ str_int 1)%string.
Proof.
  apply (saved_entry_is_shown (H := no_tag_text) (Some Compound) [stack 3 "a" 1]
           [stack 3 "a" 1; stack 103 "minecraft:diamond_helmet" 1]
           103 103 1 "minecraft:diamond_helmet").
  - repeat constructor.
  - reflexivity.
Defined.

(** ** The inventory: what the item dialog keeps *)

Lemma integer_slot_keys (inventory : list compound) :
  Forall integer_slot inventory →
  slot_keys inventory = Ok (map slot_number inventory).
Proof.
  induction 1 as [|item inventory Hitem _ IH]; [done|].
  simpl. by rewrite (integer_slot_read _ Hitem), IH.
Qed.

Lemma sorted_distinct (l : list Z) : Sorted Z.le l → NoDup l → Sorted Z.lt l.
Proof.
  induction 1 as [|a l Hsorted IH Hhd]; [constructor|].
  intros [Ha Hl]%NoDup_cons. constructor; [by apply IH|].
  destruct Hhd as [|b l Hab]; constructor.
  assert (a ≠ b) by (intros ->; apply Ha; by left). lia.
Qed.

Lemma ascending_distinct (l : list Z) : Sorted Z.lt l → NoDup l.
Proof.
  intros Hsorted%Sorted_StronglySorted; [|intros x y z; lia].
  induction Hsorted as [|a l _ IH Hall]; constructor; [|done].
  intros Hin. rewrite Forall_forall in Hall. specialize (Hall _ Hin). lia.
Qed.

Lemma ascending_sublist (l k : list Z) : sublist k l → Sorted Z.lt l → Sorted Z.lt k.
Proof.
  intros Hsub Hsorted%Sorted_StronglySorted; [|intros x y z; lia].
  apply StronglySorted_Sorted.
  induction Hsub as [|x k l Hsub IH|x k l Hsub IH].
  - constructor.
  - apply StronglySorted_inv in Hsorted as [Hl Hall]. constructor; [by apply IH|].
    apply Forall_forall. intros y Hy. rewrite Forall_forall in Hall.
    apply Hall. by eapply elem_of_sublist.
  - apply StronglySorted_inv in Hsorted as [Hl _]. by apply IH.
Qed.

(** The sort that ends a Save, on entries with integer slots that differ. *)
Lemma sorted_edit (edited : list compound) :
  Forall integer_slot edited →
  NoDup (map slot_number edited) →
  Forall integer_slot
    (match sort_by_slot edited with
     | Ok sorted => (sorted, @None error)
     | Err e => (edited, Some e)
     end).1 ∧
  Sorted Z.lt
    (map slot_number
       (match sort_by_slot edited with
        | Ok sorted => (sorted, @None error)
        | Err e => (edited, Some e)
        end).1).
Proof.
  intros Hedited Hdistinct.
  destruct (sort_by_slot_total _ _ (integer_slot_keys _ Hedited))
    as [sorted Hs].
  rewrite Hs. simpl.
  apply sort_by_slot_ok in Hs as (Hperm & ks & Hks & Hle).
  assert (Forall integer_slot sorted) as Hsorted' by by rewrite Hperm.
  split; [done|].
  rewrite (integer_slot_keys _ Hsorted') in Hks. injection Hks as <-.
  apply sorted_distinct; [done|]. by rewrite Hperm.
Qed.

(** An inventory whose slots ascend strictly - sorted, no two entries in one
    slot - stays so whatever the item dialog returns (cancelled, Delete, or
    Save with a count that fits its tag, as every count that the dialog
    accepts does), and whether the call ends in an error or not. *)
Theorem slots_stay_ascending (subtype : option tag_class)
  (inventory : list compound) (slot : Z) (answer : option dialog_result) :
  Forall integer_slot inventory →
  Sorted Z.lt (map slot_number inventory) →
  (∀ new_slot new_id new_count,
     answer = Some (ActionSave new_slot new_id new_count) → 0 ≤ new_count ≤ 64) →
  Forall integer_slot (_edit_inventory_item subtype inventory slot answer).1 ∧
  Sorted Z.lt
    (map slot_number (_edit_inventory_item subtype inventory slot answer).1).
Proof.
  intros Hslots Hsorted Hcount.
  unfold _edit_inventory_item.
  destruct (_find_inventory_item inventory slot None) as [item|e] eqn:Hfind;
    [|done].
  destruct (initial_count _) as [text|e]; [|done].
  destruct answer as [[|new_slot new_id new_count]|]; [..|done].
  - destruct item as [i|]; [|done]. simpl. split.
    + by apply Forall_delete.
    + eapply ascending_sublist; [|done].
      apply (fmap_sublist slot_number), sublist_delete.
  - specialize (Hcount _ _ _ eq_refl).
    destruct (_find_inventory_item inventory new_slot item) as [[n|]|e] eqn:Hfree;
      try done.
    pose proof (proj1 (find_None_free _ _ _) Hfree) as Hothers.
    unfold make_numeric. simpl numeric_bits. rewrite (count_fits _ Hcount).
    destruct (fits 8 new_slot) eqn:Hfits; [|by destruct item].
    assert (∀ old, integer_slot (saved_entry new_slot new_id new_count old) ∧
                   slot_number (saved_entry new_slot new_id new_count old) = new_slot)
      as Hsaved.
    { intros old.
      destruct (saved_entry_fields new_slot new_id new_count old) as (Hs & _).
      unfold integer_slot, slot_number. by rewrite Hs. }
    assert (∀ j other, inventory !! j = Some other → item ≠ Some j →
                       slot_number other ≠ new_slot) as Hfree'.
    { intros j other Hj Hne.
      destruct (Hothers j other Hj Hne) as (k & Hk & Hkne).
      rewrite Forall_lookup in Hslots.
      rewrite (integer_slot_read _ (Hslots _ _ Hj)) in Hk. by injection Hk as ->. }
    pose proof (ascending_distinct _ Hsorted) as Hdistinct.
    destruct item as [i|].
    + destruct (find_Some_lookup _ _ _ _ Hfind) as (old & Hold & _ & _).
      rewrite (alter_saved _ _ _ _ _ _ Hold).
      destruct (Hsaved old) as [Hint Hnum].
      apply sorted_edit.
      * apply Forall_insert; done.
      * rewrite list_fmap_insert, Hnum.
        rewrite insert_take_drop
          by (rewrite length_fmap; by eapply lookup_lt_Some).
        assert (map slot_number inventory
                = take i (map slot_number inventory)
                  ++ slot_number old :: drop (S i) (map slot_number inventory))
          as Hsplit.
        { symmetry. apply take_drop_middle. by rewrite list_lookup_fmap, Hold. }
        rewrite Hsplit in Hdistinct.
        apply NoDup_app in Hdistinct as (Htake & Hdisj & Hdrop).
        apply NoDup_cons in Hdrop as [_ Hdrop].
        apply NoDup_app. split_and!; [done| |].
        -- intros x Hx [->|Hin]%elem_of_cons.
           ++ apply list_elem_of_lookup in Hx as [j Hj].
              apply lookup_take_Some in Hj as [Hj Hlt].
              rewrite list_lookup_fmap in Hj.
              destruct (inventory !! j) as [other|] eqn:Hother; [|done].
              injection Hj as Hj.
              apply (Hfree' j other Hother); [intros [= ->]; lia|done].
           ++ apply (Hdisj x Hx). by right.
        -- constructor; [|done]. intros Hin.
           apply list_elem_of_lookup in Hin as [j Hj].
           rewrite lookup_drop, list_lookup_fmap in Hj.
           destruct (inventory !! (S i + j)%nat) as [other|] eqn:Hother; [|done].
           injection Hj as Hj.
           apply (Hfree' _ other Hother); [intros [= Heq]; lia|done].
    + change (dict_set "Count" (TNum Byte new_count)
                (dict_set "id" (TString new_id)
                   (dict_set "Slot" (TNum Byte new_slot) [])))
        with (saved_entry new_slot new_id new_count []).
      destruct (Hsaved []) as [Hint Hnum].
      unfold inventory_append.
      destruct subtype as [[| | | | |]|]; try done.
      apply sorted_edit.
      * apply Forall_app. split; [done|]. by constructor.
      * rewrite map_app. simpl. rewrite Hnum.
        apply NoDup_app. split_and!; [done| |by apply NoDup_singleton].
        intros x Hx ->%list_elem_of_singleton.
        apply list_elem_of_lookup in Hx as [j Hj].
        rewrite list_lookup_fmap in Hj.
        destruct (inventory !! j) as [other|] eqn:Hother; [|done].
        injection Hj as Hj. by apply (Hfree' j other Hother).
Qed.

(** Two entries in slots 1 and 3; the first is moved to slot 5. *)
Lemma slots_stay_ascending_witness :
  (_edit_inventory_item (Some Compound) [stack 1 "a" 1; stack 3 "b" 1] 1
     (Some (ActionSave 5 "a" 2))).1
  = [stack 3 "b" 1; stack 5 "a" 2] ∧
  Forall integer_slot
    (_edit_inventory_item (Some Compound) [stack 1 "a" 1; stack 3 "b" 1] 1
       (Some (ActionSave 5 "a" 2))).1 ∧
  Sorted Z.lt
    (map slot_number
       (_edit_inventory_item (Some Compound) [stack 1 "a" 1; stack 3 "b" 1] 1
          (Some (ActionSave 5 "a" 2))).1).
Proof.
  split; [reflexivity|].
  apply (slots_stay_ascending (Some Compound) [stack 1 "a" 1; stack 3 "b" 1] 1
           (Some (ActionSave 5 "a" 2))).
  - repeat constructor.
  - repeat constructor.
  - intros new_slot new_id new_count [= <- <- <-]. lia.
Defined.
